(** * TransitionGroup: the child transition coordinator of @enact/ui/ViewManager

    Shallow embedding of [TransitionGroup]
    (packages/sampler/stories/qa-stories/CheckboxItem.js, lines 91-413) and of
    the Ramda list functions it is built from.

    - A React element is a record [child]: its [key], the hooks its mounted
      instance exposes ([type]) and an opaque [payload] standing for its props.
    - JavaScript numbers that hold lengths and indices are [Z].
    - [this.currentlyTransitioningKeys] and [this.refs] are JS objects used
      as maps: [gmap string _].
    - Methods mutate [this]; they are state transformers on the record
      [TransitionGroup].  Reading a property of [undefined] throws: methods
      that dereference [this.refs[key]] return a [result], which keeps the
      mutated instance on both outcomes.
    - [setState] is applied at once, as a queue of updaters is when it is
      flushed.  React attaches the string ref of a child when it mounts the
      child and deletes it when it unmounts it; this re-render, which
      rebuilds [this.refs] from [state.children], is the explicit step
      [render]. *)

From Stdlib Require Import ZArith String List Bool Lia.
From stdpp Require Import base gmap strings list.

Local Open Scope string_scope.
Local Open Scope list_scope.
Local Open Scope Z_scope.

(** ** Ramda *)

Module R.
Section Lists.
Context {A : Type}.

(** [R.findIndex]: index of the first element satisfying [p], or [-1]. *)
Fixpoint findIndex_from (p : A -> bool) (l : list A) (idx : Z) : Z :=
  match l with
  | [] => -1
  | x :: l' => if p x then idx else findIndex_from p l' (idx + 1)
  end.

Definition findIndex (p : A -> bool) (l : list A) : Z := findIndex_from p l 0.

(** [_containsWith(pred, x, list)]. *)
Definition containsWith (pred : A -> A -> bool) (x : A) (l : list A) : bool :=
  existsb (pred x) l.

(** [R.uniqWith]: scans left to right and pushes an item on [result]
    unless [result] already holds an equivalent one. *)
Fixpoint uniqWith_loop (pred : A -> A -> bool) (result l : list A) : list A :=
  match l with
  | [] => result
  | item :: l' =>
      uniqWith_loop pred
        (if containsWith pred item result then result else result ++ [item]) l'
  end.

Definition uniqWith (pred : A -> A -> bool) (l : list A) : list A :=
  uniqWith_loop pred [] l.

(** [R.unionWith(pred, l1, l2) = uniqWith(pred, concat(l1, l2))]. *)
Definition unionWith (pred : A -> A -> bool) (l1 l2 : list A) : list A :=
  uniqWith pred (l1 ++ l2).

(** Relative index of [Array.prototype.slice] and [splice]: a negative
    index counts from the end, and the result is clamped to [0, len]. *)
Definition relIndex (i len : Z) : Z :=
  if i <? 0 then Z.max (len + i) 0 else Z.min i len.

(** [R.slice(from, to, list)] is [Array.prototype.slice]. *)
Definition slice (from to : Z) (l : list A) : list A :=
  let len := Z.of_nat (length l) in
  let k := relIndex from len in
  let final := relIndex to len in
  take (Z.to_nat (final - k)) (drop (Z.to_nat k) l).

(** [R.splitAt(index, list) = [slice(0, index, list), slice(index, length, list)]]. *)
Definition splitAt (index : Z) (l : list A) : list A * list A :=
  (slice 0 index l, slice index (Z.of_nat (length l)) l).

(** [R.remove(start, count, list)]: copies [list] and calls
    [result.splice(start, count)] on the copy. *)
Definition remove (start count : Z) (l : list A) : list A :=
  let len := Z.of_nat (length l) in
  let actualStart := relIndex start len in
  let actualDeleteCount := Z.min (Z.max count 0) (len - actualStart) in
  take (Z.to_nat actualStart) l
    ++ drop (Z.to_nat (actualStart + actualDeleteCount)) l.
End Lists.

(** [R.eqBy(f, x, y) = R.equals(f(x), f(y))], here at string-valued [f]. *)
Definition eqBy {A : Type} (f : A -> string) (x y : A) : bool :=
  String.eqb (f x) (f y).

(** [R.propEq(name, val, obj)], with the property given by its projection. *)
Definition propEq {A : Type} (prop : A -> string) (val : string) (obj : A) : bool :=
  String.eqb (prop obj) val.

(** [R.lte(a, b) = a <= b]. *)
Definition lte (a b : Z) : bool := a <=? b.
End R.

(** ** Children *)

(** What a lifecycle hook does with the completion callback it is given. *)
Inductive will_hook : Type :=
  | CallsDoneNow      (* invokes the callback before it returns *)
  | CallsDoneLater.   (* keeps the callback; it fires after the hook returned *)

(** The optional hooks of a mounted child. *)
Record component : Type := {
  componentWillAppear : option will_hook;
  componentDidAppear : bool;
  componentWillEnter : option will_hook;
  componentDidEnter : bool;
  componentWillStay : option will_hook;
  componentDidStay : bool;
  componentWillLeave : option will_hook;
  componentDidLeave : bool
}.

Record child : Type := {
  key : string;
  type : component;
  payload : nat
}.

Definition keys (children : list child) : list string := map key children.

(** [const indexOfChild = R.useWith(R.findIndex, [R.propEq('key'), R.identity])] *)
Definition indexOfChild (k : string) (children : list child) : Z :=
  R.findIndex (R.propEq key k) children.

(** [const hasChild = R.compose(R.lte(0), indexOfChild)] *)
Definition hasChild (k : string) (children : list child) : bool :=
  R.lte 0 (indexOfChild k children).

(** [mapChildren]: [props.children] may be absent and may hold null entries. *)
Definition mapChildren (children : option (list (option child))) : list child :=
  match children with
  | Some result => omap id result
  | None => []
  end.

(** [const mergeChildren = R.unionWith(R.eqBy(R.prop('key')))] *)
Definition mergeChildren (a b : list child) : list child :=
  R.unionWith (R.eqBy key) a b.

(** ** The component instance *)

Inductive transition : Type := Appear | Enter | Stay | Leave.

(** Observable actions of the driver, oldest first: [Started t k] when
    [performT(k)] is entered, [DidHook t k] when the child's
    [componentDidT()] is called. *)
Inductive event : Type :=
  | Started (t : transition) (k : string)
  | DidHook (t : transition) (k : string).

Record TransitionGroup : Type := mkTransitionGroup {
  props_children : option (list (option child));
  props_size : Z;
  state_children : list child;
  currentlyTransitioningKeys : gmap string bool;
  keysToEnter : list string;
  keysToLeave : list string;
  keysToStay : list string;
  refs : gmap string component;
  trace : list event
}.

Definition setState (children : list child) (this : TransitionGroup) : TransitionGroup :=
  mkTransitionGroup (props_children this) (props_size this) children
    (currentlyTransitioningKeys this) (keysToEnter this) (keysToLeave this)
    (keysToStay this) (refs this) (trace this).

Definition setProps (children : option (list (option child))) (size : Z)
    (this : TransitionGroup) : TransitionGroup :=
  mkTransitionGroup children size (state_children this)
    (currentlyTransitioningKeys this) (keysToEnter this) (keysToLeave this)
    (keysToStay this) (refs this) (trace this).

Definition setTransitioning (m : gmap string bool) (this : TransitionGroup) : TransitionGroup :=
  mkTransitionGroup (props_children this) (props_size this) (state_children this)
    m (keysToEnter this) (keysToLeave this) (keysToStay this) (refs this) (trace this).

Definition setKeysToEnter (l : list string) (this : TransitionGroup) : TransitionGroup :=
  mkTransitionGroup (props_children this) (props_size this) (state_children this)
    (currentlyTransitioningKeys this) l (keysToLeave this) (keysToStay this)
    (refs this) (trace this).

Definition setKeysToLeave (l : list string) (this : TransitionGroup) : TransitionGroup :=
  mkTransitionGroup (props_children this) (props_size this) (state_children this)
    (currentlyTransitioningKeys this) (keysToEnter this) l (keysToStay this)
    (refs this) (trace this).

Definition setKeysToStay (l : list string) (this : TransitionGroup) : TransitionGroup :=
  mkTransitionGroup (props_children this) (props_size this) (state_children this)
    (currentlyTransitioningKeys this) (keysToEnter this) (keysToLeave this) l
    (refs this) (trace this).

Definition setRefs (r : gmap string component) (this : TransitionGroup) : TransitionGroup :=
  mkTransitionGroup (props_children this) (props_size this) (state_children this)
    (currentlyTransitioningKeys this) (keysToEnter this) (keysToLeave this)
    (keysToStay this) r (trace this).

Definition log (e : event) (this : TransitionGroup) : TransitionGroup :=
  mkTransitionGroup (props_children this) (props_size this) (state_children this)
    (currentlyTransitioningKeys this) (keysToEnter this) (keysToLeave this)
    (keysToStay this) (refs this) (trace this ++ [e]).

(** [this.currentlyTransitioningKeys[key] = true] *)
Definition markTransitioning (k : string) (this : TransitionGroup) : TransitionGroup :=
  setTransitioning (<[k := true]> (currentlyTransitioningKeys this)) this.

(** [delete this.currentlyTransitioningKeys[key]] *)
Definition deleteTransitioning (k : string) (this : TransitionGroup) : TransitionGroup :=
  setTransitioning (delete k (currentlyTransitioningKeys this)) this.

(** Truthiness of [this.currentlyTransitioningKeys[key]]. *)
Definition isTransitioning (this : TransitionGroup) (k : string) : bool :=
  match currentlyTransitioningKeys this !! k with
  | Some b => b
  | None => false
  end.

(** A method either returns or throws the [TypeError] of reading a property
    of [undefined]; the instance keeps what was mutated before the throw. *)
Inductive result : Type :=
  | Ok (this : TransitionGroup)
  | Throw (this : TransitionGroup).

Definition method : Type := TransitionGroup -> result.

Definition andThen (r : result) (m : method) : result :=
  match r with
  | Ok this => m this
  | Throw this => Throw this
  end.

Definition instanceOf (r : result) : TransitionGroup :=
  match r with
  | Ok this => this
  | Throw this => this
  end.

(** [array.forEach(f)] for a throwing [f]. *)
Fixpoint forEach {A : Type} (f : A -> method) (l : list A) : method :=
  fun this =>
    match l with
    | [] => Ok this
    | x :: l' => andThen (f x this) (forEach f l')
    end.

(** [if (component.componentDidT) component.componentDidT()] *)
Definition callDid (t : transition) (k : string) (exposed : bool)
    (this : TransitionGroup) : TransitionGroup :=
  if exposed then log (DidHook t k) this else this.

(** *** Completion handlers and transitions *)

Definition _handleDoneLeaving (k : string) : method := fun this =>
  match refs this !! k with
  | None => Throw this
  | Some component =>
      let this := callDid Leave k (componentDidLeave component) this in
      let this := deleteTransitioning k this in
      let index := indexOfChild k (state_children this) in
      Ok (setState (R.remove index 1 (state_children this)) this)
  end.

Definition performLeave (k : string) : method := fun this =>
  let this := markTransitioning k (log (Started Leave k) this) in
  match refs this !! k with
  | None => Throw this
  | Some component =>
      match componentWillLeave component with
      | Some CallsDoneNow => _handleDoneLeaving k this
      | Some CallsDoneLater => Ok this
      | None => _handleDoneLeaving k this
      end
  end.

Definition _handleDoneAppearing (k : string) : method := fun this =>
  match refs this !! k with
  | None => Throw this
  | Some component =>
      let this := callDid Appear k (componentDidAppear component) this in
      let this := deleteTransitioning k this in
      let currentChildMapping := mapChildren (props_children this) in
      if negb (hasChild k currentChildMapping) then performLeave k this
      else Ok this
  end.

Definition performAppear (k : string) : method := fun this =>
  let this := markTransitioning k (log (Started Appear k) this) in
  match refs this !! k with
  | None => Throw this
  | Some component =>
      match componentWillAppear component with
      | Some CallsDoneNow => _handleDoneAppearing k this
      | Some CallsDoneLater => Ok this
      | None => _handleDoneAppearing k this
      end
  end.

Definition _handleDoneEntering (k : string) : method := fun this =>
  match refs this !! k with
  | None => Throw this
  | Some component =>
      let this := callDid Enter k (componentDidEnter component) this in
      Ok (deleteTransitioning k this)
  end.

Definition performEnter (k : string) : method := fun this =>
  let this := markTransitioning k (log (Started Enter k) this) in
  match refs this !! k with
  | None => Throw this
  | Some component =>
      match componentWillEnter component with
      | Some CallsDoneNow => _handleDoneEntering k this
      | Some CallsDoneLater => Ok this
      | None => _handleDoneEntering k this
      end
  end.

Definition _handleDoneStaying (k : string) : method := fun this =>
  match refs this !! k with
  | None => Throw this
  | Some component => Ok (callDid Stay k (componentDidStay component) this)
  end.

Definition performStay (k : string) : method := fun this =>
  let this := log (Started Stay k) this in
  match refs this !! k with
  | None => Throw this
  | Some component =>
      match componentWillStay component with
      | Some CallsDoneNow => _handleDoneStaying k this
      | Some CallsDoneLater => Ok this
      | None => _handleDoneStaying k this
      end
  end.

(** *** Lifecycle methods *)

Definition constructor (children : option (list (option child))) (size : Z)
    : TransitionGroup :=
  mkTransitionGroup children size (mapChildren children) ∅ [] [] [] ∅ [].

Definition componentWillMount (this : TransitionGroup) : TransitionGroup :=
  setKeysToStay [] (setKeysToLeave [] (setKeysToEnter [] (setTransitioning ∅ this))).

(** [render] gives every tracked child [ref: child.key]; once React has
    committed the output, [this.refs] holds exactly the rendered children. *)
Definition render (this : TransitionGroup) : TransitionGroup :=
  setRefs (list_to_map (map (fun c => (key c, type c)) (state_children this))) this.

Definition componentDidMount : method := fun this =>
  forEach (fun c => performAppear (key c)) (state_children this) this.

(** Lines 223-228: drop children exceeding allowed size. *)
Definition dropExceeding (size : Z) (children : list child)
    : option (list child) * list child :=
  let drop := Z.of_nat (length children) - size in
  if 0 <? drop then
    let '(dropped, children) := R.splitAt drop children in (Some dropped, children)
  else (None, children).

(** [dropped && hasChild(key, dropped)] *)
Definition isDropped (dropped : option (list child)) (k : string) : bool :=
  match dropped with
  | Some d => hasChild k d
  | None => false
  end.

(** Body of the first loop of [componentWillReceiveProps]. *)
Definition markEntering (prevChildMapping : list child) (dropped : option (list child))
    (this : TransitionGroup) (c : child) : TransitionGroup :=
  let k := key c in
  let hasPrev := hasChild k prevChildMapping in
  if negb (isDropped dropped k) then
    if negb hasPrev || isTransitioning this k
    then setKeysToEnter (keysToEnter this ++ [k]) this
    else setKeysToStay (keysToStay this ++ [k]) this
  else this.

(** Body of the second loop. *)
Definition markLeaving (nextChildMapping : list child) (dropped : option (list child))
    (this : TransitionGroup) (c : child) : TransitionGroup :=
  let k := key c in
  let hasNext := hasChild k nextChildMapping in
  if negb (isDropped dropped k) && negb hasNext
  then setKeysToLeave (keysToLeave this ++ [k]) this
  else this.

Definition componentWillReceiveProps (nextChildren : option (list (option child)))
    (nextSize : Z) (this : TransitionGroup) : TransitionGroup :=
  let nextChildMapping := mapChildren nextChildren in
  let prevChildMapping := state_children this in
  let '(dropped, children) :=
    dropExceeding nextSize (mergeChildren prevChildMapping nextChildMapping) in
  let this := setState children this in
  let this := fold_left (markEntering prevChildMapping dropped) nextChildMapping this in
  let this := fold_left (markLeaving nextChildMapping dropped) prevChildMapping this in
  match dropped with
  | Some d => fold_left (fun this c => deleteTransitioning (key c) this) d this
  | None => this
  end.

Definition componentDidUpdate : method := fun this =>
  let toEnter := keysToEnter this in
  let this := setKeysToEnter [] this in
  andThen (forEach performEnter toEnter this) (fun this =>
  let toStay := keysToStay this in
  let this := setKeysToStay [] this in
  andThen (forEach performStay toStay this) (fun this =>
  let toLeave := keysToLeave this in
  let this := setKeysToLeave [] this in
  forEach performLeave toLeave this)).

(** *** What React does with the instance *)

(** Mounting: constructor, [componentWillMount], first render, [componentDidMount]. *)
Definition mount (children : option (list (option child))) (size : Z) : result :=
  componentDidMount (render (componentWillMount (constructor children size))).

(** New props: [componentWillReceiveProps], then [this.props] is replaced,
    the instance re-renders and [componentDidUpdate] runs; state set during
    [componentDidUpdate] is rendered when it returns. *)
Definition receiveProps (nextChildren : option (list (option child))) (nextSize : Z)
    : method := fun this =>
  let this := componentWillReceiveProps nextChildren nextSize this in
  let this := render (setProps nextChildren nextSize this) in
  andThen (componentDidUpdate this) (fun this => Ok (render this)).

Definition handleDone (t : transition) : string -> method :=
  match t with
  | Appear => _handleDoneAppearing
  | Enter => _handleDoneEntering
  | Stay => _handleDoneStaying
  | Leave => _handleDoneLeaving
  end.

Definition perform (t : transition) : string -> method :=
  match t with
  | Appear => performAppear
  | Enter => performEnter
  | Stay => performStay
  | Leave => performLeave
  end.

(** A child fires the completion callback it was given for transition [t]
    of key [k]; the state it sets is rendered afterwards. *)
Definition complete (t : transition) (k : string) : method := fun this =>
  andThen (handleDone t k this) (fun this => Ok (render this)).

(** The states the instance can be in between two calls from outside. *)
Inductive reachable : TransitionGroup -> Prop :=
  | reachable_mount children size this :
      mount children size = Ok this -> reachable this
  | reachable_receiveProps children size this this' :
      reachable this -> receiveProps children size this = Ok this' -> reachable this'
  | reachable_complete t k this this' :
      reachable this -> complete t k this = Ok this' -> reachable this'.

(** ** Sample children *)

(** A child with no lifecycle hook at all. *)
Definition plain : component :=
  Build_component None false None false None false None false.

(** A child that animates: it keeps the completion callback of its enter
    and leave transitions until the animation has run. *)
Definition animated : component :=
  Build_component None false (Some CallsDoneLater) false
    None false (Some CallsDoneLater) false.

Definition view (k : string) (version : nat) : child :=
  Build_child k animated version.

Definition item (k : string) : child := Build_child k plain 0.

(** [fresh seen c]: no child of [seen] has the key of [c]. *)
Definition fresh (seen : list child) (c : child) : bool :=
  negb (hasChild (key c) seen).


(** ** Reading the trace *)

Definition kindOf (e : event) : transition :=
  match e with
  | Started t _ => t
  | DidHook t _ => t
  end.

(** The keys for which a transition was started, in order. *)
Definition startedKeys (l : list event) : list string :=
  omap (fun e => match e with Started _ k => Some k | DidHook _ _ => None end) l.

(** All three pending queues are drained. *)
Definition drained (this : TransitionGroup) : Prop :=
  keysToEnter this = [] /\ keysToStay this = [] /\ keysToLeave this = [].

(** [this.refs] is what the last render of [state.children] produced. *)
Definition rendered (this : TransitionGroup) : Prop :=
  refs this = refs (render this).

(** What one started transition of [componentDidUpdate] does: it returns,
    logs its own start followed only by events of its own kind, and leaves
    the refs and the pending queues alone. *)
Definition transition_step (t : transition) (k : string)
    (this this' : TransitionGroup) : Prop :=
  (exists evs, trace this' = trace this ++ Started t k :: evs
               /\ Forall (fun e => kindOf e = t) evs /\ startedKeys evs = [])
  /\ refs this' = refs this
  /\ keysToEnter this' = keysToEnter this
  /\ keysToStay this' = keysToStay this
  /\ keysToLeave this' = keysToLeave this.

(** A [forEach] over keys that all have a ref. *)
Definition transition_run (t : transition) (ks : list string)
    (this this' : TransitionGroup) : Prop :=
  (exists evs, trace this' = trace this ++ evs
               /\ Forall (fun e => kindOf e = t) evs /\ startedKeys evs = ks)
  /\ refs this' = refs this
  /\ keysToEnter this' = keysToEnter this
  /\ keysToStay this' = keysToStay this
  /\ keysToLeave this' = keysToLeave this.

(** ** Classification by [componentWillReceiveProps] *)

(** The conditions under which the two loops push a key. *)
Definition entering (prev : list child) (dropped : option (list child))
    (this : TransitionGroup) (c : child) : bool :=
  negb (isDropped dropped (key c))
  && (negb (hasChild (key c) prev) || isTransitioning this (key c)).

Definition staying (prev : list child) (dropped : option (list child))
    (this : TransitionGroup) (c : child) : bool :=
  negb (isDropped dropped (key c))
  && negb (negb (hasChild (key c) prev) || isTransitioning this (key c)).

Definition leaving (next : list child) (dropped : option (list child))
    (c : child) : bool :=
  negb (isDropped dropped (key c)) && negb (hasChild (key c) next).

(** ** Sample runs *)

(** Two plain children mounted; nothing is in flight. *)
Definition idle_AB : TransitionGroup :=
  instanceOf (mount (Some [Some (item "A"); Some (item "B")]) 2).

(** Three plain children mounted under size 2. *)
Definition idle_ABC : TransitionGroup :=
  instanceOf (mount (Some [Some (item "A"); Some (item "B"); Some (item "C")]) 2).

(** [A] was added to an empty group; its enter animation still runs. *)
Definition entering_A : TransitionGroup :=
  instanceOf (andThen (mount (Some []) 2) (receiveProps (Some [Some (view "A" 1)]) 2)).

(** [A] and [B] were mounted, then [A] was removed from the children; the
    leave animation of [A] still runs, so [A] is still tracked. *)
Definition leaving_A : TransitionGroup :=
  instanceOf (andThen (mount (Some [Some (view "A" 1); Some (view "B" 1)]) 2)
                (receiveProps (Some [Some (view "B" 1)]) 2)).

(** From [leaving_A], the children become [B; C]: the merge [A; B; C]
    exceeds size 2 and [A] is dropped while its leave animation runs. *)
Definition dropped_A : TransitionGroup :=
  instanceOf (receiveProps (Some [Some (view "B" 1); Some (view "C" 1)]) 2 leaving_A).

(** From [leaving_A], the leave animation of [A] has called back. *)
Definition left_A : TransitionGroup :=
  instanceOf (complete Leave "A" leaving_A).

(** ** Transitions by kind *)

(** The [componentWillT] hook of a component. *)
Definition willHook (t : transition) (c : component) : option will_hook :=
  match t with
  | Appear => componentWillAppear c
  | Enter => componentWillEnter c
  | Stay => componentWillStay c
  | Leave => componentWillLeave c
  end.

(** The instance when [performT(k)] looks up the component: the key is
    flagged, except by [performStay]. *)
Definition started (t : transition) (k : string) (this : TransitionGroup)
    : TransitionGroup :=
  match t with
  | Stay => log (Started Stay k) this
  | _ => markTransitioning k (log (Started t k) this)
  end.

(** A child whose appear and leave animations keep the callback. *)
Definition fading : component :=
  Build_component (Some CallsDoneLater) false None false
    None false (Some CallsDoneLater) false.

(** [A] was mounted and, while its appear animation still runs, removed
    from the children. *)
Definition disappearing_A : TransitionGroup :=
  instanceOf (andThen (mount (Some [Some (Build_child "A" fading 1)]) 2)
                (receiveProps (Some []) 2)).

(** From [idle_AB], the children become [B; C] under size 3, and the
    instance has re-rendered: [componentDidUpdate] is about to run. *)
Definition updating_AB : TransitionGroup :=
  let next := Some [Some (item "B"); Some (item "C")] in
  render (setProps next 3 (componentWillReceiveProps next 3 idle_AB)).

(** ** Well-kept instances *)

(** The tracked keys are distinct and only tracked keys are flagged. *)
Definition tidy_children (this : TransitionGroup) : Prop :=
  NoDup (keys (state_children this))
  /\ forall k, is_Some (currentlyTransitioningKeys this !! k) ->
               k ∈ keys (state_children this).

(** The state between two calls from outside of an instance whose children
    have distinct keys. *)
Definition tidy (this : TransitionGroup) : Prop :=
  tidy_children this /\ drained this /\ rendered this.

(** * spotlight/Pause

    Embedding of the module [spotlight/Pause] (src/unnamed/part_003).  The
    module variable [pauseCount] is the state; every function takes it and
    returns it. *)

Module Pause.

(** [let pauseCount = 0;] *)
Definition initial : Z := 0.

Definition pause (pauseCount : Z) : Z := pauseCount + 1.

Definition resume (pauseCount : Z) : Z :=
  if 0 <? pauseCount then pauseCount - 1 else pauseCount.

Definition isPaused (pauseCount : Z) : bool := negb (pauseCount =? 0).

(** The methods of [class Pause]; an instance has no field of its own. *)
Definition Pause_pause (pauseCount : Z) : Z := pause pauseCount.

(** [resume(); return !isPaused();] *)
Definition Pause_resume (pauseCount : Z) : bool * Z :=
  let pauseCount := resume pauseCount in
  (negb (isPaused pauseCount), pauseCount).

(** What a caller of the module can do. *)
Inductive call : Type := CallPause | CallResume.

Definition step (pauseCount : Z) (c : call) : Z :=
  match c with
  | CallPause => pause pauseCount
  | CallResume => resume pauseCount
  end.

Definition run (calls : list call) : Z := fold_left step calls initial.

End Pause.

(** * moonstone/Scroller

    Embedding of the position arithmetic of [ScrollerBase]
    (src/unnamed/part_005).  What the methods read from the DOM and from
    [this.uiRef] is passed in: bounding rectangles, scroll offsets and
    sizes, all in whole pixels, on which the arithmetic of JavaScript numbers
    is exact.  [threshold] stands for [ri.scale(24)]. *)

Module Scroller.

(** The fields of a [getBoundingClientRect()] result that the code reads. *)
Record DOMRect : Type := {
  top : Z;
  left : Z;
  width : Z;
  height : Z
}.

(** The helpers local to [calculateScrollTop]. *)
Definition roundToBoundary (threshold : Z) (sb : DOMRect) (st sh : Z) : Z :=
  if st <? threshold then 0
  else if sh - (st + height sb) <? threshold then sh - height sb
  else st.

Definition isItemBeforeView (ib sb : DOMRect) (d : Z) : bool :=
  top ib + d <? top sb.

Definition isItemAfterView (ib sb : DOMRect) (d : Z) : bool :=
  top ib + d + height ib >? top sb + height sb.

Definition canItemFit (ib sb : DOMRect) : bool := height ib <=? height sb.

Definition calcItemAtStart (ib sb : DOMRect) (st d : Z) : Z :=
  top ib + st + d - top sb.

Definition calcItemAtEnd (ib sb : DOMRect) (st d : Z) : Z :=
  top ib + height ib + st + d - (top sb + height sb).

Definition calcItemInView (threshold : Z) (ib sb : DOMRect) (st sh d : Z) : Z :=
  if isItemBeforeView ib sb d then
    roundToBoundary threshold sb (calcItemAtStart ib sb st d) sh
  else if isItemAfterView ib sb d then
    roundToBoundary threshold sb (calcItemAtEnd ib sb st d) sh
  else st.

(** [calculateScrollTop(item)].  [container] is the bounding rectangle of
    [getSpotlightContainerForNode(item)] when there is one, [itemBounds]
    that of [item], [scrollerBounds], [scrollHeight] and [scrollTop] are
    read from [this.uiRef.containerRef]. *)
Definition calculateScrollTop (threshold : Z) (container : option DOMRect)
    (itemBounds scrollerBounds : DOMRect) (scrollHeight scrollTop : Z) : Z :=
  let scrollTopDelta := 0 in
  match container with
  | Some containerBounds =>
      if canItemFit containerBounds scrollerBounds then
        calcItemInView threshold containerBounds scrollerBounds scrollTop scrollHeight
          scrollTopDelta
      else
        let '(scrollTopDelta, scrollTop) :=
          if top containerBounds >? top scrollerBounds then
            let v := calcItemAtStart containerBounds scrollerBounds scrollTop scrollTopDelta in
            (scrollTop - v, v)
          else (scrollTopDelta, scrollTop) in
        calcItemInView threshold itemBounds scrollerBounds scrollTop scrollHeight
          scrollTopDelta
  | None =>
      calcItemInView threshold itemBounds scrollerBounds scrollTop scrollHeight
        scrollTopDelta
  end.

(** What [calculatePositionOnFocus] reads from [this.uiRef]. *)
Record UiRef : Type := {
  isVertical : bool;
  isHorizontal : bool;
  scrollPos_top : Z;
  scrollPos_left : Z;
  clientWidth : Z;              (* scrollBounds.clientWidth *)
  maxLeft : Z;                  (* scrollBounds.maxLeft *)
  containerBounds : DOMRect;    (* containerRef.getBoundingClientRect() *)
  scrollHeight : Z;             (* containerRef.scrollHeight *)
  scrollTop : Z;                (* containerRef.scrollTop *)
  scrollLeft : Z                (* containerRef.scrollLeft *)
}.

(** What it reads from the focused node. *)
Record Item : Type := {
  contained : bool;                     (* containerRef.contains(item) *)
  bounds : DOMRect;                     (* item.getBoundingClientRect() *)
  spotlightContainer : option DOMRect   (* of getSpotlightContainerForNode(item) *)
}.

(** [getFocusedItemBounds(node)] *)
Definition getFocusedItemBounds (item : Item) : DOMRect :=
  match spotlightContainer item with
  | Some containerBounds => containerBounds
  | None => bounds item
  end.

(** The new [scrollPos.left] of the horizontal branch.  [scrollPosition] is
    falsy when it is absent or zero. *)
Definition calculateScrollLeft (rtl : bool) (ui : UiRef) (item : Item)
    (scrollPosition : option Z) : Z :=
  let itemLeft := left (getFocusedItemBounds item) in
  let itemWidth := width (getFocusedItemBounds item) in
  let rtlDirection := if rtl then -1 else 1 in
  let containerLeft := left (containerBounds ui) in
  let scrollLastPosition :=
    match scrollPosition with
    | Some p => if p =? 0 then scrollPos_left ui else p
    | None => scrollPos_left ui
    end in
  let currentScrollLeft :=
    if rtl then maxLeft ui - scrollLastPosition else scrollLastPosition in
  let newItemLeft := scrollLeft ui + (itemLeft - containerLeft) in
  if (newItemLeft + itemWidth >? clientWidth ui + currentScrollLeft)
     && (itemWidth <? clientWidth ui)
  then scrollPos_left ui
       + rtlDirection * ((newItemLeft + itemWidth) - (clientWidth ui + currentScrollLeft))
  else if newItemLeft <? currentScrollLeft
  then scrollPos_left ui + rtlDirection * (newItemLeft - currentScrollLeft)
  else scrollPos_left ui.

(** [calculatePositionOnFocus({item, scrollPosition})]: the [scrollPos] it
    returns, as [(top, left)], or [None] for [undefined]. *)
Definition calculatePositionOnFocus (threshold : Z) (rtl : bool) (ui : UiRef)
    (item : option Item) (scrollPosition : option Z) : option (Z * Z) :=
  match item with
  | None => None
  | Some item =>
      if negb (isVertical ui) && negb (isHorizontal ui) || negb (contained item)
      then None
      else if isVertical ui then
        Some (calculateScrollTop threshold (spotlightContainer item) (bounds item)
                (containerBounds ui) (scrollHeight ui) (scrollTop ui),
              scrollPos_left ui)
      else if isHorizontal ui then
        Some (scrollPos_top ui, calculateScrollLeft rtl ui item scrollPosition)
      else Some (scrollPos_top ui, scrollPos_left ui)
  end.

End Scroller.

(** * moonstone/VideoPlayer/Video

    Embedding of [VideoBase] (src/packages/moonstone/VideoPlayer/Video.js).
    A source is an [option S], [None] for a missing (falsy) one;
    [getKeyFromSource], imported from [@enact/ui/Media], is a parameter.  A
    media node is known by a number.  Calls that leave the instance are
    logged in [calls], oldest first; [this.video.play()] on a missing node
    throws. *)

Module Video.
Section WithSources.
Context {S : Type}.
Variable getKeyFromSource : option S -> string.

Record Props : Type := {
  source : option S;
  preloadSource : option S;
  noAutoPlay : bool;
  setMedia : option nat       (* the callback, known by a number *)
}.

Inductive effect : Type :=
  | Play (node : nat)                         (* node.play() *)
  | Load (node : nat)                         (* node.load() *)
  | SetMedia (callback : nat) (node : option nat)
  | ForwardLoadStart (ev : option nat).       (* forward('onLoadStart', ev, props) *)

Record VideoBase : Type := mkVideoBase {
  props : Props;
  isPlayerMounted : bool;
  loaded_video : bool;
  loaded_preload : bool;
  loadStartEvent : option nat;
  video : option nat;
  preloadVideo : option nat;
  calls : list effect
}.

Inductive result : Type :=
  | Ok (this : VideoBase)
  | Throw (this : VideoBase).

Definition call (e : effect) (this : VideoBase) : VideoBase :=
  mkVideoBase (props this) (isPlayerMounted this) (loaded_video this) (loaded_preload this)
    (loadStartEvent this) (video this) (preloadVideo this) (calls this ++ [e]).

Definition constructor (p : Props) : VideoBase :=
  mkVideoBase p false false false None None None [].

Definition canPlay (this : VideoBase) : bool :=
  isPlayerMounted this && loaded_video this
  && (negb (bool_decide (is_Some (preloadSource (props this)))) || loaded_preload this).

(** [clearMedia({setMedia} = this.props)] *)
Definition clearMedia (p : Props) (this : VideoBase) : VideoBase :=
  match setMedia p with
  | Some f => call (SetMedia f None) this
  | None => this
  end.

(** [setMedia({setMedia} = this.props)], always called without argument. *)
Definition setMedia_ (this : VideoBase) : VideoBase :=
  match setMedia (props this) with
  | Some f => call (SetMedia f (video this)) this
  | None => this
  end.

Definition autoPlay (this : VideoBase) : result :=
  if noAutoPlay (props this) || negb (canPlay this) then Ok this
  else
    match video this with
    | None => Throw this
    | Some node => Ok (call (ForwardLoadStart (loadStartEvent this)) (call (Play node) this))
    end.

Definition componentDidMount (this : VideoBase) : VideoBase :=
  setMedia_ (mkVideoBase (props this) true (loaded_video this) (loaded_preload this)
               (loadStartEvent this) (video this) (preloadVideo this) (calls this)).

Definition componentWillUnmount (this : VideoBase) : VideoBase :=
  clearMedia (props this) this.

Definition handleVideoLoadStart (ev : nat) (this : VideoBase) : result :=
  autoPlay (mkVideoBase (props this) (isPlayerMounted this) true (loaded_preload this)
              (Some ev) (video this) (preloadVideo this) (calls this)).

Definition handlePreloadVideoLoadStart (this : VideoBase) : result :=
  autoPlay (mkVideoBase (props this) (isPlayerMounted this) (loaded_video this) true
              (loadStartEvent this) (video this) (preloadVideo this) (calls this)).

Definition setVideoRef (node : option nat) (this : VideoBase) : VideoBase :=
  setMedia_ (mkVideoBase (props this) (isPlayerMounted this) (loaded_video this)
               (loaded_preload this) (loadStartEvent this) node (preloadVideo this)
               (calls this)).

Definition setPreloadRef (node : option nat) (this : VideoBase) : VideoBase :=
  let this :=
    match node with
    | Some n => if negb (loaded_preload this) then call (Load n) this else this
    | None => this
    end in
  mkVideoBase (props this) (isPlayerMounted this) (loaded_video this) (loaded_preload this)
    (loadStartEvent this) (video this) node (calls this).

Definition setLoadedVideo (b : bool) (this : VideoBase) : VideoBase :=
  mkVideoBase (props this) (isPlayerMounted this) b (loaded_preload this)
    (loadStartEvent this) (video this) (preloadVideo this) (calls this).

Definition setLoadedPreload (b : bool) (this : VideoBase) : VideoBase :=
  mkVideoBase (props this) (isPlayerMounted this) (loaded_video this) b
    (loadStartEvent this) (video this) (preloadVideo this) (calls this).

(** [componentDidUpdate(prevProps)]; [this.props] are the new props. *)
Definition componentDidUpdate (prevProps : Props) (this : VideoBase) : result :=
  let key := getKeyFromSource (source (props this)) in
  let prevKey := getKeyFromSource (source prevProps) in
  let preloadKey := getKeyFromSource (preloadSource (props this)) in
  let prevPreloadKey := getKeyFromSource (preloadSource prevProps) in
  let hasSource := bool_decide (is_Some (source (props this))) in
  let hasPreload := bool_decide (is_Some (preloadSource (props this))) in
  let this :=
    if hasSource && negb (String.eqb key prevKey) && negb (String.eqb key prevPreloadKey)
    then setLoadedVideo false this else this in
  let this :=
    if hasPreload && negb (String.eqb preloadKey prevPreloadKey) then
      let this := setLoadedPreload (String.eqb preloadKey key) this in
      match preloadVideo this with
      | Some n => call (Load n) this
      | None => this
      end
    else this in
  let this :=
    if negb (bool_decide (setMedia (props this) = setMedia prevProps))
    then setMedia_ (clearMedia prevProps this) else this in
  if hasSource && String.eqb prevPreloadKey key then autoPlay this else Ok this.

(** React replaces [this.props] and then calls [componentDidUpdate]. *)
Definition update (p : Props) (this : VideoBase) : result :=
  componentDidUpdate (props this)
    (mkVideoBase p (isPlayerMounted this) (loaded_video this) (loaded_preload this)
       (loadStartEvent this) (video this) (preloadVideo this) (calls this)).

(** What can happen to a mounted or mounting instance. *)
Inductive event : Type :=
  | DidMount
  | Update (p : Props)
  | WillUnmount
  | VideoLoadStart (ev : nat)
  | PreloadVideoLoadStart
  | VideoRef (node : option nat)
  | PreloadRef (node : option nat).

Definition fire (e : event) (this : VideoBase) : result :=
  match e with
  | DidMount => Ok (componentDidMount this)
  | Update p => update p this
  | WillUnmount => Ok (componentWillUnmount this)
  | VideoLoadStart ev => handleVideoLoadStart ev this
  | PreloadVideoLoadStart => handlePreloadVideoLoadStart this
  | VideoRef node => Ok (setVideoRef node this)
  | PreloadRef node => Ok (setPreloadRef node this)
  end.

Definition instanceOf (r : result) : VideoBase :=
  match r with
  | Ok this => this
  | Throw this => this
  end.

(** [this'] has the calls of [this] followed by calls other than [play()]. *)
Definition quiet (this this' : VideoBase) : Prop :=
  exists pre, calls this' = calls this ++ pre /\ forall node, Play node ∉ pre.

End WithSources.
End Video.

(** * Properties *)

(** ** Key lookup *)

Lemma findIndex_from_range {A} (p : A -> bool) l idx :
  R.findIndex_from p l idx = -1 \/
  idx <= R.findIndex_from p l idx < idx + Z.of_nat (length l).
Proof.
  revert idx. induction l as [|x l IH]; intros idx; simpl; [by left|].
  destruct (p x); [right; lia|].
  destruct (IH (idx + 1)) as [->|H]; [by left|right; lia].
Qed.

Lemma findIndex_from_found {A} (p : A -> bool) l idx :
  0 <= idx -> (0 <=? R.findIndex_from p l idx) = existsb p l.
Proof.
  revert idx. induction l as [|x l IH]; intros idx Hidx; simpl; [done|].
  destruct (p x); simpl; [by apply Z.leb_le|]. apply IH. lia.
Qed.

Lemma hasChild_existsb k children :
  hasChild k children = existsb (R.propEq key k) children.
Proof. unfold hasChild, R.lte, indexOfChild, R.findIndex. by apply findIndex_from_found. Qed.

Lemma hasChild_true k children : hasChild k children = true <-> k ∈ keys children.
Proof.
  rewrite hasChild_existsb, existsb_exists. unfold keys, R.propEq.
  rewrite list_elem_of_fmap. split.
  - intros (c & Hc & Heq). apply String.eqb_eq in Heq.
    exists c. split; [done|]. by apply list_elem_of_In.
  - intros (c & -> & Hc). exists c. split; [by apply list_elem_of_In|].
    apply String.eqb_refl.
Qed.

Lemma hasChild_false k children : hasChild k children = false <-> k ∉ keys children.
Proof.
  rewrite <- hasChild_true. destruct (hasChild k children); split; try done.
Qed.

Lemma hasChild_app k l1 l2 : hasChild k (l1 ++ l2) = hasChild k l1 || hasChild k l2.
Proof. rewrite !hasChild_existsb. apply existsb_app. Qed.

Lemma containsWith_hasChild c l : R.containsWith (R.eqBy key) c l = hasChild (key c) l.
Proof.
  rewrite hasChild_existsb. unfold R.containsWith, R.eqBy, R.propEq.
  induction l as [|y l IH]; simpl; [done|].
  by rewrite IH, (String.eqb_sym (key c) (key y)).
Qed.

(** ** mergeChildren *)

Lemma filter_length_le {A} (p : A -> bool) l : (length (List.filter p l) <= length l)%nat.
Proof. induction l as [|x l IH]; simpl; [lia|]. destruct (p x); simpl; lia. Qed.

Lemma filter_twice {A} (p q : A -> bool) l :
  List.filter p (List.filter q l) = List.filter (fun x => q x && p x) l.
Proof.
  induction l as [|x l IH]; simpl; [done|].
  destruct (q x); simpl; [destruct (p x)|]; by rewrite IH.
Qed.

Lemma uniqWith_loop_fresh_bounded n : forall l res, (length l <= n)%nat ->
  R.uniqWith_loop (R.eqBy key) res l
  = res ++ R.uniqWith (R.eqBy key) (List.filter (fresh res) l).
Proof.
  unfold R.uniqWith.
  induction n as [|n IH]; intros [|c l] res Hn; simpl in *;
    try (by rewrite app_nil_r); try lia.
  unfold fresh at 1. rewrite containsWith_hasChild.
  destruct (hasChild (key c) res) eqn:Hc; simpl; [apply IH; lia|].
  pose proof (filter_length_le (fresh res) l) as Hlen.
  rewrite (IH l (res ++ [c])), (IH _ [c]), <- app_assoc by lia. simpl.
  do 3 f_equal. rewrite filter_twice. apply List.filter_ext.
  intros x. unfold fresh. rewrite hasChild_app.
  by destruct (hasChild (key x) res), (hasChild (key x) [c]).
Qed.

Lemma uniqWith_loop_fresh l res :
  R.uniqWith_loop (R.eqBy key) res l
  = res ++ R.uniqWith (R.eqBy key) (List.filter (fresh res) l).
Proof. by apply (uniqWith_loop_fresh_bounded (length l)). Qed.

Lemma uniqWith_loop_NoDup l : forall res,
  NoDup (keys res) -> NoDup (keys (R.uniqWith_loop (R.eqBy key) res l)).
Proof.
  induction l as [|c l IH]; intros res Hres; simpl; [done|].
  rewrite containsWith_hasChild. destruct (hasChild (key c) res) eqn:Hc; apply IH; [done|].
  unfold keys. rewrite map_app. simpl. apply NoDup_app. split; [done|].
  split; [|apply NoDup_singleton].
  intros k Hk Hk'. apply list_elem_of_singleton in Hk'. subst k.
  apply hasChild_false in Hc. by apply Hc.
Qed.

Lemma uniqWith_loop_id l : forall res,
  NoDup (keys (res ++ l)) -> R.uniqWith_loop (R.eqBy key) res l = res ++ l.
Proof.
  induction l as [|c l IH]; intros res Hnd; simpl; [by rewrite app_nil_r|].
  rewrite containsWith_hasChild.
  replace (res ++ c :: l) with ((res ++ [c]) ++ l) in * by (by rewrite <- app_assoc).
  destruct (hasChild (key c) res) eqn:Hc; [|by apply IH].
  exfalso. apply hasChild_true in Hc.
  unfold keys in Hnd. rewrite !map_app in Hnd. apply NoDup_app in Hnd as [Hnd _].
  apply NoDup_app in Hnd as (_ & Hnd & _). apply (Hnd _ Hc). simpl. by left.
Qed.

Lemma uniqWith_sub l : forall res c,
  c ∈ R.uniqWith_loop (R.eqBy key) res l -> c ∈ res \/ c ∈ l.
Proof.
  induction l as [|x l IH]; intros res c; simpl; [by left|].
  intros Hc. apply IH in Hc as [Hc|Hc]; [|right; by right].
  destruct (R.containsWith (R.eqBy key) x res); [by left|].
  apply elem_of_app in Hc as [Hc|Hc]; [by left|].
  apply list_elem_of_singleton in Hc. subst. right; by left.
Qed.

Lemma uniqWith_loop_app l1 : forall res l2,
  R.uniqWith_loop (R.eqBy key) res (l1 ++ l2)
  = R.uniqWith_loop (R.eqBy key) (R.uniqWith_loop (R.eqBy key) res l1) l2.
Proof. induction l1 as [|c l1 IH]; intros res l2; simpl; [done|apply IH]. Qed.

Lemma hasChild_cons k c l : hasChild k (c :: l) = String.eqb (key c) k || hasChild k l.
Proof. by rewrite !hasChild_existsb. Qed.

Lemma hasChild_uniqWith_loop k l : forall res,
  hasChild k (R.uniqWith_loop (R.eqBy key) res l) = hasChild k res || hasChild k l.
Proof.
  induction l as [|c l IH]; intros res; simpl; [by rewrite orb_false_r|].
  rewrite IH, containsWith_hasChild, hasChild_cons.
  destruct (hasChild (key c) res) eqn:Hc.
  - destruct (String.eqb_spec (key c) k) as [<-|]; [|done]. by rewrite Hc.
  - rewrite hasChild_app, hasChild_cons. simpl.
    by rewrite orb_false_r, orb_assoc.
Qed.

Lemma hasChild_uniqWith k l : hasChild k (R.uniqWith (R.eqBy key) l) = hasChild k l.
Proof. unfold R.uniqWith. by rewrite hasChild_uniqWith_loop. Qed.

Lemma mergeChildren_app a b :
  mergeChildren a b
  = R.uniqWith (R.eqBy key) a ++ R.uniqWith (R.eqBy key) (List.filter (fresh a) b).
Proof.
  unfold mergeChildren, R.unionWith. unfold R.uniqWith at 1.
  rewrite uniqWith_loop_app, uniqWith_loop_fresh. fold (R.uniqWith (R.eqBy key) a).
  do 2 f_equal. apply List.filter_ext. intros c. unfold fresh.
  by rewrite hasChild_uniqWith.
Qed.

Lemma mergeChildren_NoDup a b : NoDup (keys (mergeChildren a b)).
Proof. apply uniqWith_loop_NoDup. constructor. Qed.

Lemma uniqWith_NoDup_id l : NoDup (keys l) -> R.uniqWith (R.eqBy key) l = l.
Proof. intros H. by apply (uniqWith_loop_id l []). Qed.

Lemma hasChild_mergeChildren k a b :
  hasChild k (mergeChildren a b) = hasChild k a || hasChild k b.
Proof.
  unfold mergeChildren, R.unionWith. by rewrite hasChild_uniqWith, hasChild_app.
Qed.

Lemma uniqWith_elem c l : c ∈ R.uniqWith (R.eqBy key) l -> c ∈ l.
Proof. intros H. apply uniqWith_sub in H as [H|H]; [by apply elem_of_nil in H|done]. Qed.

(** C1, as amended: [mergeChildren] lists the tracked children first
    (later duplicates of a key dropped) and then the desired children whose
    key is not tracked; no key occurs twice; every key of either input
    occurs; and the entry of a tracked key is the tracked child itself, so
    the tracked payload is kept.  When the tracked keys are distinct the
    result starts with the tracked collection unchanged. *)
Theorem mergeChildren_keeps_tracked (tracked desired : list child) :
  let merged := mergeChildren tracked desired in
  merged = R.uniqWith (R.eqBy key) tracked
           ++ R.uniqWith (R.eqBy key) (List.filter (fresh tracked) desired)
  /\ NoDup (keys merged)
  /\ (forall k, k ∈ keys merged <-> k ∈ keys tracked \/ k ∈ keys desired)
  /\ (forall c, c ∈ merged -> key c ∈ keys tracked -> c ∈ tracked)
  /\ (forall c, c ∈ merged -> key c ∉ keys tracked -> c ∈ desired)
  /\ (NoDup (keys tracked) ->
      merged = tracked ++ R.uniqWith (R.eqBy key) (List.filter (fresh tracked) desired)).
Proof.
  intros merged. subst merged.
  split; [apply mergeChildren_app|].
  split; [apply mergeChildren_NoDup|].
  split.
  { intros k. rewrite <- !hasChild_true, hasChild_mergeChildren. apply orb_true_iff. }
  assert (Hsplit : forall c, c ∈ mergeChildren tracked desired ->
            c ∈ tracked \/ (c ∈ desired /\ key c ∉ keys tracked)).
  { intros c. rewrite mergeChildren_app, elem_of_app. intros [Hc|Hc].
    - left. by apply uniqWith_elem.
    - right. apply uniqWith_elem, list_elem_of_In, List.filter_In in Hc as [Hc Hf].
      split; [by apply list_elem_of_In|].
      apply hasChild_false. unfold fresh in Hf. by destruct (hasChild (key c) tracked). }
  split; [|split].
  - intros c Hc Hk. by destruct (Hsplit c Hc) as [?|[_ ?]].
  - intros c Hc Hk. destruct (Hsplit c Hc) as [Ht|[? _]]; [|done].
    destruct Hk. unfold keys. apply list_elem_of_fmap. by exists c.
  - intros Hnd. by rewrite mergeChildren_app, uniqWith_NoDup_id.
Qed.

Lemma mergeChildren_keeps_tracked_witness :
  NoDup (keys [view "A" 1; view "B" 1]) /\
  mergeChildren [view "A" 1; view "B" 1] [view "B" 2; view "C" 2]
  = [view "A" 1; view "B" 1; view "C" 2].
Proof.
  assert (Hnd : NoDup (keys [view "A" 1; view "B" 1])).
  { apply NoDup_ListNoDup. vm_compute. repeat constructor; simpl; intuition congruence. }
  split; [exact Hnd|].
  destruct (mergeChildren_keeps_tracked [view "A" 1; view "B" 1] [view "B" 2; view "C" 2])
    as (_ & _ & _ & _ & _ & H).
  exact (H Hnd).
Defined.

(** C1 as stated fails: for a key present in both inputs the merged entry
    is the tracked child, not the desired one. *)
Lemma mergeChildren_desired_payload_lost :
  mergeChildren [view "A" 1] [view "A" 2] = [view "A" 1]
  /\ ~ (forall tracked desired c d,
          c ∈ mergeChildren tracked desired -> d ∈ desired -> key c = key d ->
          payload c = payload d).
Proof.
  split; [reflexivity|].
  intros H.
  specialize (H [view "A" 1] [view "A" 2] (view "A" 1) (view "A" 2)).
  assert (Heq : payload (view "A" 1) = payload (view "A" 2)).
  { apply H; [left|left|reflexivity]. }
  discriminate Heq.
Qed.
(** ** Capacity limiter *)

Lemma splitAt_nonneg {A} (index : Z) (l : list A) :
  0 <= index ->
  R.splitAt index l = (take (Z.to_nat index) l, drop (Z.to_nat index) l).
Proof.
  intros Hidx. unfold R.splitAt, R.slice, R.relIndex.
  assert (Hlen : 0 <= Z.of_nat (length l)) by lia.
  destruct (0 <? 0) eqn:H0; [lia|].
  destruct (index <? 0) eqn:H1; [lia|].
  destruct (Z.of_nat (length l) <? 0) eqn:H2; [lia|].
  rewrite Z.min_id. f_equal.
  - replace (Z.to_nat (Z.min 0 (Z.of_nat (length l)))) with 0%nat by lia.
    rewrite drop_0.
    destruct (Z.le_ge_cases index (Z.of_nat (length l))).
    + f_equal. lia.
    + rewrite !take_ge; [done|lia|lia].
  - destruct (Z.le_ge_cases index (Z.of_nat (length l))).
    + replace (Z.min index (Z.of_nat (length l))) with index by lia.
      apply take_ge. rewrite length_drop. lia.
    + rewrite (drop_ge l (Z.to_nat index)) by lia.
      rewrite drop_ge by lia. apply take_nil.
Qed.

Lemma dropExceeding_fits (size : Z) (children : list child) :
  Z.of_nat (length children) <= size ->
  dropExceeding size children = (None, children).
Proof.
  intros H. unfold dropExceeding.
  destruct (0 <? Z.of_nat (length children) - size) eqn:Hd; [lia|done].
Qed.

Lemma dropExceeding_over (size : Z) (children : list child) :
  size < Z.of_nat (length children) ->
  dropExceeding size children
  = (Some (take (Z.to_nat (Z.of_nat (length children) - size)) children),
     drop (Z.to_nat (Z.of_nat (length children) - size)) children).
Proof.
  intros H. unfold dropExceeding.
  destruct (0 <? Z.of_nat (length children) - size) eqn:Hd; [|lia].
  by rewrite splitAt_nonneg by lia.
Qed.

(** Fields that the loops of [componentWillReceiveProps] leave alone. *)
Lemma markEntering_children prev dropped l : forall this,
  state_children (fold_left (markEntering prev dropped) l this) = state_children this.
Proof.
  induction l as [|c l IH]; intros this; simpl; [done|]. rewrite IH.
  unfold markEntering.
  by destruct (negb (isDropped dropped (key c))),
    (negb (hasChild (key c) prev) || isTransitioning this (key c)).
Qed.

Lemma markLeaving_children next dropped l : forall this,
  state_children (fold_left (markLeaving next dropped) l this) = state_children this.
Proof.
  induction l as [|c l IH]; intros this; simpl; [done|]. rewrite IH.
  unfold markLeaving.
  by destruct (negb (isDropped dropped (key c)) && negb (hasChild (key c) next)).
Qed.

Lemma deleteTransitioning_children l : forall this,
  state_children (fold_left (fun this c => deleteTransitioning (key c) this) l this)
  = state_children this.
Proof. induction l as [|c l IH]; intros this; simpl; [done|]. by rewrite IH. Qed.

Lemma componentWillReceiveProps_children nextChildren nextSize this :
  state_children (componentWillReceiveProps nextChildren nextSize this)
  = snd (dropExceeding nextSize
           (mergeChildren (state_children this) (mapChildren nextChildren))).
Proof.
  unfold componentWillReceiveProps.
  destruct (dropExceeding _ _) as [[d|] children]; simpl;
    rewrite ?deleteTransitioning_children, markLeaving_children, markEntering_children;
    done.
Qed.

Lemma dropExceeding_length (capacity : Z) (l : list child) :
  0 <= capacity -> Z.of_nat (length (snd (dropExceeding capacity l))) <= capacity.
Proof.
  intros Hcap. destruct (Z.le_gt_cases (Z.of_nat (length l)) capacity) as [Hle|Hgt].
  - by rewrite dropExceeding_fits.
  - rewrite dropExceeding_over by lia. simpl. rewrite length_drop. lia.
Qed.

Lemma componentWillReceiveProps_length nextChildren nextSize this :
  0 <= nextSize ->
  Z.of_nat (length (state_children (componentWillReceiveProps nextChildren nextSize this)))
  <= nextSize.
Proof.
  intros Hsize. rewrite componentWillReceiveProps_children.
  by apply dropExceeding_length.
Qed.

(** C2: the limiter drops nothing when the merged collection fits; otherwise
    it drops exactly the first [length - capacity] entries and keeps the
    rest in order; either way what is kept, and so what
    [componentWillReceiveProps] stores as the tracked collection, is no
    longer than the capacity. *)
Theorem dropExceeding_capacity (capacity : Z) (merged : list child) :
  0 <= capacity ->
  let excess := Z.to_nat (Z.of_nat (length merged) - capacity) in
  (Z.of_nat (length merged) <= capacity ->
     dropExceeding capacity merged = (None, merged))
  /\ (capacity < Z.of_nat (length merged) ->
        dropExceeding capacity merged = (Some (take excess merged), drop excess merged)
        /\ Z.of_nat (length (take excess merged)) = Z.of_nat (length merged) - capacity
        /\ take excess merged ++ drop excess merged = merged)
  /\ Z.of_nat (length (snd (dropExceeding capacity merged))) <= capacity
  /\ (forall nextChildren this,
        Z.of_nat (length (state_children
                            (componentWillReceiveProps nextChildren capacity this)))
        <= capacity).
Proof.
  intros Hcap excess.
  split; [apply dropExceeding_fits|].
  split.
  { intros Hgt. split; [by apply dropExceeding_over|].
    split; [|apply take_drop].
    rewrite length_take. subst excess. lia. }
  split; [by apply dropExceeding_length|].
  intros nextChildren this. by apply componentWillReceiveProps_length.
Qed.

Lemma dropExceeding_capacity_witness :
  0 <= 2 /\
  dropExceeding 2 [item "A"; item "B"; item "C"] = (Some [item "A"], [item "B"; item "C"]).
Proof.
  split; [lia|].
  destruct (dropExceeding_capacity 2 [item "A"; item "B"; item "C"]) as (_ & H & _); [lia|].
  destruct H as [H _]; [simpl; lia|]. exact H.
Defined.

(** ** The lifecycle driver *)

Ltac solve_step :=
  repeat split; simpl;
  solve [ eexists; split; [reflexivity|]; split; [constructor|reflexivity]
        | eexists; split; [rewrite <- app_assoc; reflexivity|];
          split; [repeat constructor|reflexivity]
        | reflexivity ].

Lemma performEnter_step k this :
  is_Some (refs this !! k) ->
  exists this', performEnter k this = Ok this' /\ transition_step Enter k this this'.
Proof.
  intros [c Hc]. unfold performEnter, _handleDoneEntering. simpl. rewrite Hc.
  destruct (componentWillEnter c) as [[]|]; simpl; rewrite ?Hc;
    unfold callDid; destruct (componentDidEnter c);
    eexists; (split; [reflexivity|]); unfold transition_step; solve_step.
Qed.

Lemma performStay_step k this :
  is_Some (refs this !! k) ->
  exists this', performStay k this = Ok this' /\ transition_step Stay k this this'.
Proof.
  intros [c Hc]. unfold performStay, _handleDoneStaying. simpl. rewrite Hc.
  destruct (componentWillStay c) as [[]|]; simpl; rewrite ?Hc;
    unfold callDid; destruct (componentDidStay c);
    eexists; (split; [reflexivity|]); unfold transition_step; solve_step.
Qed.

Lemma performLeave_step k this :
  is_Some (refs this !! k) ->
  exists this', performLeave k this = Ok this' /\ transition_step Leave k this this'.
Proof.
  intros [c Hc]. unfold performLeave, _handleDoneLeaving. simpl. rewrite Hc.
  destruct (componentWillLeave c) as [[]|]; simpl; rewrite ?Hc;
    unfold callDid; destruct (componentDidLeave c);
    eexists; (split; [reflexivity|]); unfold transition_step; solve_step.
Qed.

Lemma forEach_run (t : transition) (f : string -> method) :
  (forall k this, is_Some (refs this !! k) ->
     exists this', f k this = Ok this' /\ transition_step t k this this') ->
  forall ks this,
    Forall (fun k => is_Some (refs this !! k)) ks ->
    exists this', forEach f ks this = Ok this' /\ transition_run t ks this this'.
Proof.
  intros Hf. induction ks as [|k ks IH]; intros this Hks; simpl.
  - exists this. split; [done|]. repeat split.
    exists []. by rewrite app_nil_r.
  - apply Forall_cons in Hks as [Hk Hks].
    destruct (Hf k this Hk) as (this1 & -> & (evs1 & Htr1 & Hkind1 & Hst1) & Hrefs1 & He1 & Hs1 & Hl1).
    simpl. destruct (IH this1) as (this2 & -> & (evs2 & Htr2 & Hkind2 & Hst2) & Hrefs2 & He2 & Hs2 & Hl2).
    { by rewrite Hrefs1. }
    exists this2. split; [done|]. repeat split; try congruence.
    exists (Started t k :: evs1 ++ evs2). split; [|split].
    + rewrite Htr2, Htr1, <- app_assoc. done.
    + constructor; [done|]. by apply Forall_app.
    + unfold startedKeys in *. simpl. rewrite omap_app, Hst1, Hst2. done.
Qed.

Lemma componentDidUpdate_run (this : TransitionGroup) :
  Forall (fun k => is_Some (refs this !! k))
    (keysToEnter this ++ keysToStay this ++ keysToLeave this) ->
  exists this' enters stays leaves,
    componentDidUpdate this = Ok this'
    /\ trace this' = trace this ++ enters ++ stays ++ leaves
    /\ Forall (fun e => kindOf e = Enter) enters
    /\ Forall (fun e => kindOf e = Stay) stays
    /\ Forall (fun e => kindOf e = Leave) leaves
    /\ startedKeys enters = keysToEnter this
    /\ startedKeys stays = keysToStay this
    /\ startedKeys leaves = keysToLeave this
    /\ drained this'.
Proof.
  intros Hall. apply Forall_app in Hall as [He Hall]. apply Forall_app in Hall as [Hs Hl].
  unfold componentDidUpdate.
  destruct (forEach_run Enter performEnter performEnter_step (keysToEnter this)
              (setKeysToEnter [] this) He)
    as (this1 & -> & (enters & Htr1 & Hk1 & Hst1) & Hrefs1 & He1 & Hs1 & Hl1).
  simpl in *.
  destruct (forEach_run Stay performStay performStay_step (keysToStay this1)
              (setKeysToStay [] this1))
    as (this2 & -> & (stays & Htr2 & Hk2 & Hst2) & Hrefs2 & He2 & Hs2 & Hl2).
  { simpl. by rewrite Hrefs1, Hs1. }
  simpl in *.
  destruct (forEach_run Leave performLeave performLeave_step (keysToLeave this2)
              (setKeysToLeave [] this2))
    as (this3 & -> & (leaves & Htr3 & Hk3 & Hst3) & Hrefs3 & He3 & Hs3 & Hl3).
  { simpl. by rewrite Hrefs2, Hrefs1, Hl2, Hl1. }
  simpl in *.
  exists this3, enters, stays, leaves. split; [done|].
  split; [by rewrite Htr3, Htr2, Htr1, <- !app_assoc|].
  repeat split; try done; congruence.
Qed.

(** C5: when every queued key has a ref, [componentDidUpdate] returns with
    the queues drained, and what it appends to the trace is a block of
    enter events, then a block of stay events, then a block of leave
    events; the transitions started in each block are the keys of the
    corresponding queue, in queue order. *)
Theorem componentDidUpdate_order (this : TransitionGroup) :
  Forall (fun k => is_Some (refs this !! k))
    (keysToEnter this ++ keysToStay this ++ keysToLeave this) ->
  exists this' enters stays leaves,
    componentDidUpdate this = Ok this'
    /\ trace this' = trace this ++ enters ++ stays ++ leaves
    /\ Forall (fun e => kindOf e = Enter) enters
    /\ Forall (fun e => kindOf e = Stay) stays
    /\ Forall (fun e => kindOf e = Leave) leaves
    /\ startedKeys enters = keysToEnter this
    /\ startedKeys stays = keysToStay this
    /\ startedKeys leaves = keysToLeave this
    /\ drained this'.
Proof. apply componentDidUpdate_run. Qed.

Lemma componentDidUpdate_order_witness :
  exists this' enters stays leaves,
    componentDidUpdate updating_AB = Ok this'
    /\ trace this' = trace updating_AB ++ enters ++ stays ++ leaves
    /\ startedKeys enters = ["C"]
    /\ startedKeys stays = ["B"]
    /\ startedKeys leaves = ["A"].
Proof.
  destruct (componentDidUpdate_order updating_AB)
    as (this' & enters & stays & leaves & Hrun & Htr & _ & _ & _ & He & Hs & Hl & _).
  - repeat constructor; vm_compute; by eexists.
  - exists this', enters, stays, leaves. by repeat split.
Defined.


(** ** What [componentWillReceiveProps] computes *)

Lemma markEntering_fold prev dropped this0 l : forall this,
  currentlyTransitioningKeys this = currentlyTransitioningKeys this0 ->
  fold_left (markEntering prev dropped) l this
  = setKeysToStay (keysToStay this ++ keys (List.filter (staying prev dropped this0) l))
      (setKeysToEnter
         (keysToEnter this ++ keys (List.filter (entering prev dropped this0) l)) this).
Proof.
  induction l as [|c l IH]; intros this Hm; simpl.
  - rewrite !app_nil_r. by destruct this.
  - assert (Htr : isTransitioning this (key c) = isTransitioning this0 (key c)).
    { unfold isTransitioning. by rewrite Hm. }
    rewrite IH.
    + unfold markEntering, entering, staying. rewrite Htr.
      destruct (isDropped dropped (key c)), (hasChild (key c) prev),
        (isTransitioning this0 (key c)); simpl; rewrite <- ?app_assoc; done.
    + rewrite <- Hm. unfold markEntering.
      by destruct (negb (isDropped dropped (key c))),
        (negb (hasChild (key c) prev) || isTransitioning this (key c)).
Qed.

Lemma markLeaving_fold next dropped l : forall this,
  fold_left (markLeaving next dropped) l this
  = setKeysToLeave (keysToLeave this ++ keys (List.filter (leaving next dropped) l)) this.
Proof.
  induction l as [|c l IH]; intros this; simpl.
  - rewrite app_nil_r. by destruct this.
  - rewrite IH. unfold markLeaving, leaving.
    destruct (negb (isDropped dropped (key c)) && negb (hasChild (key c) next));
      simpl; rewrite <- ?app_assoc; done.
Qed.

Lemma deleteTransitioning_fold l : forall this,
  fold_left (fun this c => deleteTransitioning (key c) this) l this
  = setTransitioning
      (fold_left (fun m c => delete (key c) m) l (currentlyTransitioningKeys this)) this.
Proof.
  induction l as [|c l IH]; intros this; simpl; [by destruct this|].
  by rewrite IH.
Qed.

Lemma componentWillReceiveProps_unfold nextChildren nextSize this :
  let next := mapChildren nextChildren in
  let prev := state_children this in
  let dropped := fst (dropExceeding nextSize (mergeChildren prev next)) in
  let children := snd (dropExceeding nextSize (mergeChildren prev next)) in
  componentWillReceiveProps nextChildren nextSize this
  = mkTransitionGroup (props_children this) (props_size this) children
      (fold_left (fun m c => delete (key c) m) (default [] dropped)
         (currentlyTransitioningKeys this))
      (keysToEnter this ++ keys (List.filter (entering prev dropped this) next))
      (keysToLeave this ++ keys (List.filter (leaving next dropped) prev))
      (keysToStay this ++ keys (List.filter (staying prev dropped this) next))
      (refs this) (trace this).
Proof.
  intros next prev dropped children. unfold componentWillReceiveProps.
  fold next. fold prev. subst dropped children.
  destruct (dropExceeding nextSize (mergeChildren prev next)) as [d kept]. simpl.
  rewrite (markEntering_fold prev d this) by done.
  rewrite markLeaving_fold. destruct d as [d|]; [rewrite deleteTransitioning_fold|]; done.
Qed.

Lemma isDropped_default dropped k : isDropped dropped k = hasChild k (default [] dropped).
Proof. by destruct dropped. Qed.

Lemma dropExceeding_app size children :
  default [] (fst (dropExceeding size children)) ++ snd (dropExceeding size children)
  = children.
Proof.
  unfold dropExceeding.
  destruct (0 <? Z.of_nat (length children) - size) eqn:Hd; [|done].
  rewrite splitAt_nonneg by lia. simpl. apply take_drop.
Qed.

(** A child that is merged and not dropped is kept. *)
Lemma kept_of_merged size children k :
  hasChild k children = true ->
  isDropped (fst (dropExceeding size children)) k = false ->
  hasChild k (snd (dropExceeding size children)) = true.
Proof.
  intros Hk Hd. rewrite isDropped_default in Hd.
  rewrite <- (dropExceeding_app size children), hasChild_app, Hd in Hk. done.
Qed.

(** With distinct keys, a kept child is not among the dropped ones. *)
Lemma kept_not_dropped size children k :
  NoDup (keys children) ->
  hasChild k (snd (dropExceeding size children)) = true ->
  isDropped (fst (dropExceeding size children)) k = false.
Proof.
  intros Hnd Hk. rewrite isDropped_default.
  rewrite <- (dropExceeding_app size children) in Hnd.
  unfold keys in Hnd. rewrite map_app in Hnd. apply NoDup_app in Hnd as (_ & Hnd & _).
  apply hasChild_true in Hk. apply hasChild_false. intros Hd. exact (Hnd _ Hd Hk).
Qed.

Lemma refs_render this k :
  is_Some (refs (render this) !! k) <-> k ∈ keys (state_children this).
Proof.
  unfold render, setRefs. cbn [refs].
  rewrite <- not_eq_None_Some. rewrite <- (not_elem_of_list_to_map (M:=gmap string)).
  replace ((map (fun c => (key c, type c)) (state_children this)).*1)
    with (keys (state_children this)).
  - split; [apply dec_stable|tauto].
  - unfold keys. by rewrite <- list_fmap_compose.
Qed.

Lemma elem_of_keys_filter (p : child -> bool) l k :
  k ∈ keys (List.filter p l) <-> exists c, c ∈ l /\ p c = true /\ key c = k.
Proof.
  unfold keys. rewrite list_elem_of_fmap. split.
  - intros (c & -> & Hc). apply list_elem_of_In, List.filter_In in Hc as [Hc Hp].
    exists c. by rewrite list_elem_of_In.
  - intros (c & Hc & Hp & <-). exists c. split; [done|].
    apply list_elem_of_In, List.filter_In. by rewrite <- list_elem_of_In.
Qed.

Lemma elem_of_keys c l : c ∈ l -> key c ∈ keys l.
Proof. intros H. unfold keys. apply list_elem_of_fmap. by exists c. Qed.

(** After [componentWillReceiveProps] every queued key is a tracked key,
    provided the queues were drained before. *)
Lemma componentWillReceiveProps_queued nextChildren nextSize this :
  drained this ->
  let this' := componentWillReceiveProps nextChildren nextSize this in
  Forall (fun k => k ∈ keys (state_children this'))
    (keysToEnter this' ++ keysToStay this' ++ keysToLeave this').
Proof.
  intros (He & Hs & Hl) this'. subst this'.
  rewrite componentWillReceiveProps_unfold. simpl. rewrite He, Hs, Hl. simpl.
  set (prev := state_children this). set (next := mapChildren nextChildren).
  rewrite !Forall_app, !Forall_forall.
  repeat split; intros k (c & Hc & Hp & <-)%elem_of_keys_filter;
    apply hasChild_true, kept_of_merged;
    try (rewrite hasChild_mergeChildren; apply orb_true_iff);
    unfold entering, staying, leaving in Hp;
    try (by destruct (isDropped _ (key c))).
  - right. by apply hasChild_true, elem_of_keys.
  - right. by apply hasChild_true, elem_of_keys.
  - left. by apply hasChild_true, elem_of_keys.
Qed.

Lemma render_render this : render (render this) = render this.
Proof. done. Qed.

Lemma rendered_render this : rendered (render this).
Proof. done. Qed.

(** [receiveProps] returns when the queues were drained, and leaves them
    drained and the refs up to date. *)
Lemma receiveProps_returns nextChildren nextSize this :
  drained this ->
  exists this', receiveProps nextChildren nextSize this = Ok this'
                /\ drained this' /\ rendered this'.
Proof.
  intros Hd. unfold receiveProps.
  pose proof (componentWillReceiveProps_queued nextChildren nextSize this Hd) as Hq.
  simpl in Hq.
  destruct (componentDidUpdate_run
              (render (setProps nextChildren nextSize
                 (componentWillReceiveProps nextChildren nextSize this))))
    as (this' & enters & stays & leaves & -> & _ & _ & _ & _ & _ & _ & _ & Hd').
  { eapply Forall_impl; [exact Hq|]. intros k Hk. by apply refs_render. }
  simpl. eexists. split; [done|]. split; [exact Hd'|apply rendered_render].
Qed.

(** ** Mounting *)

Lemma performAppear_present k this :
  is_Some (refs this !! k) ->
  hasChild k (mapChildren (props_children this)) = true ->
  exists this',
    performAppear k this = Ok this'
    /\ state_children this' = state_children this
    /\ props_children this' = props_children this
    /\ transition_step Appear k this this'.
Proof.
  intros [c Hc] Hk. unfold performAppear, _handleDoneAppearing. simpl. rewrite Hc.
  unfold callDid.
  destruct (componentWillAppear c) as [[]|]; destruct (componentDidAppear c);
    simpl; rewrite ?Hc; simpl; rewrite ?Hk; simpl;
    eexists; (split; [reflexivity|]); unfold transition_step; solve_step.
Qed.

Lemma componentDidMount_run l : forall this,
  Forall (fun c => is_Some (refs this !! key c)
                   /\ hasChild (key c) (mapChildren (props_children this)) = true) l ->
  exists this',
    forEach (fun c => performAppear (key c)) l this = Ok this'
    /\ state_children this' = state_children this
    /\ props_children this' = props_children this
    /\ transition_run Appear (keys l) this this'.
Proof.
  induction l as [|c l IH]; intros this Hl; simpl.
  - exists this. repeat split. exists []. by rewrite app_nil_r.
  - apply Forall_cons in Hl as [[Hr Hp] Hl].
    destruct (performAppear_present _ _ Hr Hp)
      as (this1 & -> & Hch1 & Hpr1 & (evs1 & Htr1 & Hkind1 & Hst1) & Hrefs1 & He1 & Hs1 & Hl1).
    simpl. destruct (IH this1)
      as (this2 & -> & Hch2 & Hpr2 & (evs2 & Htr2 & Hkind2 & Hst2) & Hrefs2 & He2 & Hs2 & Hl2).
    { eapply Forall_impl; [exact Hl|]. intros x. simpl. by rewrite Hrefs1, Hpr1. }
    exists this2. split; [done|]. repeat split; try congruence.
    exists (Started Appear (key c) :: evs1 ++ evs2). split; [|split].
    + rewrite Htr2, Htr1, <- app_assoc. done.
    + constructor; [done|]. by apply Forall_app.
    + unfold startedKeys in *. simpl. rewrite omap_app, Hst1, Hst2. done.
Qed.

(** Mounting returns; it tracks and renders every non-null initial child,
    whatever the size, and starts the appear transition of each, in order. *)
Lemma mount_returns children size :
  exists this,
    mount children size = Ok this
    /\ state_children this = mapChildren children
    /\ props_children this = children
    /\ (forall k, is_Some (refs this !! k) <-> k ∈ keys (mapChildren children))
    /\ Forall (fun e => kindOf e = Appear) (trace this)
    /\ startedKeys (trace this) = keys (mapChildren children)
    /\ drained this /\ rendered this.
Proof.
  unfold mount, componentDidMount.
  set (this0 := render (componentWillMount (constructor children size))).
  destruct (componentDidMount_run (state_children this0) this0)
    as (this & -> & Hch & Hpr & (evs & Htr & Hkind & Hst) & Hrefs & He & Hs & Hl).
  { apply Forall_forall. intros c Hc%elem_of_keys. split.
    - by apply refs_render.
    - by apply hasChild_true. }
  exists this. split; [done|]. split; [done|]. split; [done|].
  split; [|split; [|split; [|split]]].
  - intros k. rewrite Hrefs. apply refs_render.
  - by rewrite Htr.
  - by rewrite Htr.
  - unfold drained. by rewrite He, Hs, Hl.
  - unfold rendered. rewrite Hrefs. unfold render, setRefs. cbn [refs state_children].
    by rewrite Hch.
Qed.

(** ** Reachable states *)

Ltac crack_handlers :=
  unfold handleDone, _handleDoneAppearing, performLeave, _handleDoneLeaving,
    _handleDoneEntering, _handleDoneStaying, callDid;
  cbn [refs log markTransitioning deleteTransitioning setTransitioning setState];
  repeat (case_match; cbn [refs log markTransitioning deleteTransitioning
                             setTransitioning setState andThen instanceOf]).

Lemma handleDone_drained t k this :
  drained this -> drained (instanceOf (handleDone t k this)).
Proof. intros Hd. destruct t; crack_handlers; exact Hd. Qed.

Lemma reachable_invariant this : reachable this -> drained this /\ rendered this.
Proof.
  induction 1 as [children size this Hm|children size this this' _ [Hd _] Hr
                 |t k this this' _ [Hd _] Hc].
  - destruct (mount_returns children size) as (this1 & Hm1 & H). rewrite Hm in Hm1.
    injection Hm1 as ->. tauto.
  - destruct (receiveProps_returns children size this Hd) as (this1 & Hr1 & H).
    rewrite Hr in Hr1. injection Hr1 as ->. exact H.
  - unfold complete in Hc. pose proof (handleDone_drained t k this Hd) as Hd'.
    destruct (handleDone t k this) as [this1|this1]; simpl in *; [|done].
    injection Hc as <-. split; [exact Hd'|apply rendered_render].
Qed.

Lemma elem_of_mapChildren l c : c ∈ mapChildren (Some l) <-> Some c ∈ l.
Proof.
  unfold mapChildren. rewrite list_elem_of_omap. split.
  - by intros ([x|] & Hx & [= ->]).
  - intros Hc. by exists (Some c).
Qed.

(** C10: mounting returns; the tracked collection is the supplied children
    without the null entries, in order and in full whatever the size; each
    of them is rendered and gets its appear transition started, in order,
    and nothing else is started.  Trimming to the size is done by
    [componentWillReceiveProps], when children are supplied again. *)
Theorem mount_tracks_all_children (children : option (list (option child))) (size : Z) :
  exists this,
    mount children size = Ok this
    /\ state_children this = mapChildren children
    /\ (forall l c, children = Some l -> (c ∈ state_children this <-> Some c ∈ l))
    /\ (forall k, is_Some (refs this !! k) <-> k ∈ keys (mapChildren children))
    /\ Forall (fun e => kindOf e = Appear) (trace this)
    /\ startedKeys (trace this) = keys (mapChildren children)
    /\ (0 <= size -> forall nextChildren,
          Z.of_nat (length (state_children
                              (componentWillReceiveProps nextChildren size this)))
          <= size).
Proof.
  destruct (mount_returns children size)
    as (this & Hm & Hch & _ & Hrefs & Hkind & Hst & _).
  exists this. split; [done|]. split; [done|]. split.
  { intros l c ->. rewrite Hch. apply elem_of_mapChildren. }
  split; [done|]. split; [done|]. split; [done|].
  intros Hsize nextChildren.
  by apply componentWillReceiveProps_length.
Qed.

Lemma mount_tracks_all_children_witness :
  exists this,
    mount (Some [Some (item "A"); None; Some (item "B"); Some (item "C")]) 2 = Ok this
    /\ state_children this = [item "A"; item "B"; item "C"]
    /\ Z.of_nat (length (state_children
         (componentWillReceiveProps (Some [Some (item "A"); Some (item "B"); Some (item "C")])
            2 this))) <= 2.
Proof.
  destruct (mount_tracks_all_children
              (Some [Some (item "A"); None; Some (item "B"); Some (item "C")]) 2)
    as (this & Hm & Hch & _ & _ & _ & _ & Htrim).
  exists this. split; [exact Hm|]. split; [exact Hch|].
  apply Htrim. lia.
Defined.

(** ** Re-supplying the tracked collection *)

Lemma mapChildren_Some l : mapChildren (Some (map Some l)) = l.
Proof. unfold mapChildren. induction l as [|c l IH]; simpl; [done|]. by f_equal. Qed.

Lemma filter_none {A} (p : A -> bool) l :
  (forall x, x ∈ l -> p x = false) -> List.filter p l = [].
Proof.
  induction l as [|x l IH]; intros H; simpl; [done|].
  rewrite (H x) by left. apply IH. intros y Hy. apply H. by right.
Qed.

Lemma filter_all {A} (p : A -> bool) l :
  (forall x, x ∈ l -> p x = true) -> List.filter p l = l.
Proof.
  induction l as [|x l IH]; intros H; simpl; [done|].
  rewrite (H x) by left. f_equal. apply IH. intros y Hy. apply H. by right.
Qed.

Lemma mergeChildren_same l : NoDup (keys l) -> mergeChildren l l = l.
Proof.
  intros Hnd. rewrite mergeChildren_app, uniqWith_NoDup_id by done.
  rewrite filter_none; [by rewrite app_nil_r|].
  intros c Hc. unfold fresh. apply elem_of_keys, hasChild_true in Hc. by rewrite Hc.
Qed.

(** [performStay] touches neither the tracked children nor the flags. *)
Lemma forEach_performStay_frame ks : forall this,
  state_children (instanceOf (forEach performStay ks this)) = state_children this
  /\ currentlyTransitioningKeys (instanceOf (forEach performStay ks this))
     = currentlyTransitioningKeys this.
Proof.
  induction ks as [|k ks IH]; intros this; simpl; [done|].
  assert (Hk : state_children (instanceOf (performStay k this)) = state_children this
               /\ currentlyTransitioningKeys (instanceOf (performStay k this))
                  = currentlyTransitioningKeys this).
  { unfold performStay, _handleDoneStaying, callDid. simpl.
    repeat (case_match; simpl); done. }
  destruct (performStay k this) as [this1|this1]; simpl in *; [|done].
  destruct (IH this1) as [-> ->]. done.
Qed.

(** C9, as amended: when the tracked keys are distinct, the tracked
    collection fits the size and no tracked key is in flight, supplying the
    tracked collection again classifies every key as staying and none as
    entering or leaving; the update returns, starts only stay transitions
    and leaves the tracked collection and the flags as they were. *)
Theorem receiveProps_unchanged (this : TransitionGroup) (size : Z) :
  drained this ->
  NoDup (keys (state_children this)) ->
  Z.of_nat (length (state_children this)) <= size ->
  (forall k, k ∈ keys (state_children this) -> isTransitioning this k = false) ->
  let desired := Some (map Some (state_children this)) in
  let classified := componentWillReceiveProps desired size this in
  keysToEnter classified = []
  /\ keysToLeave classified = []
  /\ keysToStay classified = keys (state_children this)
  /\ exists this' stays,
       receiveProps desired size this = Ok this'
       /\ state_children this' = state_children this
       /\ currentlyTransitioningKeys this' = currentlyTransitioningKeys this
       /\ trace this' = trace this ++ stays
       /\ Forall (fun e => kindOf e = Stay) stays
       /\ startedKeys stays = keys (state_children this).
Proof.
  intros (He & Hs & Hl) Hnd Hfit Hidle desired classified.
  assert (Hcl : classified
                = setKeysToStay (keys (state_children this)) this).
  { subst classified desired. rewrite componentWillReceiveProps_unfold.
    rewrite mapChildren_Some, mergeChildren_same, dropExceeding_fits by done.
    cbn [fst snd default]. rewrite He, Hs, Hl. cbn [app fold_left].
    rewrite (filter_none (entering _ _ _)), (filter_none (leaving _ _)),
      (filter_all (staying _ _ _)).
    - unfold setKeysToStay. by rewrite He, Hl.
    - intros c Hc. unfold staying. simpl.
      rewrite (Hidle (key c)) by by apply elem_of_keys.
      apply elem_of_keys, hasChild_true in Hc. by rewrite Hc.
    - intros c Hc. unfold leaving. simpl.
      apply elem_of_keys, hasChild_true in Hc. by rewrite Hc.
    - intros c Hc. unfold entering. simpl.
      rewrite (Hidle (key c)) by by apply elem_of_keys.
      apply elem_of_keys, hasChild_true in Hc. by rewrite Hc. }
  rewrite Hcl. simpl. split; [done|]. split; [done|]. split; [done|].
  unfold receiveProps. fold classified. rewrite Hcl.
  unfold componentDidUpdate.
  cbn [keysToEnter keysToStay keysToLeave render setRefs setProps setKeysToStay
       setKeysToEnter setKeysToLeave].
  rewrite He. cbn [forEach andThen keysToStay keysToLeave setKeysToStay].
  match goal with |- context [forEach performStay ?ks ?s] =>
    pose proof (forEach_performStay_frame ks s) as Hframe;
    destruct (forEach_run Stay performStay performStay_step ks s)
      as (this2 & Hrun & (stays & Htr & Hkind & Hst) & _ & _ & _ & Hl2)
  end.
  { apply Forall_forall. intros k Hk. cbn [refs]. by apply refs_render. }
  rewrite Hrun in *. simpl in Hframe, Htr, Hst, Hl2.
  cbn [andThen]. rewrite Hl2, Hl. cbn [forEach andThen].
  destruct Hframe as [Hch Hfl].
  exists (render (setKeysToLeave [] this2)), stays. by repeat split.
Qed.

Lemma receiveProps_unchanged_witness :
  keysToEnter (componentWillReceiveProps (Some (map Some (state_children idle_AB))) 2 idle_AB)
  = []
  /\ exists this',
       receiveProps (Some (map Some (state_children idle_AB))) 2 idle_AB = Ok this'
       /\ state_children this' = state_children idle_AB
       /\ currentlyTransitioningKeys this' = currentlyTransitioningKeys idle_AB.
Proof.
  destruct (receiveProps_unchanged idle_AB 2)
    as (He & _ & _ & this' & stays & Hr & Hch & Hfl & _).
  - vm_compute. by repeat split.
  - apply NoDup_ListNoDup. vm_compute. repeat constructor; simpl; intuition congruence.
  - vm_compute. discriminate.
  - intros k _. reflexivity.
  - split; [exact He|]. exists this'. by repeat split.
Defined.

(** C9 as stated fails: a tracked key that is in flight is classified as
    entering again when the same collection is supplied, and a tracked
    collection longer than the size is trimmed. *)
Lemma receiveProps_same_not_idempotent :
  (state_children entering_A = [view "A" 1]
   /\ keysToEnter (componentWillReceiveProps (Some (map Some (state_children entering_A)))
                     2 entering_A) = ["A"])
  /\ (state_children idle_ABC = [item "A"; item "B"; item "C"]
      /\ state_children (componentWillReceiveProps (Some (map Some (state_children idle_ABC)))
                           2 idle_ABC) = [item "B"; item "C"]).
Proof. vm_compute. by repeat split. Qed.

(** ** One classification per key *)

(** C6, as amended: in every reachable state, an update classifies no key
    into two of the entering, staying and leaving queues; and a tracked key
    whose flag is set, for instance because its leave is in flight, that is
    supplied again and is still tracked after the size limit was applied, is
    queued as entering and neither as leaving nor as staying. *)
Theorem classification_exclusive (this : TransitionGroup)
    (nextChildren : option (list (option child))) (nextSize : Z) :
  reachable this ->
  let this' := componentWillReceiveProps nextChildren nextSize this in
  (forall k,
     ~ (k ∈ keysToEnter this' /\ k ∈ keysToLeave this')
     /\ ~ (k ∈ keysToEnter this' /\ k ∈ keysToStay this')
     /\ ~ (k ∈ keysToStay this' /\ k ∈ keysToLeave this'))
  /\ (forall k,
        k ∈ keys (mapChildren nextChildren) ->
        k ∈ keys (state_children this) ->
        isTransitioning this k = true ->
        k ∈ keys (state_children this') ->
        k ∈ keysToEnter this' /\ (k ∉ keysToLeave this') /\ (k ∉ keysToStay this')).
Proof.
  intros Hreach this'.
  destruct (reachable_invariant this Hreach) as [(He & Hs & Hl) _].
  subst this'. rewrite componentWillReceiveProps_unfold.
  cbn [keysToEnter keysToLeave keysToStay state_children]. rewrite He, Hs, Hl.
  cbn [app].
  set (prev := state_children this). set (next := mapChildren nextChildren).
  set (dropped := fst (dropExceeding nextSize (mergeChildren prev next))).
  assert (Hnext : forall k, k ∈ keys (List.filter (leaving next dropped) prev) ->
                    hasChild k next = false).
  { intros k (c & _ & Hp & <-)%elem_of_keys_filter. unfold leaving in Hp.
    by destruct (hasChild (key c) next), (isDropped dropped (key c)). }
  assert (Hin : forall p k, k ∈ keys (List.filter p next) -> hasChild k next = true).
  { intros p k (c & Hc & _ & <-)%elem_of_keys_filter. by apply hasChild_true, elem_of_keys. }
  assert (Hes : forall k, k ∈ keys (List.filter (entering prev dropped this) next) ->
                  k ∈ keys (List.filter (staying prev dropped this) next) -> False).
  { intros k (c & _ & Hp & <-)%elem_of_keys_filter (c' & _ & Hp' & Hk)%elem_of_keys_filter.
    unfold entering in Hp. unfold staying in Hp'. rewrite Hk in Hp'.
    by destruct (isDropped dropped (key c)), (hasChild (key c) prev),
         (isTransitioning this (key c)). }
  split.
  - intros k. repeat split.
    + intros [H1 H2]. apply Hin in H1. apply Hnext in H2. congruence.
    + intros [H1 H2]. exact (Hes k H1 H2).
    + intros [H1 H2]. apply Hin in H1. apply Hnext in H2. congruence.
  - intros k Hk Hprev Hfl Hkept.
    assert (Hnd : isDropped dropped k = false).
    { apply kept_not_dropped; [apply mergeChildren_NoDup|by apply hasChild_true]. }
    assert (Henter : k ∈ keys (List.filter (entering prev dropped this) next)).
    { unfold keys in Hk. apply list_elem_of_fmap in Hk as (c & -> & Hc).
      apply elem_of_keys_filter. exists c. split; [done|]. split; [|done].
      unfold entering. by rewrite Hnd, Hfl, orb_true_r. }
    split; [done|]. split.
    + intros H2. apply Hin in Henter. apply Hnext in H2. congruence.
    + intros H2. exact (Hes k Henter H2).
Qed.

Lemma leaving_A_reachable : reachable leaving_A.
Proof.
  apply (reachable_receiveProps (Some [Some (view "B" 1)]) 2
           (instanceOf (mount (Some [Some (view "A" 1); Some (view "B" 1)]) 2))).
  - apply (reachable_mount (Some [Some (view "A" 1); Some (view "B" 1)]) 2).
    vm_compute. reflexivity.
  - vm_compute. reflexivity.
Qed.

Lemma classification_exclusive_witness :
  reachable leaving_A
  /\ "A" ∈ keysToEnter
             (componentWillReceiveProps (Some [Some (view "A" 2); Some (view "B" 2)]) 2
                leaving_A).
Proof.
  split; [exact leaving_A_reachable|].
  destruct (classification_exclusive leaving_A
              (Some [Some (view "A" 2); Some (view "B" 2)]) 2 leaving_A_reachable)
    as [_ H].
  apply (H "A").
  - vm_compute. by left.
  - vm_compute. by left.
  - reflexivity.
  - vm_compute. by left.
Defined.

(** C6 as stated fails: [A] is tracked with its leave in flight and is
    supplied again, but the merge exceeds the size, so [A] is dropped and
    is not classified at all. *)
Lemma resupplied_leaving_key_dropped :
  let desired := Some [Some (view "A" 2); Some (view "B" 2); Some (view "C" 2)] in
  let this' := componentWillReceiveProps desired 2 leaving_A in
  reachable leaving_A
  /\ keys (state_children leaving_A) = ["A"; "B"]
  /\ isTransitioning leaving_A "A" = true
  /\ last (trace leaving_A) = Some (Started Leave "A")
  /\ "A" ∈ keys (mapChildren desired)
  /\ keysToEnter this' = ["C"]
  /\ ("A" ∉ keysToEnter this')
  /\ keys (state_children this') = ["B"; "C"].
Proof.
  cbv zeta. split; [exact leaving_A_reachable|].
  split; [reflexivity|]. split; [reflexivity|]. split; [reflexivity|].
  split; [vm_compute; by left|]. split; [reflexivity|].
  split; [|reflexivity].
  vm_compute. intros H. apply list_elem_of_singleton in H. discriminate H.
Qed.

(** The leave callback of a revived key is not cancelled: [A] is entering
    again and desired, and the callback of its earlier leave removes it. *)
Example revived_key_removed_by_earlier_leave :
  let revived := instanceOf (receiveProps (Some [Some (view "A" 2); Some (view "B" 2)]) 2
                               leaving_A) in
  trace revived = trace leaving_A ++ [Started Enter "A"; Started Stay "B"]
  /\ keys (state_children revived) = ["A"; "B"]
  /\ keys (state_children (instanceOf (complete Leave "A" revived))) = ["B"].
Proof. vm_compute. by repeat split. Qed.

(** ** Hooks and completion *)

(** C8: for each kind of transition, when the child has no hook for it the
    done-handler of that kind runs inside [performT], on the instance as
    [performT] prepared it; this is what happens when the hook exists and
    calls the callback before returning, whereas with a hook that keeps the
    callback [performT] returns without running the handler. *)
Theorem absent_hook_completes_at_once (t : transition) (k : string)
    (this : TransitionGroup) (c : component) :
  refs this !! k = Some c ->
  (willHook t c = None -> perform t k this = handleDone t k (started t k this))
  /\ (willHook t c = Some CallsDoneNow ->
        perform t k this = handleDone t k (started t k this))
  /\ (willHook t c = Some CallsDoneLater -> perform t k this = Ok (started t k this)).
Proof.
  intros Hc.
  destruct t; simpl;
    unfold performAppear, performEnter, performStay, performLeave;
    cbn [refs log markTransitioning setTransitioning]; rewrite Hc;
    repeat split; intros ->; reflexivity.
Qed.

Lemma absent_hook_completes_at_once_witness :
  refs idle_AB !! "A" = Some plain
  /\ perform Leave "A" idle_AB = handleDone Leave "A" (started Leave "A" idle_AB).
Proof.
  assert (H : refs idle_AB !! "A" = Some plain) by (vm_compute; reflexivity).
  split; [exact H|].
  destruct (absent_hook_completes_at_once Leave "A" idle_AB plain H) as [Habsent _].
  apply Habsent. reflexivity.
Defined.

(** ** Removing a child *)

Lemma findIndex_from_split {A} (p : A -> bool) l :
  existsb p l = true ->
  exists l1 x l2, l = l1 ++ x :: l2 /\ p x = true /\ existsb p l1 = false
    /\ forall idx, R.findIndex_from p l idx = idx + Z.of_nat (length l1).
Proof.
  induction l as [|y l IH]; simpl; [done|].
  destruct (p y) eqn:Hy; simpl.
  - intros _. exists [], y, l. simpl. repeat split; try done. intros idx. lia.
  - intros (l1 & x & l2 & -> & Hx & Hl1 & Hidx)%IH.
    exists (y :: l1), x, l2. simpl. rewrite Hy. repeat split; try done.
    intros idx. rewrite Hidx. lia.
Qed.

Lemma findIndex_from_none {A} (p : A -> bool) l idx :
  existsb p l = false -> R.findIndex_from p l idx = -1.
Proof.
  revert idx. induction l as [|y l IH]; intros idx; simpl; [done|].
  destruct (p y); simpl; [done|apply IH].
Qed.

Lemma remove_middle {A} (l1 : list A) x l2 :
  R.remove (Z.of_nat (length l1)) 1 (l1 ++ x :: l2) = l1 ++ l2.
Proof.
  unfold R.remove, R.relIndex. rewrite length_app. cbn [length].
  destruct (Z.ltb_spec (Z.of_nat (length l1)) 0) as [Hneg|_]; [lia|].
  rewrite Z.min_l by lia.
  rewrite (Z.min_l (Z.max 1 0)) by lia.
  rewrite Nat2Z.id.
  replace (Z.to_nat (Z.of_nat (length l1) + Z.max 1 0)) with (length l1 + 1)%nat by lia.
  rewrite take_app_length. f_equal.
  rewrite drop_app_add'; done.
Qed.

(** The updater of [_handleDoneLeaving] removes a tracked key. *)
Lemma remove_tracked k l :
  NoDup (keys l) -> hasChild k l = true ->
  hasChild k (R.remove (indexOfChild k l) 1 l) = false.
Proof.
  intros Hnd Hk. rewrite hasChild_existsb in Hk.
  destruct (findIndex_from_split _ _ Hk) as (l1 & c & l2 & -> & Hc & Hl1 & Hidx).
  unfold indexOfChild, R.findIndex. rewrite Hidx, Z.add_0_l, remove_middle.
  rewrite hasChild_app, hasChild_existsb, Hl1. simpl.
  apply hasChild_false. intros Hl2.
  unfold keys in Hnd. rewrite map_app in Hnd. simpl in Hnd.
  apply NoDup_app in Hnd as (_ & _ & Hnd). apply NoDup_cons in Hnd as [Hnd _].
  apply Hnd. unfold R.propEq in Hc. apply String.eqb_eq in Hc. by rewrite Hc.
Qed.

(** For a key that is not tracked the index is [-1], and [splice(-1, 1)]
    removes the last tracked child. *)
Lemma remove_untracked k l :
  hasChild k l = false ->
  indexOfChild k l = -1
  /\ R.remove (indexOfChild k l) 1 l = take (length l - 1) l.
Proof.
  intros Hk. rewrite hasChild_existsb in Hk.
  assert (Hidx : indexOfChild k l = -1) by (by apply findIndex_from_none).
  split; [done|]. rewrite Hidx. unfold R.remove, R.relIndex.
  destruct l as [|c l]; [done|].
  change (-1 <? 0) with true. cbv iota.
  rewrite Z.max_l by (cbn [length]; lia).
  rewrite (Z.min_l (Z.max 1 0)) by lia.
  replace (Z.to_nat (Z.of_nat (length (c :: l)) + -1 + Z.max 1 0))
    with (length (c :: l)) by lia.
  rewrite drop_all, app_nil_r. f_equal. lia.
Qed.

(** ** A child removed before it had fully appeared *)

Lemma _handleDoneLeaving_removes k this c :
  refs this !! k = Some c ->
  NoDup (keys (state_children this)) ->
  k ∈ keys (state_children this) ->
  exists this' evs,
    _handleDoneLeaving k this = Ok this'
    /\ (k ∉ keys (state_children this'))
    /\ trace this' = trace this ++ evs /\ startedKeys evs = [].
Proof.
  intros Hc Hnd Hk. unfold _handleDoneLeaving. rewrite Hc.
  exists (setState
            (R.remove (indexOfChild k (state_children this)) 1 (state_children this))
            (deleteTransitioning k (callDid Leave k (componentDidLeave c) this))),
    (if componentDidLeave c then [DidHook Leave k] else []).
  unfold callDid. destruct (componentDidLeave c); cbn.
  - repeat split; try done. apply hasChild_false, remove_tracked; [done|].
    by apply hasChild_true.
  - rewrite app_nil_r. repeat split; try done.
    apply hasChild_false, remove_tracked; [done|]. by apply hasChild_true.
Qed.

Lemma _handleDoneAppearing_gone k this c :
  refs this !! k = Some c ->
  hasChild k (mapChildren (props_children this)) = false ->
  _handleDoneAppearing k this
  = performLeave k (deleteTransitioning k (callDid Appear k (componentDidAppear c) this)).
Proof.
  intros Hc Hgone. unfold _handleDoneAppearing. rewrite Hc.
  unfold callDid. destruct (componentDidAppear c); cbn; by rewrite Hgone.
Qed.

Lemma perform_cases t k this c :
  refs this !! k = Some c ->
  perform t k this
  = match willHook t c with
    | Some CallsDoneLater => Ok (started t k this)
    | _ => handleDone t k (started t k this)
    end.
Proof.
  intros Hc.
  destruct t; simpl;
    unfold performAppear, performEnter, performStay, performLeave;
    cbn [refs log markTransitioning setTransitioning]; rewrite Hc;
    by repeat case_match.
Qed.

(** C7: when the appear callback of a tracked, rendered key fires and the
    current children of the parent no longer hold the key, the handler
    returns having started exactly one transition, the leave of that key.
    If the child has no leave hook, or one that calls back at once, the key
    is gone from the tracked collection already; if the hook keeps the
    callback, the key stays tracked and flagged, and the leave callback
    then returns with the key removed. *)
Theorem appear_done_starts_leave (this : TransitionGroup) (k : string) (c : component) :
  refs this !! k = Some c ->
  k ∈ keys (state_children this) ->
  NoDup (keys (state_children this)) ->
  hasChild k (mapChildren (props_children this)) = false ->
  exists this1 evs,
    complete Appear k this = Ok this1
    /\ trace this1 = trace this ++ evs
    /\ Started Leave k ∈ evs
    /\ startedKeys evs = [k]
    /\ (componentWillLeave c <> Some CallsDoneLater ->
          k ∉ keys (state_children this1))
    /\ (componentWillLeave c = Some CallsDoneLater ->
          state_children this1 = state_children this
          /\ isTransitioning this1 k = true
          /\ exists this2, complete Leave k this1 = Ok this2
                           /\ (k ∉ keys (state_children this2))).
Proof.
  intros Hc Hk Hnd Hgone.
  unfold complete. cbn [handleDone]. rewrite (_handleDoneAppearing_gone k this c) by done.
  set (this0 := deleteTransitioning k (callDid Appear k (componentDidAppear c) this)).
  assert (H0 : refs this0 = refs this /\ state_children this0 = state_children this
               /\ exists evs0, trace this0 = trace this ++ evs0 /\ startedKeys evs0 = []).
  { subst this0. unfold callDid. destruct (componentDidAppear c); cbn.
    - repeat split. by exists [DidHook Appear k].
    - repeat split. exists []. by rewrite app_nil_r. }
  destruct H0 as (Hrefs0 & Hch0 & evs0 & Htr0 & Hst0).
  assert (Hc0 : refs this0 !! k = Some c) by (by rewrite Hrefs0).
  rewrite (perform_cases Leave k this0 c Hc0 : performLeave k this0 = _).
  set (this1 := started Leave k this0).
  assert (H1 : refs this1 = refs this /\ state_children this1 = state_children this
               /\ trace this1 = trace this ++ evs0 ++ [Started Leave k]
               /\ isTransitioning this1 k = true).
  { subst this1. unfold isTransitioning.
    cbn [started refs state_children trace currentlyTransitioningKeys log
         markTransitioning setTransitioning].
    rewrite Htr0, <- app_assoc, lookup_insert_eq. by repeat split. }
  destruct H1 as (Hrefs1 & Hch1 & Htr1 & Hfl1).
  assert (Hstart : forall evs', startedKeys evs' = [] ->
            Started Leave k ∈ evs0 ++ [Started Leave k] ++ evs'
            /\ startedKeys (evs0 ++ [Started Leave k] ++ evs') = [k]).
  { intros evs' Hevs'. split.
    - apply elem_of_app. right. by left.
    - unfold startedKeys in *. rewrite !omap_app, Hst0, Hevs'. done. }
  assert (Hnow : exists this2 evs,
            andThen (_handleDoneLeaving k this1) (fun this => Ok (render this)) = Ok this2
            /\ trace this2 = trace this ++ evs /\ Started Leave k ∈ evs
            /\ startedKeys evs = [k] /\ (k ∉ keys (state_children this2))).
  { destruct (_handleDoneLeaving_removes k this1 c) as (this2 & evs' & -> & Hgone2 & Htr2 & Hst2).
    - by rewrite Hrefs1.
    - by rewrite Hch1.
    - by rewrite Hch1.
    - exists (render this2), (evs0 ++ [Started Leave k] ++ evs').
      cbn [andThen trace state_children render setRefs].
      rewrite Htr2, Htr1, <- !app_assoc. destruct (Hstart evs' Hst2). by repeat split. }
  cbn [willHook handleDone].
  destruct (componentWillLeave c) as [[]|] eqn:Hwill.
  - destruct Hnow as (this2 & evs & -> & Htr2 & Hin2 & Hst2 & Hgone2).
    exists this2, evs. by repeat split.
  - exists (render this1), (evs0 ++ [Started Leave k]). cbn [andThen].
    destruct (Hstart [] eq_refl) as [Hin Hst]. rewrite app_nil_r in Hin, Hst.
    split; [done|]. split; [by rewrite <- Htr1|]. split; [done|]. split; [done|].
    split; [done|]. intros _. split; [done|]. split; [done|].
    unfold complete. cbn [handleDone].
    assert (Hr : is_Some (refs (render this1) !! k)).
    { apply refs_render. by rewrite Hch1. }
    destruct Hr as [c' Hc'].
    destruct (_handleDoneLeaving_removes k (render this1) c' Hc')
      as (this2 & evs' & -> & Hgone2 & _).
    + cbn [state_children render setRefs]. by rewrite Hch1.
    + cbn [state_children render setRefs]. by rewrite Hch1.
    + exists (render this2). by split.
  - destruct Hnow as (this2 & evs & -> & Htr2 & Hin2 & Hst2 & Hgone2).
    exists this2, evs. by repeat split.
Qed.

Lemma appear_done_starts_leave_witness :
  exists this1,
    complete Appear "A" disappearing_A = Ok this1
    /\ exists this2, complete Leave "A" this1 = Ok this2
                     /\ ("A" ∉ keys (state_children this2)).
Proof.
  destruct (appear_done_starts_leave disappearing_A "A" fading)
    as (this1 & evs & Hdone & _ & _ & _ & _ & Hlater).
  - vm_compute. reflexivity.
  - vm_compute. by left.
  - apply NoDup_ListNoDup. vm_compute. repeat constructor. simpl. tauto.
  - vm_compute. reflexivity.
  - exists this1. split; [exact Hdone|].
    destruct Hlater as (_ & _ & Hleave); [reflexivity|]. exact Hleave.
Defined.

(** ** Completion callbacks that arrive twice or too late *)

(** The enter and stay callbacks can fire again without changing the
    tracked collection or the flags. *)
Lemma enter_stay_completion_idempotent t k this this1 :
  t = Enter \/ t = Stay ->
  handleDone t k this = Ok this1 ->
  exists this2,
    handleDone t k this1 = Ok this2
    /\ state_children this2 = state_children this1
    /\ currentlyTransitioningKeys this2 = currentlyTransitioningKeys this1.
Proof.
  intros [-> | ->]; cbn [handleDone]; unfold _handleDoneEntering, _handleDoneStaying.
  - destruct (refs this !! k) as [c|] eqn:Hc; [|done]. intros [= <-].
    assert (Hc1 : refs (deleteTransitioning k (callDid Enter k (componentDidEnter c) this))
                  !! k = Some c).
    { unfold callDid. by destruct (componentDidEnter c). }
    rewrite Hc1. eexists. split; [reflexivity|].
    unfold callDid. destruct (componentDidEnter c); cbn; by rewrite delete_delete_eq.
  - destruct (refs this !! k) as [c|] eqn:Hc; [|done]. intros [= <-].
    assert (Hc1 : refs (callDid Stay k (componentDidStay c) this) !! k = Some c).
    { unfold callDid. by destruct (componentDidStay c). }
    rewrite Hc1. eexists. split; [reflexivity|].
    unfold callDid. by destruct (componentDidStay c).
Qed.

(** A completion callback for a key that is not rendered throws, whatever
    its kind, before it changes anything. *)
Lemma handleDone_untracked t k this :
  rendered this -> k ∉ keys (state_children this) ->
  handleDone t k this = Throw this /\ complete t k this = Throw this.
Proof.
  intros Hr Hk.
  assert (Hnone : refs this !! k = None).
  { rewrite Hr. apply eq_None_not_Some. intros Hs. by apply Hk, refs_render. }
  unfold complete.
  destruct t; cbn [handleDone];
    unfold _handleDoneAppearing, _handleDoneEntering, _handleDoneStaying,
      _handleDoneLeaving; by rewrite Hnone.
Qed.

(** C3 at its failing input: [A] is leaving and [B] stays.  The first leave
    callback of [A] removes [A].  A second one, after the re-render, throws;
    a second one in the same batch, before the re-render, returns and
    removes [B] as well. *)
Theorem second_leave_completion :
  keys (state_children leaving_A) = ["A"; "B"]
  /\ complete Leave "A" leaving_A = Ok left_A
  /\ keys (state_children left_A) = ["B"]
  /\ complete Leave "A" left_A = Throw left_A
  /\ exists this1 this2,
       _handleDoneLeaving "A" leaving_A = Ok this1
       /\ keys (state_children this1) = ["B"]
       /\ _handleDoneLeaving "A" this1 = Ok this2
       /\ state_children this2 = [].
Proof.
  split; [reflexivity|]. split; [vm_compute; reflexivity|].
  split; [reflexivity|]. split; [vm_compute; reflexivity|].
  exists (instanceOf (_handleDoneLeaving "A" leaving_A)),
    (instanceOf (andThen (_handleDoneLeaving "A" leaving_A) (_handleDoneLeaving "A"))).
  split; [vm_compute; reflexivity|]. split; [reflexivity|].
  split; [vm_compute; reflexivity|]. reflexivity.
Qed.

(** C4 at its failing input: [A] was dropped by the size limit while its
    leave was in flight, which cleared its flag.  Every completion callback
    that then arrives for [A] throws. *)
Theorem completion_of_dropped_key :
  keys (state_children leaving_A) = ["A"; "B"]
  /\ isTransitioning leaving_A "A" = true
  /\ receiveProps (Some [Some (view "B" 1); Some (view "C" 1)]) 2 leaving_A = Ok dropped_A
  /\ keys (state_children dropped_A) = ["B"; "C"]
  /\ isTransitioning dropped_A "A" = false
  /\ forall t, complete t "A" dropped_A = Throw dropped_A.
Proof.
  split; [reflexivity|]. split; [reflexivity|]. split; [vm_compute; reflexivity|].
  split; [reflexivity|]. split; [reflexivity|].
  intros t. apply handleDone_untracked.
  - vm_compute. reflexivity.
  - vm_compute. intros H. repeat (apply elem_of_cons in H as [H|H]; [discriminate H|]).
    by apply elem_of_nil in H.
Qed.

(** ** A whole update *)

(** From a reachable state every update returns, and what C5 says of
    [componentDidUpdate] holds of the update, with the queues as
    [componentWillReceiveProps] filled them. *)
Lemma receiveProps_order this nextChildren nextSize :
  reachable this ->
  let classified := componentWillReceiveProps nextChildren nextSize this in
  exists this' enters stays leaves,
    receiveProps nextChildren nextSize this = Ok this'
    /\ trace this' = trace this ++ enters ++ stays ++ leaves
    /\ Forall (fun e => kindOf e = Enter) enters
    /\ Forall (fun e => kindOf e = Stay) stays
    /\ Forall (fun e => kindOf e = Leave) leaves
    /\ startedKeys enters = keysToEnter classified
    /\ startedKeys stays = keysToStay classified
    /\ startedKeys leaves = keysToLeave classified.
Proof.
  intros Hreach classified.
  destruct (reachable_invariant this Hreach) as [Hd _].
  pose proof (componentWillReceiveProps_queued nextChildren nextSize this Hd) as Hq.
  cbv zeta in Hq. fold classified in Hq.
  unfold receiveProps. fold classified.
  destruct (componentDidUpdate_run (render (setProps nextChildren nextSize classified)))
    as (this' & enters & stays & leaves & -> & Htr & Hke & Hks & Hkl & He & Hs & Hl & _).
  { eapply Forall_impl; [exact Hq|]. intros k Hk. by apply refs_render. }
  exists (render this'), enters, stays, leaves. cbn [andThen].
  split; [done|]. split; [|by repeat split].
  cbn [trace render setRefs]. rewrite Htr. cbn [trace render setRefs setProps].
  by rewrite (componentWillReceiveProps_unfold nextChildren nextSize this : classified = _).
Qed.

(** * Further properties of TransitionGroup *)

(** ** Looking a child up by key *)

Lemma findIndex_from_lookup {A} (p : A -> bool) l : forall idx i,
  0 <= idx -> R.findIndex_from p l idx = i -> idx <= i ->
  exists x, l !! Z.to_nat (i - idx) = Some x /\ p x = true
            /\ existsb p (take (Z.to_nat (i - idx)) l) = false.
Proof.
  induction l as [|y l IH]; intros idx i Hidx; simpl; [lia|].
  destruct (p y) eqn:Hy.
  - intros <- _. rewrite Z.sub_diag. by exists y.
  - intros Hi Hle.
    destruct (findIndex_from_range p l (idx + 1)) as [Hnone|Hr]; [lia|].
    destruct (IH (idx + 1) i) as (x & Hx & Hpx & Hbefore); [lia|done|lia|].
    replace (Z.to_nat (i - idx)) with (S (Z.to_nat (i - (idx + 1)))) by lia.
    exists x. simpl. by rewrite Hy.
Qed.

(** X1: [indexOfChild] returns [-1] exactly when no child has the key;
    otherwise it returns the position of the first child with that key, a
    valid index; [hasChild] holds exactly for the keys present. *)
Theorem indexOfChild_first_match (k : string) (children : list child) :
  (indexOfChild k children = -1 <-> k ∉ keys children)
  /\ (hasChild k children = true <-> k ∈ keys children)
  /\ -1 <= indexOfChild k children < Z.of_nat (length children)
  /\ (0 <= indexOfChild k children ->
      exists c, children !! Z.to_nat (indexOfChild k children) = Some c
                /\ key c = k
                /\ (k ∉ keys (take (Z.to_nat (indexOfChild k children)) children))).
Proof.
  assert (Hrange := findIndex_from_range (R.propEq key k) children 0).
  fold (R.findIndex (R.propEq key k) children) in Hrange.
  fold (indexOfChild k children) in Hrange.
  split; [|split; [apply hasChild_true|split; [lia|]]].
  - rewrite <- hasChild_false. unfold hasChild, R.lte. split.
    + intros ->. reflexivity.
    + intros H. apply Z.leb_gt in H. lia.
  - intros Hfound.
    destruct (findIndex_from_lookup (R.propEq key k) children 0 _ (Z.le_refl 0) eq_refl Hfound)
      as (c & Hc & Hk & Hbefore).
    fold (R.findIndex (R.propEq key k) children) in Hc, Hbefore.
    fold (indexOfChild k children) in Hc, Hbefore.
    rewrite Z.sub_0_r in Hc, Hbefore.
    exists c. split; [done|]. split; [by apply String.eqb_eq|].
    apply hasChild_false. by rewrite hasChild_existsb.
Qed.

Lemma indexOfChild_first_match_witness :
  0 <= indexOfChild "B" [item "A"; item "B"; item "B"]
  /\ exists c, [item "A"; item "B"; item "B"]
               !! Z.to_nat (indexOfChild "B" [item "A"; item "B"; item "B"]) = Some c
               /\ key c = "B".
Proof.
  assert (H : 0 <= indexOfChild "B" [item "A"; item "B"; item "B"]) by (vm_compute; discriminate).
  split; [exact H|].
  destruct (indexOfChild_first_match "B" [item "A"; item "B"; item "B"]) as (_ & _ & _ & Hf).
  destruct (Hf H) as (c & Hc & Hk & _). by exists c.
Defined.

(** ** What an update keeps *)

(** X2: the collection that [componentWillReceiveProps] stores is an end
    piece of the tracked children (first occurrence of each key) followed
    by the supplied children with a new key: nothing is reordered and only
    the oldest entries go.  When the new children alone fit the size, all
    of them are kept. *)
Theorem update_keeps_order (nextChildren : option (list (option child))) (size : Z)
    (this : TransitionGroup) :
  let prev := R.uniqWith (R.eqBy key) (state_children this) in
  let added := R.uniqWith (R.eqBy key)
                 (List.filter (fresh (state_children this)) (mapChildren nextChildren)) in
  let tracked := state_children (componentWillReceiveProps nextChildren size this) in
  tracked = drop (Z.to_nat (Z.of_nat (length (prev ++ added)) - size)) (prev ++ added)
  /\ tracked `suffix_of` prev ++ added
  /\ (Z.of_nat (length added) <= size -> added `suffix_of` tracked).
Proof.
  intros prev added tracked.
  assert (Htracked : tracked
            = drop (Z.to_nat (Z.of_nat (length (prev ++ added)) - size)) (prev ++ added)).
  { subst tracked. rewrite componentWillReceiveProps_children, mergeChildren_app.
    fold prev. fold added.
    destruct (Z.le_gt_cases (Z.of_nat (length (prev ++ added))) size) as [Hle|Hgt].
    - rewrite dropExceeding_fits by done.
      by replace (Z.to_nat (Z.of_nat (length (prev ++ added)) - size)) with 0%nat by lia.
    - by rewrite dropExceeding_over by done. }
  split; [exact Htracked|]. split.
  - rewrite Htracked. apply suffix_drop.
  - intros Hfit. rewrite Htracked.
    set (n := Z.to_nat (Z.of_nat (length (prev ++ added)) - size)).
    assert (Hn : (n <= length prev)%nat).
    { subst n. rewrite length_app. lia. }
    rewrite drop_app_le by done. by apply suffix_app_r.
Qed.

Lemma update_keeps_order_witness :
  Z.of_nat (length (R.uniqWith (R.eqBy key)
              (List.filter (fresh (state_children idle_AB))
                 (mapChildren (Some [Some (item "C"); Some (item "D")]))))) <= 2
  /\ state_children
       (componentWillReceiveProps (Some [Some (item "C"); Some (item "D")]) 2 idle_AB)
     = [item "C"; item "D"].
Proof.
  split; [vm_compute; discriminate|].
  by destruct (update_keeps_order (Some [Some (item "C"); Some (item "D")]) 2 idle_AB)
    as (-> & _ & _).
Defined.

Lemma lookup_fold_delete (l : list child) (m : gmap string bool) k :
  fold_left (fun m c => delete (key c) m) l m !! k
  = if hasChild k l then None else m !! k.
Proof.
  revert m. induction l as [|c l IH]; intros m; simpl; [done|].
  rewrite IH, hasChild_cons.
  destruct (String.eqb_spec (key c) k) as [->|Hne]; simpl.
  - rewrite lookup_delete_eq. by destruct (hasChild k l).
  - rewrite lookup_delete_ne by done. done.
Qed.

(** X3: [componentWillReceiveProps] clears the flag of every key it drops
    and leaves the flag of every other key as it was. *)
Theorem dropped_keys_lose_flag (nextChildren : option (list (option child))) (size : Z)
    (this : TransitionGroup) (k : string) :
  let merged := mergeChildren (state_children this) (mapChildren nextChildren) in
  let dropped := fst (dropExceeding size merged) in
  let this' := componentWillReceiveProps nextChildren size this in
  (isDropped dropped k = true ->
     currentlyTransitioningKeys this' !! k = None /\ isTransitioning this' k = false)
  /\ (isDropped dropped k = false ->
        currentlyTransitioningKeys this' !! k = currentlyTransitioningKeys this !! k).
Proof.
  intros merged dropped this'. subst this'.
  rewrite componentWillReceiveProps_unfold. unfold isTransitioning.
  cbn [currentlyTransitioningKeys]. fold merged. fold dropped.
  rewrite lookup_fold_delete, <- isDropped_default.
  split; intros ->; done.
Qed.

Lemma dropped_keys_lose_flag_witness :
  isTransitioning leaving_A "A" = true
  /\ isTransitioning
       (componentWillReceiveProps (Some [Some (view "B" 1); Some (view "C" 1)]) 2 leaving_A)
       "A" = false.
Proof.
  split; [reflexivity|].
  destruct (dropped_keys_lose_flag (Some [Some (view "B" 1); Some (view "C" 1)]) 2
              leaving_A "A") as [H _].
  apply H. reflexivity.
Defined.

(** X4: after [componentWillReceiveProps] on drained queues, the keys in
    the three queues together are exactly the tracked keys: every child
    that stays tracked is given an enter, a stay or a leave transition, and
    no other key is. *)
Theorem every_tracked_key_classified (nextChildren : option (list (option child)))
    (size : Z) (this : TransitionGroup) (k : string) :
  drained this ->
  let this' := componentWillReceiveProps nextChildren size this in
  k ∈ keys (state_children this')
  <-> k ∈ keysToEnter this' \/ k ∈ keysToStay this' \/ k ∈ keysToLeave this'.
Proof.
  intros Hd this'. split.
  - intros Hk. destruct Hd as (He & Hs & Hl). subst this'.
    rewrite componentWillReceiveProps_children in Hk.
    rewrite componentWillReceiveProps_unfold.
    cbn [keysToEnter keysToStay keysToLeave]. rewrite He, Hs, Hl. cbn [app].
    set (prev := state_children this) in *. set (next := mapChildren nextChildren) in *.
    set (dropped := fst (dropExceeding size (mergeChildren prev next))).
    assert (Hnd : isDropped dropped k = false).
    { apply kept_not_dropped; [apply mergeChildren_NoDup|by apply hasChild_true]. }
    assert (Hm : hasChild k (mergeChildren prev next) = true).
    { apply hasChild_true in Hk.
      rewrite <- (dropExceeding_app size (mergeChildren prev next)), hasChild_app.
      rewrite Hk. apply orb_true_r. }
    rewrite hasChild_mergeChildren in Hm.
    destruct (hasChild k next) eqn:Hnext.
    + apply hasChild_true in Hnext. unfold keys in Hnext.
      apply list_elem_of_fmap in Hnext as (c & -> & Hc).
      destruct (negb (hasChild (key c) prev) || isTransitioning this (key c)) eqn:Hcase.
      * left. apply elem_of_keys_filter. exists c. unfold entering.
        by rewrite Hnd, Hcase.
      * right; left. apply elem_of_keys_filter. exists c. unfold staying.
        by rewrite Hnd, Hcase.
    + rewrite orb_false_r in Hm. apply hasChild_true in Hm. unfold keys in Hm.
      apply list_elem_of_fmap in Hm as (c & -> & Hc).
      right; right. apply elem_of_keys_filter. exists c. unfold leaving.
      by rewrite Hnd, Hnext.
  - intros Hk.
    pose proof (componentWillReceiveProps_queued nextChildren size this Hd) as Hq.
    cbv zeta in Hq. fold this' in Hq. rewrite !Forall_app, !Forall_forall in Hq.
    destruct Hq as (Hqe & Hqs & Hql). destruct Hk as [Hk|[Hk|Hk]]; auto.
Qed.

Lemma every_tracked_key_classified_witness :
  drained leaving_A
  /\ ("B" ∈ keys (state_children
                    (componentWillReceiveProps (Some [Some (view "A" 2)]) 2 leaving_A))
      <-> "B" ∈ keysToEnter (componentWillReceiveProps (Some [Some (view "A" 2)]) 2 leaving_A)
          \/ "B" ∈ keysToStay (componentWillReceiveProps (Some [Some (view "A" 2)]) 2 leaving_A)
          \/ "B" ∈ keysToLeave (componentWillReceiveProps (Some [Some (view "A" 2)]) 2 leaving_A)).
Proof.
  assert (Hd : drained leaving_A) by (vm_compute; by repeat split).
  split; [exact Hd|].
  exact (every_tracked_key_classified (Some [Some (view "A" 2)]) 2 leaving_A "B" Hd).
Defined.

(** ** Completion callbacks of tracked keys *)

Lemma remove_tracked_filter k l :
  NoDup (keys l) -> hasChild k l = true ->
  R.remove (indexOfChild k l) 1 l
  = List.filter (fun c => negb (String.eqb (key c) k)) l.
Proof.
  intros Hnd Hk. rewrite hasChild_existsb in Hk.
  destruct (findIndex_from_split _ _ Hk) as (l1 & c & l2 & -> & Hc & Hl1 & Hidx).
  unfold indexOfChild, R.findIndex. rewrite Hidx, Z.add_0_l, remove_middle.
  unfold R.propEq in Hc. rewrite List.filter_app. simpl. rewrite Hc. simpl.
  unfold keys in Hnd. rewrite map_app in Hnd. simpl in Hnd.
  apply NoDup_app in Hnd as (_ & _ & Hnd). apply NoDup_cons in Hnd as [Hl2 _].
  apply String.eqb_eq in Hc. subst k.
  rewrite !filter_all; [done| |].
  - intros x Hx. apply negb_true_iff, String.eqb_neq. intros Heq.
    apply Hl2. rewrite <- Heq. by apply (elem_of_keys x l2).
  - intros x Hx. apply negb_true_iff.
    rewrite <- hasChild_existsb in Hl1. apply hasChild_false in Hl1.
    apply String.eqb_neq. intros Heq. apply Hl1. rewrite <- Heq. by apply elem_of_keys.
Qed.

(** X5: for a rendered instance with distinct tracked keys, the leave
    callback of a tracked key returns; it removes the child with that key
    and no other, keeps the order of the rest, and deletes the flag of that
    key and no other. *)
Theorem leave_completion_removes_only_that_child (this : TransitionGroup) (k : string) :
  rendered this ->
  NoDup (keys (state_children this)) ->
  k ∈ keys (state_children this) ->
  exists this',
    complete Leave k this = Ok this'
    /\ state_children this'
       = List.filter (fun c => negb (String.eqb (key c) k)) (state_children this)
    /\ currentlyTransitioningKeys this' = delete k (currentlyTransitioningKeys this)
    /\ rendered this'.
Proof.
  intros Hr Hnd Hk.
  assert (Hc : is_Some (refs this !! k)) by (rewrite Hr; by apply refs_render).
  destruct Hc as [c Hc].
  unfold complete. cbn [handleDone]. unfold _handleDoneLeaving. rewrite Hc.
  cbn [andThen]. eexists. split; [reflexivity|].
  unfold callDid. destruct (componentDidLeave c);
    cbn [state_children currentlyTransitioningKeys render setRefs setState
         deleteTransitioning setTransitioning log];
    (split; [apply remove_tracked_filter; [done|by apply hasChild_true]|]);
    (split; [done|apply rendered_render]).
Qed.

Lemma leave_completion_removes_only_that_child_witness :
  exists this',
    complete Leave "A" leaving_A = Ok this'
    /\ state_children this' = [view "B" 1].
Proof.
  destruct (leave_completion_removes_only_that_child leaving_A "A")
    as (this' & Hdone & Hch & _).
  - vm_compute. reflexivity.
  - apply NoDup_ListNoDup. vm_compute. repeat constructor; simpl; intuition congruence.
  - vm_compute. by left.
  - exists this'. split; [exact Hdone|]. rewrite Hch. reflexivity.
Defined.

Lemma handleDone_tracked t k this :
  is_Some (refs this !! k) -> exists this', handleDone t k this = Ok this'.
Proof.
  intros [c Hc].
  destruct t; cbn [handleDone];
    unfold _handleDoneAppearing, performLeave, _handleDoneEntering, _handleDoneStaying,
      _handleDoneLeaving;
    rewrite Hc; try by eexists.
  assert (Hrefs : forall b, refs (deleteTransitioning k (callDid Appear k b this)) = refs this).
  { by intros []. }
  cbn [refs log markTransitioning setTransitioning]. rewrite Hrefs, Hc.
  destruct (negb _); [|by eexists].
  destruct (componentWillLeave c) as [[]|]; by eexists.
Qed.

(** X6: between two calls from outside, a completion callback of any kind
    returns exactly when its key is tracked; for every other key it throws. *)
Theorem completion_returns_iff_tracked (t : transition) (k : string)
    (this : TransitionGroup) :
  rendered this ->
  (k ∈ keys (state_children this) <-> exists this', complete t k this = Ok this')
  /\ (k ∉ keys (state_children this) <-> complete t k this = Throw this).
Proof.
  intros Hr.
  assert (Hok : k ∈ keys (state_children this) -> exists this', complete t k this = Ok this').
  { intros Hk. destruct (handleDone_tracked t k this) as [this' Hdone].
    - rewrite Hr. by apply refs_render.
    - exists (render this'). unfold complete. by rewrite Hdone. }
  assert (Hthrow : k ∉ keys (state_children this) -> complete t k this = Throw this).
  { intros Hk. by apply handleDone_untracked. }
  split; split; try done.
  - intros [this' Hdone]. destruct (decide (k ∈ keys (state_children this))) as [|Hn]; [done|].
    rewrite (Hthrow Hn) in Hdone. discriminate.
  - intros Ht Hk. destruct (Hok Hk) as [this' Hdone]. rewrite Ht in Hdone. discriminate.
Qed.

Lemma completion_returns_iff_tracked_witness :
  rendered dropped_A
  /\ complete Enter "A" dropped_A = Throw dropped_A
  /\ exists this', complete Enter "C" dropped_A = Ok this'.
Proof.
  assert (Hr : rendered dropped_A) by (vm_compute; reflexivity).
  split; [exact Hr|]. split.
  - apply (completion_returns_iff_tracked Enter "A" dropped_A Hr).
    vm_compute. intros H. repeat (apply elem_of_cons in H as [H|H]; [discriminate H|]).
    by apply elem_of_nil in H.
  - apply (completion_returns_iff_tracked Enter "C" dropped_A Hr).
    vm_compute. right. by left.
Defined.

(** ** Invariants of the instance *)

Lemma remove_length {A} (start count : Z) (l : list A) :
  (length (R.remove start count l) <= length l)%nat.
Proof.
  unfold R.remove. rewrite length_app, length_take, length_drop.
  unfold R.relIndex. destruct (start <? 0); lia.
Qed.

Lemma filter_keys_NoDup (p : child -> bool) l :
  NoDup (keys l) -> NoDup (keys (List.filter p l)).
Proof.
  induction l as [|c l IH]; simpl; [done|]. intros [Hc Hl]%NoDup_cons.
  destruct (p c); simpl; [|by apply IH]. apply NoDup_cons. split; [|by apply IH].
  intros (x & Hx & _ & Hk)%elem_of_keys_filter. apply Hc. rewrite <- Hk.
  by apply elem_of_keys.
Qed.

Lemma elem_of_keys_without k j l :
  j ∈ keys (List.filter (fun c => negb (String.eqb (key c) k)) l)
  <-> j ∈ keys l /\ j <> k.
Proof.
  rewrite elem_of_keys_filter. split.
  - intros (c & Hc & Hne & <-). split; [by apply elem_of_keys|].
    apply negb_true_iff, String.eqb_neq in Hne. done.
  - intros [Hj Hne]. unfold keys in Hj. apply list_elem_of_fmap in Hj as (c & -> & Hc).
    exists c. split; [done|]. split; [|done].
    by apply negb_true_iff, String.eqb_neq.
Qed.

(** What [_handleDoneLeaving] does to an instance with distinct keys. *)
Lemma _handleDoneLeaving_tidy k this :
  tidy_children this -> is_Some (refs this !! k) -> k ∈ keys (state_children this) ->
  exists this',
    _handleDoneLeaving k this = Ok this'
    /\ tidy_children this' /\ refs this' = refs this
    /\ (forall j, j ∈ keys (state_children this') <-> j ∈ keys (state_children this) /\ j <> k).
Proof.
  intros [Hnd Hfl] [c Hc] Hk. unfold _handleDoneLeaving. rewrite Hc.
  set (this0 := deleteTransitioning k (callDid Leave k (componentDidLeave c) this)).
  assert (H0 : state_children this0 = state_children this
               /\ currentlyTransitioningKeys this0 = delete k (currentlyTransitioningKeys this)
               /\ refs this0 = refs this).
  { subst this0. unfold callDid. by destruct (componentDidLeave c). }
  destruct H0 as (Hch & Hm & Hrf).
  eexists. split; [reflexivity|]. unfold tidy_children.
  cbn [state_children currentlyTransitioningKeys refs setState].
  rewrite Hch, Hm, Hrf, remove_tracked_filter by (done || by apply hasChild_true).
  split; [split|split; [done|]].
  - by apply filter_keys_NoDup.
  - intros j [b Hj]. apply elem_of_keys_without.
    destruct (decide (j = k)) as [->|Hne]; [by rewrite lookup_delete_eq in Hj|].
    rewrite lookup_delete_ne in Hj by done. split; [apply Hfl; by exists b|done].
  - intros j. apply elem_of_keys_without.
Qed.

Lemma tidy_children_flag k this :
  tidy_children this -> k ∈ keys (state_children this) ->
  tidy_children (markTransitioning k this).
Proof.
  intros [Hnd Hfl] Hk. split; [done|]. intros j [b Hj]. cbn in Hj.
  destruct (decide (k = j)) as [<-|Hne]; [done|].
  rewrite lookup_insert_ne in Hj by done. apply Hfl. by exists b.
Qed.

Lemma tidy_children_unflag k this :
  tidy_children this -> tidy_children (deleteTransitioning k this).
Proof.
  intros [Hnd Hfl]. split; [done|]. intros j [b Hj]. cbn in Hj.
  destruct (decide (k = j)) as [<-|Hne]; [by rewrite lookup_delete_eq in Hj|].
  rewrite lookup_delete_ne in Hj by done. apply Hfl. by exists b.
Qed.

Lemma tidy_children_log e this : tidy_children this -> tidy_children (log e this).
Proof. done. Qed.

Lemma tidy_children_callDid t k b this :
  tidy_children this -> tidy_children (callDid t k b this).
Proof. by destruct b. Qed.

Lemma performLeave_tidy k this :
  tidy_children this -> is_Some (refs this !! k) -> k ∈ keys (state_children this) ->
  exists this',
    performLeave k this = Ok this'
    /\ tidy_children this' /\ refs this' = refs this
    /\ (forall j, j <> k -> j ∈ keys (state_children this) -> j ∈ keys (state_children this'))
    /\ (forall j, j ∈ keys (state_children this') -> j ∈ keys (state_children this)).
Proof.
  intros Ht [c Hc] Hk. rewrite (perform_cases Leave k this c Hc : performLeave k this = _).
  assert (Hs : tidy_children (started Leave k this)) by (by apply tidy_children_flag).
  cbn [willHook handleDone].
  assert (Hnow : exists this', _handleDoneLeaving k (started Leave k this) = Ok this'
            /\ tidy_children this' /\ refs this' = refs this
            /\ (forall j, j <> k -> j ∈ keys (state_children this) ->
                          j ∈ keys (state_children this'))
            /\ (forall j, j ∈ keys (state_children this') -> j ∈ keys (state_children this))).
  { destruct (_handleDoneLeaving_tidy k (started Leave k this) Hs) as (this' & -> & Ht' & Hr' & Hk');
      [by exists c|done|].
    exists this'. split; [done|]. split; [done|]. split; [done|]. split.
    - intros j Hne Hj. by apply Hk'.
    - intros j Hj. by apply Hk' in Hj as [? _]. }
  destruct (componentWillLeave c) as [[]|]; try exact Hnow.
  exists (started Leave k this). split; [done|]. split; [done|]. by repeat split.
Qed.

Lemma performEnter_tidy k this :
  tidy_children this -> is_Some (refs this !! k) -> k ∈ keys (state_children this) ->
  exists this',
    performEnter k this = Ok this'
    /\ tidy_children this' /\ refs this' = refs this
    /\ state_children this' = state_children this.
Proof.
  intros Ht [c Hc] Hk. rewrite (perform_cases Enter k this c Hc : performEnter k this = _).
  assert (Hs : tidy_children (started Enter k this)) by (by apply tidy_children_flag).
  cbn [willHook handleDone]. unfold _handleDoneEntering.
  cbn [started refs log markTransitioning setTransitioning]. rewrite Hc.
  destruct (componentWillEnter c) as [[]|]; eexists; (split; [reflexivity|]);
    repeat split; try (by destruct (componentDidEnter c));
    try apply Hs; try (apply tidy_children_unflag, tidy_children_callDid, Hs).
  all: by apply tidy_children_unflag, tidy_children_callDid.
Qed.

Lemma performStay_tidy k this :
  tidy_children this -> is_Some (refs this !! k) ->
  exists this',
    performStay k this = Ok this'
    /\ tidy_children this' /\ refs this' = refs this
    /\ state_children this' = state_children this.
Proof.
  intros Ht [c Hc]. rewrite (perform_cases Stay k this c Hc : performStay k this = _).
  cbn [willHook handleDone]. unfold _handleDoneStaying.
  cbn [started refs log]. rewrite Hc.
  destruct (componentWillStay c) as [[]|]; eexists; (split; [reflexivity|]);
    repeat split; try (by destruct (componentDidStay c)); try apply Ht.
  all: by apply tidy_children_callDid.
Qed.

Lemma forEach_performEnter_tidy ks : forall this,
  tidy_children this ->
  Forall (fun k => is_Some (refs this !! k) /\ k ∈ keys (state_children this)) ks ->
  exists this',
    forEach performEnter ks this = Ok this'
    /\ tidy_children this' /\ refs this' = refs this
    /\ state_children this' = state_children this.
Proof.
  induction ks as [|k ks IH]; intros this Ht Hks; simpl; [by exists this|].
  apply Forall_cons in Hks as [[Hr Hk] Hks].
  destruct (performEnter_tidy k this Ht Hr Hk) as (this1 & -> & Ht1 & Hr1 & Hc1).
  simpl. destruct (IH this1 Ht1) as (this2 & -> & Ht2 & Hr2 & Hc2).
  { eapply Forall_impl; [exact Hks|]. intros j. simpl. by rewrite Hr1, Hc1. }
  exists this2. repeat split; try apply Ht2; congruence.
Qed.

Lemma forEach_performStay_tidy ks : forall this,
  tidy_children this ->
  Forall (fun k => is_Some (refs this !! k)) ks ->
  exists this',
    forEach performStay ks this = Ok this'
    /\ tidy_children this' /\ refs this' = refs this
    /\ state_children this' = state_children this.
Proof.
  induction ks as [|k ks IH]; intros this Ht Hks; simpl; [by exists this|].
  apply Forall_cons in Hks as [Hr Hks].
  destruct (performStay_tidy k this Ht Hr) as (this1 & -> & Ht1 & Hr1 & Hc1).
  simpl. destruct (IH this1 Ht1) as (this2 & -> & Ht2 & Hr2 & Hc2).
  { eapply Forall_impl; [exact Hks|]. intros j. simpl. by rewrite Hr1. }
  exists this2. repeat split; try apply Ht2; congruence.
Qed.

Lemma forEach_performLeave_tidy ks : forall this,
  tidy_children this -> NoDup ks ->
  Forall (fun k => is_Some (refs this !! k) /\ k ∈ keys (state_children this)) ks ->
  exists this',
    forEach performLeave ks this = Ok this'
    /\ tidy_children this' /\ refs this' = refs this
    /\ (forall j, j ∈ keys (state_children this') -> j ∈ keys (state_children this)).
Proof.
  induction ks as [|k ks IH]; intros this Ht Hnd Hks; simpl; [by exists this|].
  apply Forall_cons in Hks as [[Hr Hk] Hks]. apply NoDup_cons in Hnd as [Hk' Hnd].
  destruct (performLeave_tidy k this Ht Hr Hk) as (this1 & -> & Ht1 & Hr1 & Hkeep & Hsub).
  simpl. destruct (IH this1 Ht1 Hnd) as (this2 & -> & Ht2 & Hr2 & Hsub2).
  { rewrite Forall_forall in Hks. apply Forall_forall. intros j Hj.
    destruct (Hks j Hj) as [Hrj Hcj]. rewrite Hr1. split; [done|].
    apply Hkeep; [|done]. by intros ->. }
  exists this2. split; [done|]. split; [done|]. split; [congruence|]. auto.
Qed.

Lemma componentDidUpdate_tidy this :
  tidy_children this ->
  Forall (fun k => is_Some (refs this !! k) /\ k ∈ keys (state_children this))
    (keysToEnter this ++ keysToStay this ++ keysToLeave this) ->
  NoDup (keysToLeave this) ->
  exists this',
    componentDidUpdate this = Ok this'
    /\ tidy_children this' /\ drained this'.
Proof.
  intros Ht Hall Hnd.
  destruct (componentDidUpdate_run this) as (this' & _ & _ & _ & Hrun & _ & _ & _ & _ & _ & _ & _ & Hd).
  { eapply Forall_impl; [exact Hall|]. by intros k [? _]. }
  exists this'. split; [done|]. split; [|done].
  apply Forall_app in Hall as [He Hall]. apply Forall_app in Hall as [Hs Hl].
  unfold componentDidUpdate in Hrun.
  destruct (forEach_performEnter_tidy (keysToEnter this) (setKeysToEnter [] this) Ht He)
    as (this1 & Hrun1 & Ht1 & Hr1 & Hc1).
  destruct (forEach_run Enter performEnter performEnter_step (keysToEnter this)
              (setKeysToEnter [] this)) as (this1' & Hrun1' & _ & _ & _ & Hs1 & Hl1).
  { eapply Forall_impl; [exact He|]. by intros k [? _]. }
  rewrite Hrun1 in Hrun1'. injection Hrun1' as <-.
  rewrite Hrun1 in Hrun. cbn [andThen] in Hrun. cbn in Hr1, Hc1, Hs1, Hl1.
  destruct (forEach_performStay_tidy (keysToStay this1) (setKeysToStay [] this1) Ht1)
    as (this2 & Hrun2 & Ht2 & Hr2 & Hc2).
  { rewrite Hs1. eapply Forall_impl; [exact Hs|]. intros k [? _]. cbn. by rewrite Hr1. }
  destruct (forEach_run Stay performStay performStay_step (keysToStay this1)
              (setKeysToStay [] this1)) as (this2' & Hrun2' & _ & _ & _ & _ & Hl2).
  { rewrite Hs1. eapply Forall_impl; [exact Hs|]. intros k [? _]. cbn. by rewrite Hr1. }
  rewrite Hrun2 in Hrun2'. injection Hrun2' as <-.
  rewrite Hrun2 in Hrun. cbn [andThen] in Hrun. cbn in Hr2, Hc2, Hl2.
  destruct (forEach_performLeave_tidy (keysToLeave this2) (setKeysToLeave [] this2) Ht2)
    as (this3 & Hrun3 & Ht3 & _).
  { by rewrite Hl2, Hl1. }
  { rewrite Hl2, Hl1. eapply Forall_impl; [exact Hl|]. intros k [? ?]. cbn.
    by rewrite Hr2, Hr1, Hc2, Hc1. }
  rewrite Hrun3 in Hrun. by injection Hrun as <-.
Qed.

Lemma kept_NoDup size children :
  NoDup (keys children) -> NoDup (keys (snd (dropExceeding size children))).
Proof.
  intros Hnd. rewrite <- (dropExceeding_app size children) in Hnd.
  unfold keys in Hnd. rewrite map_app in Hnd. by apply NoDup_app in Hnd as (_ & _ & ?).
Qed.

Lemma componentWillReceiveProps_tidy nextChildren nextSize this :
  tidy_children this ->
  tidy_children (componentWillReceiveProps nextChildren nextSize this).
Proof.
  intros [Hnd Hfl]. split.
  - rewrite componentWillReceiveProps_children. apply kept_NoDup, mergeChildren_NoDup.
  - intros k [b Hk]. rewrite componentWillReceiveProps_children.
    rewrite componentWillReceiveProps_unfold in Hk. cbn [currentlyTransitioningKeys] in Hk.
    rewrite lookup_fold_delete, <- isDropped_default in Hk.
    destruct (isDropped _ k) eqn:Hd; [done|].
    apply hasChild_true, kept_of_merged; [|done].
    rewrite hasChild_mergeChildren. apply orb_true_iff. left.
    apply hasChild_true, Hfl. by exists b.
Qed.

Lemma receiveProps_tidy nextChildren nextSize this this' :
  tidy this -> receiveProps nextChildren nextSize this = Ok this' -> tidy this'.
Proof.
  intros (Ht & Hd & _) Hrun.
  destruct (receiveProps_returns nextChildren nextSize this Hd) as (this1 & Hrun1 & Hd1 & Hr1).
  rewrite Hrun in Hrun1. injection Hrun1 as <-.
  split; [|done].
  unfold receiveProps in Hrun.
  set (classified := componentWillReceiveProps nextChildren nextSize this) in *.
  destruct (componentDidUpdate_tidy (render (setProps nextChildren nextSize classified)))
    as (this2 & Hrun2 & Ht2 & _).
  - by apply componentWillReceiveProps_tidy.
  - pose proof (componentWillReceiveProps_queued nextChildren nextSize this Hd) as Hq.
    cbv zeta in Hq. fold classified in Hq.
    eapply Forall_impl; [exact Hq|]. intros k Hk. split; [by apply refs_render|done].
  - subst classified. rewrite componentWillReceiveProps_unfold.
    cbn [keysToLeave render setRefs setProps]. destruct Hd as (_ & _ & ->). cbn [app].
    apply filter_keys_NoDup, Ht.
  - cbn [andThen] in Hrun. rewrite Hrun2 in Hrun. injection Hrun as <-. exact Ht2.
Qed.

Lemma performAppear_tidy k this :
  tidy_children this -> is_Some (refs this !! k) -> k ∈ keys (state_children this) ->
  hasChild k (mapChildren (props_children this)) = true ->
  exists this',
    performAppear k this = Ok this'
    /\ tidy_children this' /\ refs this' = refs this
    /\ state_children this' = state_children this
    /\ props_children this' = props_children this.
Proof.
  intros Ht [c Hc] Hk Hp. rewrite (perform_cases Appear k this c Hc : performAppear k this = _).
  assert (Hs : tidy_children (started Appear k this)) by (by apply tidy_children_flag).
  cbn [willHook handleDone]. unfold _handleDoneAppearing.
  cbn [started refs log markTransitioning setTransitioning]. rewrite Hc.
  assert (Hprops : forall b s, props_children (deleteTransitioning k (callDid Appear k b s))
                               = props_children s) by (by intros [] s).
  rewrite Hprops.
  change (props_children (markTransitioning k (log (Started Appear k) this)))
    with (props_children this).
  rewrite Hp. cbn [negb].
  destruct (componentWillAppear c) as [[]|]; eexists; (split; [reflexivity|]);
    (split; [try apply Hs; by apply tidy_children_unflag, tidy_children_callDid|]);
    by destruct (componentDidAppear c).
Qed.

Lemma componentDidMount_tidy l : forall this,
  tidy_children this ->
  Forall (fun c => is_Some (refs this !! key c) /\ key c ∈ keys (state_children this)
                   /\ hasChild (key c) (mapChildren (props_children this)) = true) l ->
  exists this', forEach (fun c => performAppear (key c)) l this = Ok this'
                /\ tidy_children this'.
Proof.
  induction l as [|c l IH]; intros this Ht Hl; simpl; [by exists this|].
  apply Forall_cons in Hl as [(Hr & Hk & Hp) Hl].
  destruct (performAppear_tidy (key c) this Ht Hr Hk Hp) as (this1 & -> & Ht1 & Hr1 & Hc1 & Hp1).
  simpl. apply IH; [done|].
  eapply Forall_impl; [exact Hl|]. intros x. simpl. by rewrite Hr1, Hc1, Hp1.
Qed.

Lemma mount_tidy children size this :
  NoDup (keys (mapChildren children)) -> mount children size = Ok this -> tidy this.
Proof.
  intros Hnd Hm.
  destruct (mount_returns children size) as (this1 & Hm1 & _ & _ & _ & _ & _ & Hd & Hr).
  rewrite Hm in Hm1. injection Hm1 as <-. split; [|done].
  unfold mount, componentDidMount in Hm.
  set (this0 := render (componentWillMount (constructor children size))) in *.
  destruct (componentDidMount_tidy (state_children this0) this0) as (this2 & Hm2 & Ht2).
  - split; [done|]. intros k [b Hk].
    change (currentlyTransitioningKeys this0) with (∅ : gmap string bool) in Hk.
    by rewrite lookup_empty in Hk.
  - apply Forall_forall. intros c Hc%elem_of_keys.
    split; [by apply refs_render|]. split; [done|]. by apply hasChild_true.
  - rewrite Hm2 in Hm. by injection Hm as <-.
Qed.

Lemma complete_tidy t k this this' :
  tidy this -> complete t k this = Ok this' -> tidy this'.
Proof.
  intros (Ht & Hd & Hr) Hrun. unfold complete in Hrun.
  pose proof (handleDone_drained t k this Hd) as Hd1.
  destruct (handleDone t k this) as [this1|] eqn:Hdone; [|done].
  cbn in Hrun, Hd1. injection Hrun as <-.
  split; [|split; [exact Hd1|apply rendered_render]].
  change (tidy_children this1).
  assert (Hc : is_Some (refs this !! k)).
  { destruct (refs this !! k) eqn:Hl; [by eexists|].
    destruct t; cbn [handleDone] in Hdone;
      unfold _handleDoneAppearing, _handleDoneEntering, _handleDoneStaying,
        _handleDoneLeaving in Hdone; by rewrite Hl in Hdone. }
  assert (Hk : k ∈ keys (state_children this)) by (apply refs_render; by rewrite <- Hr).
  destruct Hc as [c Hc]. destruct t; cbn [handleDone] in Hdone.
  - unfold _handleDoneAppearing in Hdone. rewrite Hc in Hdone.
    set (this0 := deleteTransitioning k (callDid Appear k (componentDidAppear c) this)) in *.
    assert (Ht0 : tidy_children this0)
      by (by apply tidy_children_unflag, tidy_children_callDid).
    assert (H0 : refs this0 = refs this /\ state_children this0 = state_children this).
    { subst this0. unfold callDid. by destruct (componentDidAppear c). }
    destruct H0 as [Hr0 Hc0].
    destruct (negb _).
    + destruct (performLeave_tidy k this0 Ht0) as (this2 & Hrun2 & Ht2 & _).
      * rewrite Hr0. by exists c.
      * by rewrite Hc0.
      * rewrite Hrun2 in Hdone. by injection Hdone as <-.
    + by injection Hdone as <-.
  - unfold _handleDoneEntering in Hdone. rewrite Hc in Hdone. injection Hdone as <-.
    by apply tidy_children_unflag, tidy_children_callDid.
  - unfold _handleDoneStaying in Hdone. rewrite Hc in Hdone. injection Hdone as <-.
    by apply tidy_children_callDid.
  - destruct (_handleDoneLeaving_tidy k this Ht) as (this2 & Hrun2 & Ht2 & _);
      [by exists c|done|].
    rewrite Hrun2 in Hdone. by injection Hdone as <-.
Qed.

(** X7: an instance mounted with distinct keys is tidy -- its tracked keys
    are distinct, only tracked keys are flagged, the queues are drained and
    the refs are those of the tracked children -- and every update and
    every completion callback that returns leaves a tidy instance tidy. *)
Theorem tidy_invariant :
  (forall children size this,
     NoDup (keys (mapChildren children)) -> mount children size = Ok this -> tidy this)
  /\ (forall nextChildren nextSize this this',
        tidy this -> receiveProps nextChildren nextSize this = Ok this' -> tidy this')
  /\ (forall t k this this',
        tidy this -> complete t k this = Ok this' -> tidy this').
Proof.
  split; [exact mount_tidy|]. split; [exact receiveProps_tidy|exact complete_tidy].
Qed.

Lemma tidy_invariant_witness :
  tidy leaving_A /\ tidy dropped_A /\ tidy left_A.
Proof.
  destruct tidy_invariant as (Hmount & Hupdate & Hdone).
  assert (H0 : tidy (instanceOf (mount (Some [Some (view "A" 1); Some (view "B" 1)]) 2))).
  { apply (Hmount (Some [Some (view "A" 1); Some (view "B" 1)]) 2).
    - apply NoDup_ListNoDup. vm_compute. repeat constructor; simpl; intuition congruence.
    - vm_compute. reflexivity. }
  assert (H1 : tidy leaving_A).
  { apply (Hupdate (Some [Some (view "B" 1)]) 2 _ _ H0). vm_compute. reflexivity. }
  split; [exact H1|]. split.
  - apply (Hupdate (Some [Some (view "B" 1); Some (view "C" 1)]) 2 _ _ H1).
    vm_compute. reflexivity.
  - apply (Hdone Leave "A" _ _ H1). vm_compute. reflexivity.
Defined.

(** ** The size bound over a whole update *)

Ltac crack_all :=
  unfold perform, handleDone, performAppear, performEnter, performStay,
    _handleDoneAppearing, performLeave, _handleDoneEntering, _handleDoneStaying,
    _handleDoneLeaving, callDid;
  cbn [refs props_children log markTransitioning deleteTransitioning setTransitioning
       setState];
  repeat (case_match;
          cbn [refs props_children state_children log markTransitioning
               deleteTransitioning setTransitioning setState instanceOf]).

Lemma perform_length t k this :
  (length (state_children (instanceOf (perform t k this)))
   <= length (state_children this))%nat.
Proof. destruct t; crack_all; try apply remove_length; done. Qed.

Lemma handleDone_length t k this :
  (length (state_children (instanceOf (handleDone t k this)))
   <= length (state_children this))%nat.
Proof. destruct t; crack_all; try apply remove_length; done. Qed.

Lemma forEach_length (f : string -> method) :
  (forall k this, (length (state_children (instanceOf (f k this)))
                   <= length (state_children this))%nat) ->
  forall ks this, (length (state_children (instanceOf (forEach f ks this)))
                   <= length (state_children this))%nat.
Proof.
  intros Hf. induction ks as [|k ks IH]; intros this; simpl; [done|].
  specialize (Hf k this). destruct (f k this) as [this1|this1]; simpl in *; [|done].
  specialize (IH this1). lia.
Qed.

Lemma componentDidUpdate_length this :
  (length (state_children (instanceOf (componentDidUpdate this)))
   <= length (state_children this))%nat.
Proof.
  unfold componentDidUpdate.
  pose proof (forEach_length performEnter (perform_length Enter) (keysToEnter this)
                (setKeysToEnter [] this)) as H1.
  destruct (forEach performEnter _ _) as [this1|this1]; simpl in *; [|done].
  pose proof (forEach_length performStay (perform_length Stay) (keysToStay this1)
                (setKeysToStay [] this1)) as H2.
  destruct (forEach performStay _ _) as [this2|this2]; simpl in *; [|lia].
  pose proof (forEach_length performLeave (perform_length Leave) (keysToLeave this2)
                (setKeysToLeave [] this2)) as H3.
  simpl in H3. lia.
Qed.

(** X8: after a whole update -- [componentWillReceiveProps], the re-render
    and every transition [componentDidUpdate] starts, whether it returns or
    throws -- the tracked collection is no longer than the size supplied
    with the update (for a size that is not negative), and a completion
    callback never makes the tracked collection longer. *)
Theorem tracked_within_size (this : TransitionGroup) :
  (forall nextChildren nextSize,
     0 <= nextSize ->
     Z.of_nat (length (state_children (instanceOf (receiveProps nextChildren nextSize this))))
     <= nextSize)
  /\ (forall t k,
        (length (state_children (instanceOf (complete t k this)))
         <= length (state_children this))%nat).
Proof.
  split.
  - intros nextChildren nextSize Hsize. unfold receiveProps.
    set (this1 := render (setProps nextChildren nextSize
                            (componentWillReceiveProps nextChildren nextSize this))).
    pose proof (componentDidUpdate_length this1) as Hlen.
    pose proof (componentWillReceiveProps_length nextChildren nextSize this Hsize) as Hkept.
    change (state_children this1)
      with (state_children (componentWillReceiveProps nextChildren nextSize this)) in Hlen.
    destruct (componentDidUpdate this1) as [this2|this2]; simpl in *; lia.
  - intros t k. unfold complete. pose proof (handleDone_length t k this) as Hlen.
    destruct (handleDone t k this) as [this1|this1]; simpl in *; lia.
Qed.

Lemma tracked_within_size_witness :
  0 <= 2
  /\ Z.of_nat (length (state_children
       (instanceOf (receiveProps (Some [Some (item "A"); Some (item "B"); Some (item "C")])
                      2 idle_ABC)))) <= 2.
Proof.
  split; [lia|].
  destruct (tracked_within_size idle_ABC) as [H _]. apply H. lia.
Defined.

(** ** Children that were removed from the desired collection *)

Lemma remove_subseteq {A} (start count : Z) (l : list A) x :
  x ∈ R.remove start count l -> x ∈ l.
Proof.
  unfold R.remove. intros [H|H]%elem_of_app.
  - by apply (subseteq_take (Z.to_nat (R.relIndex start (Z.of_nat (length l)))) l).
  - by eapply subseteq_drop.
Qed.

Lemma perform_subseteq t k this c :
  c ∈ state_children (instanceOf (perform t k this)) -> c ∈ state_children this.
Proof. destruct t; crack_all; try apply remove_subseteq; done. Qed.

Lemma forEach_subseteq (f : string -> method) :
  (forall k this c, c ∈ state_children (instanceOf (f k this)) -> c ∈ state_children this) ->
  forall ks this c,
    c ∈ state_children (instanceOf (forEach f ks this)) -> c ∈ state_children this.
Proof.
  intros Hf. induction ks as [|k ks IH]; intros this c; simpl; [done|].
  specialize (Hf k this c). destruct (f k this) as [this1|this1]; simpl in *; [|done].
  intros Hc. by apply Hf, (IH this1).
Qed.

Lemma componentDidUpdate_subseteq this c :
  c ∈ state_children (instanceOf (componentDidUpdate this)) -> c ∈ state_children this.
Proof.
  unfold componentDidUpdate.
  pose proof (forEach_subseteq performEnter (perform_subseteq Enter) (keysToEnter this)
                (setKeysToEnter [] this) c) as H1.
  destruct (forEach performEnter _ _) as [this1|this1]; simpl in *; [|done].
  pose proof (forEach_subseteq performStay (perform_subseteq Stay) (keysToStay this1)
                (setKeysToStay [] this1) c) as H2.
  destruct (forEach performStay _ _) as [this2|this2]; simpl in *; [|auto].
  pose proof (forEach_subseteq performLeave (perform_subseteq Leave) (keysToLeave this2)
                (setKeysToLeave [] this2) c) as H3.
  simpl in H3. auto.
Qed.

(** A transition of one key leaves the flags of the other keys alone. *)
Lemma perform_flag_other t j k this :
  j <> k ->
  currentlyTransitioningKeys (instanceOf (perform t j this)) !! k
  = currentlyTransitioningKeys this !! k.
Proof.
  intros Hne. destruct t; crack_all;
    cbn [currentlyTransitioningKeys setState deleteTransitioning markTransitioning
         setTransitioning log];
    repeat first [rewrite lookup_delete_ne by done | rewrite lookup_insert_ne by done];
    done.
Qed.

Lemma forEach_flag_other t ks k : forall this,
  k ∉ ks ->
  currentlyTransitioningKeys (instanceOf (forEach (perform t) ks this)) !! k
  = currentlyTransitioningKeys this !! k.
Proof.
  induction ks as [|j ks IH]; intros this Hk; simpl; [done|].
  apply not_elem_of_cons in Hk as [Hne Hk].
  pose proof (perform_flag_other t j k this (not_eq_sym Hne)) as Hj.
  destruct (perform t j this) as [this1|this1]; simpl in *; [|done].
  by rewrite IH.
Qed.

Lemma performLeave_outcome k this cmp :
  tidy_children this -> refs this !! k = Some cmp -> k ∈ keys (state_children this) ->
  exists this',
    performLeave k this = Ok this'
    /\ tidy_children this' /\ refs this' = refs this
    /\ (forall j, j <> k ->
          (j ∈ keys (state_children this') <-> j ∈ keys (state_children this))
          /\ currentlyTransitioningKeys this' !! j = currentlyTransitioningKeys this !! j)
    /\ (k ∈ keys (state_children this') <-> componentWillLeave cmp = Some CallsDoneLater)
    /\ (k ∈ keys (state_children this') -> currentlyTransitioningKeys this' !! k = Some true).
Proof.
  intros Ht Hc Hk.
  destruct (performLeave_tidy k this Ht) as (this' & Hrun & Ht' & Hr' & Hkeep & Hsub);
    [by exists cmp|done|].
  exists this'. split; [done|]. split; [done|]. split; [done|]. split.
  { intros j Hne. split; [split; [apply Hsub|by apply Hkeep]|].
    pose proof (perform_flag_other Leave k j this (not_eq_sym Hne)) as Hfl.
    cbn [perform] in Hfl. by rewrite Hrun in Hfl. }
  rewrite (perform_cases Leave k this cmp Hc : performLeave k this = _) in Hrun.
  cbn [willHook handleDone] in Hrun.
  assert (Hs : tidy_children (started Leave k this)) by (by apply tidy_children_flag).
  destruct (_handleDoneLeaving_tidy k (started Leave k this) Hs) as (this2 & Hrun2 & _ & _ & Hk2);
    [by exists cmp|done|].
  destruct (componentWillLeave cmp) as [[]|].
  - rewrite Hrun2 in Hrun. injection Hrun as <-.
    split; [split; [|done]|]; intros Hin; apply Hk2 in Hin as [_ Hin]; done.
  - injection Hrun as <-. split; [done|]. intros _. cbn. apply lookup_insert_eq.
  - rewrite Hrun2 in Hrun. injection Hrun as <-.
    split; [split; [|done]|]; intros Hin; apply Hk2 in Hin as [_ Hin]; done.
Qed.

Lemma forEach_performLeave_outcome ks : forall this,
  tidy_children this -> NoDup ks ->
  Forall (fun k => is_Some (refs this !! k) /\ k ∈ keys (state_children this)) ks ->
  exists this',
    forEach performLeave ks this = Ok this'
    /\ tidy_children this'
    /\ forall k,
         (k ∉ ks ->
            (k ∈ keys (state_children this') <-> k ∈ keys (state_children this))
            /\ currentlyTransitioningKeys this' !! k = currentlyTransitioningKeys this !! k)
         /\ (k ∈ ks ->
               (k ∈ keys (state_children this')
                <-> exists cmp, refs this !! k = Some cmp
                                /\ componentWillLeave cmp = Some CallsDoneLater)
               /\ (k ∈ keys (state_children this') ->
                   currentlyTransitioningKeys this' !! k = Some true)).
Proof.
  induction ks as [|j ks IH]; intros this Ht Hnd Hks; simpl.
  - exists this. split; [done|]. split; [done|]. intros k. split; [done|].
    intros Hk. by apply elem_of_nil in Hk.
  - apply Forall_cons in Hks as [[[cmp Hc] Hj] Hks]. apply NoDup_cons in Hnd as [Hj' Hnd].
    destruct (performLeave_outcome j this cmp Ht Hc Hj)
      as (this1 & -> & Ht1 & Hr1 & Hother & Hself & Hflag).
    simpl. destruct (IH this1 Ht1 Hnd) as (this2 & -> & Ht2 & Hall).
    { rewrite Forall_forall in Hks. apply Forall_forall. intros k Hk.
      destruct (Hks k Hk) as [Hrk Hck]. rewrite Hr1. split; [done|].
      apply Hother; [|done]. by intros ->. }
    exists this2. split; [done|]. split; [done|]. intros k. split.
    + intros [Hne Hk]%not_elem_of_cons. destruct (Hall k) as [Hout _].
      destruct (Hout Hk) as [Hkeys Hfl]. destruct (Hother k Hne) as [Hkeys1 Hfl1].
      split; [by rewrite Hkeys|by rewrite Hfl].
    + intros [->|Hk]%elem_of_cons.
      * destruct (Hall j) as [Hout _]. destruct (Hout Hj') as [Hkeys Hfl].
        rewrite Hkeys, Hfl. split; [|done]. rewrite Hself. split.
        -- intros Hl. by exists cmp.
        -- intros (cmp' & Hc' & Hl). congruence.
      * destruct (Hall k) as [_ Hin]. rewrite <- Hr1. by apply Hin.
Qed.

Lemma keys_inj l c c' :
  NoDup (keys l) -> c ∈ l -> c' ∈ l -> key c = key c' -> c = c'.
Proof.
  induction l as [|x l IH]; intros Hnd Hc Hc' Heq; [by apply elem_of_nil in Hc|].
  apply NoDup_cons in Hnd as [Hx Hnd].
  apply elem_of_cons in Hc as [->|Hc]; apply elem_of_cons in Hc' as [->|Hc']; try done.
  - destruct Hx. rewrite Heq. by apply elem_of_keys.
  - destruct Hx. rewrite <- Heq. by apply elem_of_keys.
  - by apply IH.
Qed.

Lemma refs_render_lookup this c :
  NoDup (keys (state_children this)) -> c ∈ state_children this ->
  refs (render this) !! key c = Some (type c).
Proof.
  intros Hnd Hc. unfold render, setRefs. cbn [refs].
  apply (elem_of_list_to_map_1 (M := gmap string)).
  - replace ((map (fun c => (key c, type c)) (state_children this)).*1)
      with (keys (state_children this)); [done|].
    unfold keys. by rewrite <- list_fmap_compose.
  - apply list_elem_of_fmap. by exists c.
Qed.

Lemma componentDidUpdate_leave_outcome this :
  tidy_children this ->
  Forall (fun k => is_Some (refs this !! k) /\ k ∈ keys (state_children this))
    (keysToEnter this ++ keysToStay this ++ keysToLeave this) ->
  NoDup (keysToLeave this) ->
  exists this',
    componentDidUpdate this = Ok this'
    /\ forall k, k ∈ keysToLeave this ->
         (k ∈ keys (state_children this')
          <-> exists cmp, refs this !! k = Some cmp
                          /\ componentWillLeave cmp = Some CallsDoneLater)
         /\ (k ∈ keys (state_children this') ->
             currentlyTransitioningKeys this' !! k = Some true).
Proof.
  intros Ht Hall Hnd.
  apply Forall_app in Hall as [He Hall]. apply Forall_app in Hall as [Hs Hl].
  unfold componentDidUpdate.
  destruct (forEach_performEnter_tidy (keysToEnter this) (setKeysToEnter [] this) Ht He)
    as (this1 & Hrun1 & Ht1 & Hr1 & Hc1).
  destruct (forEach_run Enter performEnter performEnter_step (keysToEnter this)
              (setKeysToEnter [] this)) as (this1' & Hrun1' & _ & _ & _ & Hs1 & Hl1).
  { eapply Forall_impl; [exact He|]. by intros k [? _]. }
  rewrite Hrun1 in Hrun1'. injection Hrun1' as <-.
  rewrite Hrun1. cbn [andThen]. cbn in Hr1, Hc1, Hs1, Hl1.
  destruct (forEach_performStay_tidy (keysToStay this1) (setKeysToStay [] this1) Ht1)
    as (this2 & Hrun2 & Ht2 & Hr2 & Hc2).
  { rewrite Hs1. eapply Forall_impl; [exact Hs|]. intros k [? _]. cbn. by rewrite Hr1. }
  destruct (forEach_run Stay performStay performStay_step (keysToStay this1)
              (setKeysToStay [] this1)) as (this2' & Hrun2' & _ & _ & _ & _ & Hl2).
  { rewrite Hs1. eapply Forall_impl; [exact Hs|]. intros k [? _]. cbn. by rewrite Hr1. }
  rewrite Hrun2 in Hrun2'. injection Hrun2' as <-.
  rewrite Hrun2. cbn [andThen]. cbn in Hr2, Hc2, Hl2.
  destruct (forEach_performLeave_outcome (keysToLeave this2) (setKeysToLeave [] this2) Ht2)
    as (this3 & Hrun3 & Ht3 & Hout).
  { by rewrite Hl2, Hl1. }
  { rewrite Hl2, Hl1. eapply Forall_impl; [exact Hl|]. intros k [? ?]. cbn.
    by rewrite Hr2, Hr1, Hc2, Hc1. }
  exists this3. split; [done|]. intros k Hk.
  destruct (Hout k) as [_ Hin]. rewrite Hl2, Hl1 in Hin. specialize (Hin Hk).
  cbn [refs setKeysToLeave] in Hin. by rewrite Hr2, Hr1 in Hin.
Qed.

(** A kept child whose key the next children lack was tracked before. *)
Lemma kept_elem_prev size prev next c :
  c ∈ snd (dropExceeding size (mergeChildren prev next)) ->
  key c ∉ keys next -> c ∈ prev.
Proof.
  intros Hc Hn.
  assert (Hm : c ∈ mergeChildren prev next).
  { rewrite <- (dropExceeding_app size). apply elem_of_app. by right. }
  rewrite mergeChildren_app in Hm. apply elem_of_app in Hm as [Hm|Hm].
  - by apply uniqWith_elem.
  - apply uniqWith_elem, list_elem_of_In, List.filter_In in Hm as [Hm _].
    destruct Hn. by apply elem_of_keys, list_elem_of_In.
Qed.

(** X9 (lines 250-258, 283, 359-386): after an update of a well-kept
    instance, a child whose key the new desired children do not contain is
    tracked exactly when the size limit kept it and its leave hook holds on
    to the callback; it is then flagged as transitioning.  A kept child of
    that kind without a leave hook, or whose hook calls back at once, is
    gone when the update returns. *)
Theorem removed_child_after_update next size this this' c :
  tidy this ->
  receiveProps next size this = Ok this' ->
  key c ∉ keys (mapChildren next) ->
  (c ∈ state_children this'
   <-> c ∈ state_children (componentWillReceiveProps next size this)
       /\ componentWillLeave (type c) = Some CallsDoneLater)
  /\ (c ∈ state_children this' -> isTransitioning this' (key c) = true).
Proof.
  intros (Ht & Hd & Hrd) Hrun Hnext.
  unfold receiveProps in Hrun.
  set (classified := componentWillReceiveProps next size this) in *.
  set (this1 := render (setProps next size classified)) in *.
  assert (Htc : tidy_children classified) by (by apply componentWillReceiveProps_tidy).
  assert (Hch1 : state_children this1 = state_children classified) by done.
  assert (Hleave : keysToLeave this1
                   = keys (List.filter
                             (leaving (mapChildren next)
                                (fst (dropExceeding size
                                        (mergeChildren (state_children this)
                                           (mapChildren next)))))
                             (state_children this))).
  { subst this1 classified. rewrite componentWillReceiveProps_unfold.
    cbn [keysToLeave render setRefs setProps]. destruct Hd as (_ & _ & ->). done. }
  destruct (componentDidUpdate_leave_outcome this1) as (this2 & Hrun2 & Hout).
  - exact Htc.
  - pose proof (componentWillReceiveProps_queued next size this Hd) as Hq.
    cbv zeta in Hq. fold classified in Hq.
    eapply Forall_impl; [exact Hq|]. intros k Hk. split; [by apply refs_render|done].
  - rewrite Hleave. apply filter_keys_NoDup, Ht.
  - rewrite Hrun2 in Hrun. cbn [andThen] in Hrun. injection Hrun as <-.
    change (state_children (render this2)) with (state_children this2).
    change (isTransitioning (render this2) (key c))
      with (isTransitioning this2 (key c)).
    assert (Hsub : forall x, x ∈ state_children this2 -> x ∈ state_children classified).
    { intros x Hx. rewrite <- Hch1. apply componentDidUpdate_subseteq.
      by rewrite Hrun2. }
    assert (Hnd2 : NoDup (keys (state_children classified))) by apply Htc.
    assert (Hin : c ∈ state_children classified ->
                  (c ∈ state_children this2 <-> key c ∈ keys (state_children this2))).
    { intros Hk. split; [apply elem_of_keys|].
      intros (c' & Heq & Hc')%list_elem_of_fmap.
      by rewrite (keys_inj _ c c' Hnd2 Hk (Hsub _ Hc') Heq). }
    assert (Hq : c ∈ state_children classified -> key c ∈ keysToLeave this1).
    { intros Hk. rewrite Hleave. apply elem_of_keys_filter. exists c.
      split; [|split; [|done]].
      { subst classified. rewrite componentWillReceiveProps_children in Hk.
        by apply (kept_elem_prev size _ (mapChildren next)). }
      unfold leaving. rewrite (kept_not_dropped size _ (key c)).
      - simpl. apply negb_true_iff, hasChild_false. exact Hnext.
      - apply mergeChildren_NoDup.
      - apply hasChild_true. subst classified.
        rewrite componentWillReceiveProps_children in Hk. by apply elem_of_keys. }
    assert (Href : c ∈ state_children classified ->
                   refs this1 !! key c = Some (type c)).
    { intros Hk. subst this1. apply refs_render_lookup; done. }
    split; [split|].
    + intros Hc2. pose proof (Hsub _ Hc2) as Hk. split; [done|].
      destruct (Hout _ (Hq Hk)) as [Hiff _].
      apply Hin in Hc2; [|done]. apply Hiff in Hc2 as (cmp & Hcmp & Hl).
      rewrite (Href Hk) in Hcmp. by injection Hcmp as <-.
    + intros [Hk Hl]. apply Hin; [done|].
      destruct (Hout _ (Hq Hk)) as [Hiff _]. apply Hiff.
      exists (type c). by split; [apply Href|].
    + intros Hc2. pose proof (Hsub _ Hc2) as Hk.
      destruct (Hout _ (Hq Hk)) as [_ Hfl].
      unfold isTransitioning. by rewrite Hfl; [|apply Hin].
Qed.

Lemma removed_child_after_update_witness :
  (view "A" 1 ∈ state_children leaving_A
   <-> view "A" 1 ∈ state_children
         (componentWillReceiveProps (Some [Some (view "B" 1)]) 2
            (instanceOf (mount (Some [Some (view "A" 1); Some (view "B" 1)]) 2)))
       /\ componentWillLeave (type (view "A" 1)) = Some CallsDoneLater)
  /\ (view "A" 1 ∈ state_children leaving_A -> isTransitioning leaving_A "A" = true).
Proof.
  apply (removed_child_after_update (Some [Some (view "B" 1)]) 2
           (instanceOf (mount (Some [Some (view "A" 1); Some (view "B" 1)]) 2))
           leaving_A (view "A" 1)).
  - apply (mount_tidy (Some [Some (view "A" 1); Some (view "B" 1)]) 2).
    + apply NoDup_ListNoDup. vm_compute. repeat constructor; simpl; intuition congruence.
    + vm_compute. reflexivity.
  - vm_compute. reflexivity.
  - vm_compute. intros H. apply list_elem_of_In in H. simpl in H. intuition congruence.
Defined.

(** ** Children that enter *)

Lemma performEnter_flag k this cmp :
  refs this !! k = Some cmp ->
  currentlyTransitioningKeys (instanceOf (performEnter k this)) !! k
  = match componentWillEnter cmp with
      | Some CallsDoneLater => Some true
      | _ => None
      end.
Proof.
  intros Hc. rewrite (perform_cases Enter k this cmp Hc : performEnter k this = _).
  cbn [willHook handleDone]. unfold _handleDoneEntering.
  cbn [started refs log markTransitioning setTransitioning]. rewrite Hc.
  destruct (componentWillEnter cmp) as [[]|]; cbn;
    try (by rewrite lookup_insert_eq);
    destruct (componentDidEnter cmp); cbn; by rewrite lookup_delete_eq.
Qed.

Lemma forEach_performEnter_flag ks : forall this,
  tidy_children this ->
  Forall (fun k => is_Some (refs this !! k) /\ k ∈ keys (state_children this)) ks ->
  forall k cmp, k ∈ ks -> refs this !! k = Some cmp ->
    currentlyTransitioningKeys (instanceOf (forEach performEnter ks this)) !! k
    = match componentWillEnter cmp with
      | Some CallsDoneLater => Some true
      | _ => None
      end.
Proof.
  induction ks as [|j ks IH]; intros this Ht Hks k cmp Hk Hc; [by apply elem_of_nil in Hk|].
  simpl. apply Forall_cons in Hks as [[Hr Hj] Hks].
  destruct (performEnter_tidy j this Ht Hr Hj) as (this1 & Hrun & Ht1 & Hr1 & Hc1).
  assert (Hks1 : Forall (fun k => is_Some (refs this1 !! k)
                                  /\ k ∈ keys (state_children this1)) ks).
  { eapply Forall_impl; [exact Hks|]. intros i. simpl. by rewrite Hr1, Hc1. }
  pose proof (performEnter_flag j this) as Hfl. rewrite Hrun in Hfl |- *.
  cbn [andThen instanceOf] in *.
  destruct (decide (k ∈ ks)) as [Hin|Hout].
  - apply (IH this1 Ht1 Hks1 k cmp Hin). by rewrite Hr1.
  - apply elem_of_cons in Hk as [->|Hk]; [|done].
    rewrite (forEach_flag_other Enter ks j this1 Hout : 
               currentlyTransitioningKeys (instanceOf (forEach performEnter ks this1)) !! j = _).
    by apply Hfl.
Qed.

Lemma componentDidUpdate_enter_outcome this :
  tidy_children this ->
  Forall (fun k => is_Some (refs this !! k) /\ k ∈ keys (state_children this))
    (keysToEnter this ++ keysToStay this ++ keysToLeave this) ->
  NoDup (keysToLeave this) ->
  exists this',
    componentDidUpdate this = Ok this'
    /\ forall k cmp,
         k ∈ keysToEnter this -> k ∉ keysToLeave this -> refs this !! k = Some cmp ->
         k ∈ keys (state_children this')
         /\ currentlyTransitioningKeys this' !! k
            = match componentWillEnter cmp with
              | Some CallsDoneLater => Some true
              | _ => None
              end.
Proof.
  intros Ht Hall Hnd.
  apply Forall_app in Hall as [He Hall]. apply Forall_app in Hall as [Hs Hl].
  unfold componentDidUpdate.
  destruct (forEach_performEnter_tidy (keysToEnter this) (setKeysToEnter [] this) Ht He)
    as (this1 & Hrun1 & Ht1 & Hr1 & Hc1).
  pose proof (forEach_performEnter_flag (keysToEnter this) (setKeysToEnter [] this) Ht He)
    as Hflag.
  destruct (forEach_run Enter performEnter performEnter_step (keysToEnter this)
              (setKeysToEnter [] this)) as (this1' & Hrun1' & _ & _ & _ & Hs1 & Hl1).
  { eapply Forall_impl; [exact He|]. by intros k [? _]. }
  rewrite Hrun1 in Hrun1'. injection Hrun1' as <-.
  rewrite Hrun1 in Hflag |- *. cbn [andThen instanceOf] in *.
  cbn in Hr1, Hc1, Hs1, Hl1, Hflag.
  destruct (forEach_performStay_tidy (keysToStay this1) (setKeysToStay [] this1) Ht1)
    as (this2 & Hrun2 & Ht2 & Hr2 & Hc2).
  { rewrite Hs1. eapply Forall_impl; [exact Hs|]. intros k [? _]. cbn. by rewrite Hr1. }
  destruct (forEach_performStay_frame (keysToStay this1) (setKeysToStay [] this1))
    as [_ Hf2].
  destruct (forEach_run Stay performStay performStay_step (keysToStay this1)
              (setKeysToStay [] this1)) as (this2' & Hrun2' & _ & _ & _ & _ & Hl2).
  { rewrite Hs1. eapply Forall_impl; [exact Hs|]. intros k [? _]. cbn. by rewrite Hr1. }
  rewrite Hrun2 in Hrun2'. injection Hrun2' as <-.
  rewrite Hrun2 in Hf2 |- *. cbn [andThen instanceOf] in *. cbn in Hr2, Hc2, Hl2, Hf2.
  destruct (forEach_performLeave_outcome (keysToLeave this2) (setKeysToLeave [] this2) Ht2)
    as (this3 & Hrun3 & Ht3 & Hout).
  { by rewrite Hl2, Hl1. }
  { rewrite Hl2, Hl1. eapply Forall_impl; [exact Hl|]. intros k [? ?]. cbn.
    by rewrite Hr2, Hr1, Hc2, Hc1. }
  exists this3. split; [done|]. intros k cmp Hk Hnl Hc.
  destruct (Hout k) as [Hother _]. rewrite Hl2, Hl1 in Hother.
  destruct (Hother Hnl) as [Hkeys Hfl]. cbn in Hkeys, Hfl.
  rewrite Hkeys, Hfl, Hc2, Hc1, Hf2. split.
  - rewrite Forall_forall in He. by apply He.
  - by apply Hflag.
Qed.

(** X10 (lines 234-247, 273, 317-338): after an update of a well-kept
    instance, a child that the size limit kept, whose key the new desired
    children contain and which was not tracked before, or was flagged as
    transitioning, is still tracked, and it is flagged as transitioning
    exactly when its enter hook holds on to the callback. *)
Theorem entered_child_after_update next size this this' c :
  tidy this ->
  receiveProps next size this = Ok this' ->
  c ∈ state_children (componentWillReceiveProps next size this) ->
  key c ∈ keys (mapChildren next) ->
  key c ∉ keys (state_children this) \/ isTransitioning this (key c) = true ->
  c ∈ state_children this'
  /\ (isTransitioning this' (key c) = true
      <-> componentWillEnter (type c) = Some CallsDoneLater).
Proof.
  intros (Ht & Hd & Hrd) Hrun Hk Hnext Hnew.
  unfold receiveProps in Hrun.
  set (classified := componentWillReceiveProps next size this) in *.
  set (this1 := render (setProps next size classified)) in *.
  assert (Htc : tidy_children classified) by (by apply componentWillReceiveProps_tidy).
  assert (Hch1 : state_children this1 = state_children classified) by done.
  set (dropped := fst (dropExceeding size
                         (mergeChildren (state_children this) (mapChildren next)))).
  assert (Hqs : keysToEnter this1
                = keys (List.filter (entering (state_children this) dropped this)
                          (mapChildren next))
                /\ keysToLeave this1
                   = keys (List.filter (leaving (mapChildren next) dropped)
                             (state_children this))).
  { subst this1 classified dropped. rewrite componentWillReceiveProps_unfold.
    cbn [keysToEnter keysToLeave render setRefs setProps].
    destruct Hd as (-> & _ & ->). done. }
  destruct Hqs as [Henter Hleave].
  destruct (componentDidUpdate_enter_outcome this1) as (this2 & Hrun2 & Hout).
  - exact Htc.
  - pose proof (componentWillReceiveProps_queued next size this Hd) as Hq.
    cbv zeta in Hq. fold classified in Hq.
    eapply Forall_impl; [exact Hq|]. intros k Hk'. split; [by apply refs_render|done].
  - rewrite Hleave. apply filter_keys_NoDup, Ht.
  - rewrite Hrun2 in Hrun. cbn [andThen] in Hrun. injection Hrun as <-.
    change (state_children (render this2)) with (state_children this2).
    change (isTransitioning (render this2) (key c))
      with (isTransitioning this2 (key c)).
    assert (Hsub : forall x, x ∈ state_children this2 -> x ∈ state_children classified).
    { intros x Hx. rewrite <- Hch1. apply componentDidUpdate_subseteq.
      by rewrite Hrun2. }
    assert (Hnd2 : NoDup (keys (state_children classified))) by apply Htc.
    assert (Hnd : isDropped dropped (key c) = false).
    { apply kept_not_dropped; [apply mergeChildren_NoDup|].
      apply hasChild_true. subst classified.
      rewrite componentWillReceiveProps_children in Hk. by apply elem_of_keys. }
    destruct (Hout (key c) (type c)) as [Hin Hfl].
    + rewrite Henter. apply list_elem_of_fmap in Hnext as (c' & Heq & Hc').
      apply elem_of_keys_filter. exists c'. split; [done|]. split; [|done].
      unfold entering. rewrite <- Heq, Hnd. cbn [negb andb].
      destruct Hnew as [Hnew| ->]; [|apply orb_true_r].
      apply hasChild_false in Hnew. by rewrite Hnew.
    + rewrite Hleave. intros (c' & _ & Hp & Heq)%elem_of_keys_filter.
      unfold leaving in Hp. apply andb_true_iff in Hp as [_ Hp].
      apply negb_true_iff, hasChild_false in Hp. by rewrite Heq in Hp.
    + subst this1. by apply refs_render_lookup.
    + split.
      * apply list_elem_of_fmap in Hin as (c' & Heq & Hc').
        by rewrite (keys_inj _ c c' Hnd2 Hk (Hsub _ Hc') Heq).
      * unfold isTransitioning. rewrite Hfl.
        destruct (componentWillEnter (type c)) as [[]|]; split; done.
Qed.

Lemma entered_child_after_update_witness :
  view "A" 1 ∈ state_children entering_A
  /\ (isTransitioning entering_A "A" = true
      <-> componentWillEnter (type (view "A" 1)) = Some CallsDoneLater).
Proof.
  apply (entered_child_after_update (Some [Some (view "A" 1)]) 2
           (instanceOf (mount (Some []) 2)) entering_A (view "A" 1)).
  - apply (mount_tidy (Some []) 2); [|vm_compute; reflexivity].
    apply NoDup_ListNoDup. vm_compute. constructor.
  - vm_compute. reflexivity.
  - vm_compute. by left.
  - vm_compute. by left.
  - left. vm_compute. intros H. by apply elem_of_nil in H.
Defined.

(** ** Children that stay *)

Lemma componentDidUpdate_frame this :
  tidy_children this ->
  Forall (fun k => is_Some (refs this !! k) /\ k ∈ keys (state_children this))
    (keysToEnter this ++ keysToStay this ++ keysToLeave this) ->
  NoDup (keysToLeave this) ->
  exists this',
    componentDidUpdate this = Ok this'
    /\ forall k,
         k ∉ keysToEnter this -> k ∉ keysToLeave this ->
         (k ∈ keys (state_children this') <-> k ∈ keys (state_children this))
         /\ currentlyTransitioningKeys this' !! k = currentlyTransitioningKeys this !! k.
Proof.
  intros Ht Hall Hnd.
  apply Forall_app in Hall as [He Hall]. apply Forall_app in Hall as [Hs Hl].
  unfold componentDidUpdate.
  destruct (forEach_performEnter_tidy (keysToEnter this) (setKeysToEnter [] this) Ht He)
    as (this1 & Hrun1 & Ht1 & Hr1 & Hc1).
  pose proof (fun k => forEach_flag_other Enter (keysToEnter this) k (setKeysToEnter [] this))
    as Hflag.
  change (forEach (perform Enter)) with (forEach performEnter) in Hflag.
  destruct (forEach_run Enter performEnter performEnter_step (keysToEnter this)
              (setKeysToEnter [] this)) as (this1' & Hrun1' & _ & _ & _ & Hs1 & Hl1).
  { eapply Forall_impl; [exact He|]. by intros k [? _]. }
  rewrite Hrun1 in Hrun1'. injection Hrun1' as <-.
  rewrite Hrun1 in Hflag |- *. cbn [andThen instanceOf] in *.
  cbn in Hr1, Hc1, Hs1, Hl1, Hflag.
  destruct (forEach_performStay_tidy (keysToStay this1) (setKeysToStay [] this1) Ht1)
    as (this2 & Hrun2 & Ht2 & Hr2 & Hc2).
  { rewrite Hs1. eapply Forall_impl; [exact Hs|]. intros k [? _]. cbn. by rewrite Hr1. }
  destruct (forEach_performStay_frame (keysToStay this1) (setKeysToStay [] this1))
    as [_ Hf2].
  destruct (forEach_run Stay performStay performStay_step (keysToStay this1)
              (setKeysToStay [] this1)) as (this2' & Hrun2' & _ & _ & _ & _ & Hl2).
  { rewrite Hs1. eapply Forall_impl; [exact Hs|]. intros k [? _]. cbn. by rewrite Hr1. }
  rewrite Hrun2 in Hrun2'. injection Hrun2' as <-.
  rewrite Hrun2 in Hf2 |- *. cbn [andThen instanceOf] in *. cbn in Hr2, Hc2, Hl2, Hf2.
  destruct (forEach_performLeave_outcome (keysToLeave this2) (setKeysToLeave [] this2) Ht2)
    as (this3 & Hrun3 & Ht3 & Hout).
  { by rewrite Hl2, Hl1. }
  { rewrite Hl2, Hl1. eapply Forall_impl; [exact Hl|]. intros k [? ?]. cbn.
    by rewrite Hr2, Hr1, Hc2, Hc1. }
  exists this3. split; [done|]. intros k Hne Hnl.
  destruct (Hout k) as [Hother _]. rewrite Hl2, Hl1 in Hother.
  destruct (Hother Hnl) as [Hkeys Hfl]. cbn in Hkeys, Hfl.
  rewrite Hkeys, Hfl, Hc2, Hc1, Hf2. split; [done|]. by apply Hflag.
Qed.

(** X11 (lines 234-247, 260-266, 269-285, 340-357): after an update of a
    well-kept instance, a child that the size limit kept, whose key the new
    desired children contain and which was tracked and not flagged as
    transitioning, is still tracked and still not flagged: neither the
    transitions of the other children nor its own stay transition touch
    it. *)
Theorem stayed_child_after_update next size this this' c :
  tidy this ->
  receiveProps next size this = Ok this' ->
  c ∈ state_children (componentWillReceiveProps next size this) ->
  key c ∈ keys (mapChildren next) ->
  key c ∈ keys (state_children this) ->
  isTransitioning this (key c) = false ->
  c ∈ state_children this'
  /\ isTransitioning this' (key c) = false
  /\ key c ∈ keysToStay (componentWillReceiveProps next size this).
Proof.
  intros (Ht & Hd & Hrd) Hrun Hk Hnext Hprev Hidle.
  unfold receiveProps in Hrun.
  set (classified := componentWillReceiveProps next size this) in *.
  set (this1 := render (setProps next size classified)) in *.
  assert (Htc : tidy_children classified) by (by apply componentWillReceiveProps_tidy).
  assert (Hch1 : state_children this1 = state_children classified) by done.
  set (dropped := fst (dropExceeding size
                         (mergeChildren (state_children this) (mapChildren next)))).
  assert (Hqs : keysToEnter this1
                = keys (List.filter (entering (state_children this) dropped this)
                          (mapChildren next))
                /\ keysToStay classified
                   = keys (List.filter (staying (state_children this) dropped this)
                             (mapChildren next))
                /\ keysToLeave this1
                   = keys (List.filter (leaving (mapChildren next) dropped)
                             (state_children this))
                /\ currentlyTransitioningKeys this1
                   = fold_left (fun m c => delete (key c) m) (default [] dropped)
                       (currentlyTransitioningKeys this)).
  { subst this1 classified dropped. rewrite componentWillReceiveProps_unfold.
    cbn [keysToEnter keysToStay keysToLeave currentlyTransitioningKeys render setRefs
         setProps].
    destruct Hd as (-> & -> & ->). done. }
  destruct Hqs as (Henter & Hstay & Hleave & Hflags).
  destruct (componentDidUpdate_frame this1) as (this2 & Hrun2 & Hout).
  - exact Htc.
  - pose proof (componentWillReceiveProps_queued next size this Hd) as Hq.
    cbv zeta in Hq. fold classified in Hq.
    eapply Forall_impl; [exact Hq|]. intros k Hk'. split; [by apply refs_render|done].
  - rewrite Hleave. apply filter_keys_NoDup, Ht.
  - rewrite Hrun2 in Hrun. cbn [andThen] in Hrun. injection Hrun as <-.
    change (state_children (render this2)) with (state_children this2).
    change (isTransitioning (render this2) (key c))
      with (isTransitioning this2 (key c)).
    assert (Hsub : forall x, x ∈ state_children this2 -> x ∈ state_children classified).
    { intros x Hx. rewrite <- Hch1. apply componentDidUpdate_subseteq.
      by rewrite Hrun2. }
    assert (Hnd2 : NoDup (keys (state_children classified))) by apply Htc.
    assert (Hnd : isDropped dropped (key c) = false).
    { apply kept_not_dropped; [apply mergeChildren_NoDup|].
      apply hasChild_true. subst classified.
      rewrite componentWillReceiveProps_children in Hk. by apply elem_of_keys. }
    apply hasChild_true in Hprev.
    destruct (Hout (key c)) as [Hin Hfl].
    + rewrite Henter. intros (c' & _ & Hp & Heq)%elem_of_keys_filter.
      unfold entering in Hp. rewrite Heq, Hprev, Hidle in Hp.
      by rewrite andb_false_r in Hp.
    + rewrite Hleave. intros (c' & _ & Hp & Heq)%elem_of_keys_filter.
      unfold leaving in Hp. apply andb_true_iff in Hp as [_ Hp].
      apply negb_true_iff, hasChild_false in Hp. by rewrite Heq in Hp.
    + split; [|split].
      * assert (Hkey : key c ∈ keys (state_children this2)).
        { apply Hin. rewrite Hch1. by apply elem_of_keys. }
        apply list_elem_of_fmap in Hkey as (c' & Heq & Hc').
        by rewrite (keys_inj _ c c' Hnd2 Hk (Hsub _ Hc') Heq).
      * unfold isTransitioning in *. rewrite Hfl, Hflags, lookup_fold_delete.
        by destruct (hasChild (key c) (default [] dropped)).
      * rewrite Hstay. apply list_elem_of_fmap in Hnext as (c' & Heq & Hc').
        apply elem_of_keys_filter. exists c'. split; [done|]. split; [|done].
        unfold staying. by rewrite <- Heq, Hnd, Hprev, Hidle.
Qed.

Lemma stayed_child_after_update_witness :
  view "B" 1 ∈ state_children leaving_A
  /\ isTransitioning leaving_A "B" = false
  /\ "B" ∈ keysToStay
             (componentWillReceiveProps (Some [Some (view "B" 1)]) 2
                (instanceOf (mount (Some [Some (view "A" 1); Some (view "B" 1)]) 2))).
Proof.
  apply (stayed_child_after_update (Some [Some (view "B" 1)]) 2
           (instanceOf (mount (Some [Some (view "A" 1); Some (view "B" 1)]) 2))
           leaving_A (view "B" 1)).
  - apply (mount_tidy (Some [Some (view "A" 1); Some (view "B" 1)]) 2).
    + apply NoDup_ListNoDup. vm_compute. repeat constructor; simpl; intuition congruence.
    + vm_compute. reflexivity.
  - vm_compute. reflexivity.
  - vm_compute. right. by left.
  - vm_compute. by left.
  - vm_compute. right. by left.
  - vm_compute. reflexivity.
Defined.

(** * Properties of spotlight/Pause *)

Lemma Pause_step_nonneg pauseCount c : 0 <= pauseCount -> 0 <= Pause.step pauseCount c.
Proof.
  intros H. destruct c; unfold Pause.step, Pause.pause, Pause.resume; [lia|].
  destruct (Z.ltb_spec 0 pauseCount); lia.
Qed.

Lemma Pause_fold_nonneg calls : forall pauseCount,
  0 <= pauseCount -> 0 <= fold_left Pause.step calls pauseCount.
Proof.
  induction calls as [|c calls IH]; intros pauseCount H; simpl; [done|].
  by apply IH, Pause_step_nonneg.
Qed.

(** X12: whatever sequence of [pause] and [resume] calls is made, the
    counter never goes below zero, and [isPaused] holds exactly while it is
    positive; the counter is the number of pauses so far minus the number
    of resumes that found it positive. *)
Theorem pauseCount_never_negative (calls : list Pause.call) :
  0 <= Pause.run calls
  /\ (Pause.isPaused (Pause.run calls) = true <-> 0 < Pause.run calls)
  /\ Pause.run (calls ++ [Pause.CallPause]) = Pause.run calls + 1
  /\ Pause.run (calls ++ [Pause.CallResume]) = Z.max 0 (Pause.run calls - 1).
Proof.
  assert (H : 0 <= Pause.run calls) by (by apply Pause_fold_nonneg).
  split; [done|]. split; [|split].
  - unfold Pause.isPaused. destruct (Z.eqb_spec (Pause.run calls) 0); simpl; split; try done; lia.
  - unfold Pause.run. by rewrite fold_left_app.
  - unfold Pause.run in *. rewrite fold_left_app. simpl. unfold Pause.resume.
    destruct (Z.ltb_spec 0 (fold_left Pause.step calls Pause.initial)); lia.
Qed.

Lemma Pause_iter_pause n pauseCount :
  Nat.iter n Pause.pause pauseCount = pauseCount + Z.of_nat n.
Proof. induction n as [|n IH]; simpl; [lia|]. rewrite IH. unfold Pause.pause. lia. Qed.

Lemma Pause_iter_resume m pauseCount :
  0 <= pauseCount ->
  Nat.iter m Pause.resume pauseCount = Z.max 0 (pauseCount - Z.of_nat m).
Proof.
  intros H. induction m as [|m IH]; simpl; [lia|]. rewrite IH. unfold Pause.resume.
  destruct (Z.ltb_spec 0 (Z.max 0 (pauseCount - Z.of_nat m))); lia.
Qed.

(** X13: after [n] pauses, [m] resumes leave the counter at the earlier
    count plus [n - m], or at zero if that is negative: as many resumes as
    pauses restore the count, and further resumes change nothing.
    [Pause.resume] answers [true] exactly when the counter was at most one
    before the call. *)
Theorem resume_undoes_pause (pauseCount : Z) (n m : nat) :
  0 <= pauseCount ->
  Nat.iter m Pause.resume (Nat.iter n Pause.pause pauseCount)
  = Z.max 0 (pauseCount + Z.of_nat n - Z.of_nat m)
  /\ Nat.iter n Pause.resume (Nat.iter n Pause.pause pauseCount) = pauseCount
  /\ (fst (Pause.Pause_resume pauseCount) = true <-> pauseCount <= 1)
  /\ snd (Pause.Pause_resume pauseCount) = Z.max 0 (pauseCount - 1).
Proof.
  intros H. rewrite !Pause_iter_pause, !Pause_iter_resume by lia.
  split; [done|]. split; [lia|].
  unfold Pause.Pause_resume, Pause.isPaused, Pause.resume. simpl.
  destruct (Z.ltb_spec 0 pauseCount); simpl.
  - split; [|lia]. rewrite negb_involutive, Z.eqb_eq. lia.
  - split; [|lia]. rewrite negb_involutive, Z.eqb_eq. lia.
Qed.

Lemma resume_undoes_pause_witness :
  0 <= Pause.initial
  /\ Nat.iter 2 Pause.resume (Nat.iter 2 Pause.pause Pause.initial) = Pause.initial
  /\ Nat.iter 5 Pause.resume (Nat.iter 2 Pause.pause Pause.initial) = 0.
Proof.
  assert (H : 0 <= Pause.initial) by (unfold Pause.initial; lia).
  split; [exact H|]. split.
  - by destruct (resume_undoes_pause Pause.initial 2 2 H) as (_ & -> & _).
  - by destruct (resume_undoes_pause Pause.initial 2 5 H) as (-> & _).
Defined.

(** * Properties of moonstone/Scroller *)

Lemma roundToBoundary_cases threshold sb st sh :
  (st < threshold /\ Scroller.roundToBoundary threshold sb st sh = 0)
  \/ (threshold <= st /\ sh - (st + Scroller.height sb) < threshold
      /\ Scroller.roundToBoundary threshold sb st sh = sh - Scroller.height sb)
  \/ (threshold <= st /\ threshold <= sh - (st + Scroller.height sb)
      /\ Scroller.roundToBoundary threshold sb st sh = st).
Proof.
  unfold Scroller.roundToBoundary.
  destruct (Z.ltb_spec st threshold); [by left|].
  destruct (Z.ltb_spec (sh - (st + Scroller.height sb)) threshold);
    [right; left|right; right]; done.
Qed.

Lemma roundToBoundary_range threshold sb st sh :
  0 <= threshold -> Scroller.height sb <= sh ->
  0 <= Scroller.roundToBoundary threshold sb st sh <= sh - Scroller.height sb.
Proof.
  intros Ht Hh.
  destruct (roundToBoundary_cases threshold sb st sh)
    as [[H1 ->]|[(H1 & H2 & ->)|(H1 & H2 & ->)]]; lia.
Qed.

(** X14: [roundToBoundary] returns zero, the largest scroll offset
    [sh - height], or the offset it was given; it returns the given offset
    when that is at least the threshold away from both ends; and for a
    threshold that is not negative and content at least as high as the
    scroller, its result lies between zero and the largest offset. *)
Theorem roundToBoundary_within_range (threshold : Z) (sb : Scroller.DOMRect) (st sh : Z) :
  0 <= threshold ->
  Scroller.height sb <= sh ->
  0 <= Scroller.roundToBoundary threshold sb st sh <= sh - Scroller.height sb
  /\ (Scroller.roundToBoundary threshold sb st sh = 0
      \/ Scroller.roundToBoundary threshold sb st sh = sh - Scroller.height sb
      \/ Scroller.roundToBoundary threshold sb st sh = st)
  /\ (threshold <= st <= sh - Scroller.height sb - threshold ->
      Scroller.roundToBoundary threshold sb st sh = st).
Proof.
  intros Ht Hh.
  destruct (roundToBoundary_cases threshold sb st sh)
    as [[H1 ->]|[(H1 & H2 & ->)|(H1 & H2 & ->)]]; repeat split; try lia; auto.
Qed.

Lemma roundToBoundary_within_range_witness :
  0 <= 24 /\ 100 <= 1000
  /\ Scroller.roundToBoundary 24 (Scroller.Build_DOMRect 0 0 50 100) 890 1000 = 900.
Proof.
  split; [lia|]. split; [lia|].
  destruct (roundToBoundary_within_range 24 (Scroller.Build_DOMRect 0 0 50 100) 890 1000)
    as (_ & _ & _); [lia|simpl; lia|]. reflexivity.
Defined.

Lemma calcItemInView_cases threshold ib sb st sh d :
  (Scroller.top ib + d < Scroller.top sb
   /\ Scroller.calcItemInView threshold ib sb st sh d
      = Scroller.roundToBoundary threshold sb (Scroller.calcItemAtStart ib sb st d) sh)
  \/ (Scroller.top sb <= Scroller.top ib + d
      /\ Scroller.top sb + Scroller.height sb < Scroller.top ib + d + Scroller.height ib
      /\ Scroller.calcItemInView threshold ib sb st sh d
         = Scroller.roundToBoundary threshold sb (Scroller.calcItemAtEnd ib sb st d) sh)
  \/ (Scroller.top sb <= Scroller.top ib + d
      /\ Scroller.top ib + d + Scroller.height ib <= Scroller.top sb + Scroller.height sb
      /\ Scroller.calcItemInView threshold ib sb st sh d = st).
Proof.
  unfold Scroller.calcItemInView, Scroller.isItemBeforeView, Scroller.isItemAfterView.
  rewrite Z.gtb_ltb.
  destruct (Z.ltb_spec (Scroller.top ib + d) (Scroller.top sb)); [by left|].
  destruct (Z.ltb_spec (Scroller.top sb + Scroller.height sb)
              (Scroller.top ib + d + Scroller.height ib)); [right; left|right; right]; done.
Qed.

(** The rectangle [calculateScrollTop] brings into view when the spotlight
    container, if any, fits the scroller. *)
Lemma calculateScrollTop_fitting threshold container ib sb sh st :
  match container with
  | Some cb => Scroller.height cb <= Scroller.height sb
  | None => True
  end ->
  Scroller.calculateScrollTop threshold container ib sb sh st
  = Scroller.calcItemInView threshold (default ib container) sb st sh 0.
Proof.
  unfold Scroller.calculateScrollTop, Scroller.canItemFit.
  destruct container as [cb|]; [|done]. intros Hfit. simpl.
  destruct (Z.leb_spec (Scroller.height cb) (Scroller.height sb)); [done|lia].
Qed.

(** X15: when the node has no spotlight container, or one that fits the
    scroller, and the rectangle to show (the container if there is one,
    else the node) already lies within the scroller, [calculateScrollTop]
    returns the current [scrollTop]; and whatever the rectangle, the result
    is the current [scrollTop] or lies between zero and the largest offset
    [scrollHeight - height]. *)
Theorem calculateScrollTop_in_view (threshold : Z) (container : option Scroller.DOMRect)
    (itemBounds scrollerBounds : Scroller.DOMRect) (scrollHeight scrollTop : Z) :
  let shown := default itemBounds container in
  0 <= threshold ->
  Scroller.height scrollerBounds <= scrollHeight ->
  Scroller.height shown <= Scroller.height scrollerBounds ->
  (Scroller.top scrollerBounds <= Scroller.top shown ->
   Scroller.top shown + Scroller.height shown
   <= Scroller.top scrollerBounds + Scroller.height scrollerBounds ->
   Scroller.calculateScrollTop threshold container itemBounds scrollerBounds
     scrollHeight scrollTop = scrollTop)
  /\ (Scroller.calculateScrollTop threshold container itemBounds scrollerBounds
        scrollHeight scrollTop = scrollTop
      \/ 0 <= Scroller.calculateScrollTop threshold container itemBounds scrollerBounds
                scrollHeight scrollTop
           <= scrollHeight - Scroller.height scrollerBounds).
Proof.
  intros shown Ht Hh Hfit.
  assert (Heq : Scroller.calculateScrollTop threshold container itemBounds scrollerBounds
                  scrollHeight scrollTop
                = Scroller.calcItemInView threshold shown scrollerBounds scrollTop
                    scrollHeight 0).
  { subst shown. destruct container as [cb|].
    - by apply calculateScrollTop_fitting.
    - by apply calculateScrollTop_fitting. }
  rewrite Heq.
  destruct (calcItemInView_cases threshold shown scrollerBounds scrollTop scrollHeight 0)
    as [[H1 ->]|[(H1 & H2 & ->)|(H1 & H2 & ->)]].
  - split; [lia|]. right. by apply roundToBoundary_range.
  - split; [lia|]. right. by apply roundToBoundary_range.
  - split; [done|]. by left.
Qed.

Lemma calculateScrollTop_in_view_witness :
  Scroller.calculateScrollTop 24 None (Scroller.Build_DOMRect 120 0 50 40)
    (Scroller.Build_DOMRect 100 0 50 200) 1000 300 = 300.
Proof.
  destruct (calculateScrollTop_in_view 24 None (Scroller.Build_DOMRect 120 0 50 40)
              (Scroller.Build_DOMRect 100 0 50 200) 1000 300) as [H _];
    simpl; try lia.
  apply H; simpl; lia.
Defined.

(** X16: for a node without spotlight container, or with one that fits,
    whose rectangle starts above the scroller, the result is the offset
    that puts the top of the rectangle at the top of the scroller, rounded
    by [roundToBoundary]; for one that ends below the scroller it is the
    offset that puts its bottom at the bottom of the scroller, rounded.
    Where the rounding leaves the offset alone, scrolling by the difference
    brings the rectangle to that edge, and wholly into view. *)
Theorem calculateScrollTop_aligns (threshold : Z) (container : option Scroller.DOMRect)
    (itemBounds scrollerBounds : Scroller.DOMRect) (scrollHeight scrollTop : Z) :
  let shown := default itemBounds container in
  let result := Scroller.calculateScrollTop threshold container itemBounds scrollerBounds
                  scrollHeight scrollTop in
  let top_after := Scroller.top shown - (result - scrollTop) in
  Scroller.height shown <= Scroller.height scrollerBounds ->
  (Scroller.top shown < Scroller.top scrollerBounds ->
     result = Scroller.roundToBoundary threshold scrollerBounds
                (scrollTop - (Scroller.top scrollerBounds - Scroller.top shown)) scrollHeight
     /\ (result = scrollTop - (Scroller.top scrollerBounds - Scroller.top shown) ->
         top_after = Scroller.top scrollerBounds
         /\ top_after + Scroller.height shown
            <= Scroller.top scrollerBounds + Scroller.height scrollerBounds))
  /\ (Scroller.top scrollerBounds <= Scroller.top shown ->
      Scroller.top scrollerBounds + Scroller.height scrollerBounds
      < Scroller.top shown + Scroller.height shown ->
      result = Scroller.roundToBoundary threshold scrollerBounds
                 (scrollTop + (Scroller.top shown + Scroller.height shown
                               - (Scroller.top scrollerBounds + Scroller.height scrollerBounds)))
                 scrollHeight
      /\ (result = scrollTop + (Scroller.top shown + Scroller.height shown
                                - (Scroller.top scrollerBounds + Scroller.height scrollerBounds)) ->
          top_after + Scroller.height shown
          = Scroller.top scrollerBounds + Scroller.height scrollerBounds
          /\ Scroller.top scrollerBounds <= top_after)).
Proof.
  intros shown result top_after Hfit.
  assert (Heq : result = Scroller.calcItemInView threshold shown scrollerBounds scrollTop
                           scrollHeight 0).
  { subst result shown. destruct container as [cb|]; by apply calculateScrollTop_fitting. }
  destruct (calcItemInView_cases threshold shown scrollerBounds scrollTop scrollHeight 0)
    as [[H1 Hr]|[(H1 & H2 & Hr)|(H1 & H2 & Hr)]]; rewrite Hr in Heq;
    unfold Scroller.calcItemAtStart, Scroller.calcItemAtEnd in Heq.
  - split; [|lia]. intros _. split.
    + rewrite Heq. f_equal. lia.
    + subst top_after. lia.
  - split; [lia|]. intros _ _. split.
    + rewrite Heq. f_equal. lia.
    + subst top_after. lia.
  - split; lia.
Qed.

Lemma calculateScrollTop_aligns_witness :
  Scroller.calculateScrollTop 24 None (Scroller.Build_DOMRect 40 0 50 40)
    (Scroller.Build_DOMRect 100 0 50 200) 1000 300 = 240.
Proof.
  destruct (calculateScrollTop_aligns 24 None (Scroller.Build_DOMRect 40 0 50 40)
              (Scroller.Build_DOMRect 100 0 50 200) 1000 300) as [H _]; [simpl; lia|].
  destruct H as [-> _]; [simpl; lia|]. reflexivity.
Defined.

(** X17: in a horizontal scroller, for a focused node that the scroller
    contains and that is narrower than the client width, with no ongoing
    scroll position passed in, the [scrollPos.left] that
    [calculatePositionOnFocus] returns shows the whole node: measured from
    the start of the content, in reading direction, the view then starts at
    or before the node and ends at or after it.  This holds left-to-right
    and right-to-left; a node already in view leaves [scrollPos.left]
    unchanged. *)
Theorem calculatePositionOnFocus_shows_node (threshold : Z) (rtl : bool)
    (ui : Scroller.UiRef) (item : Scroller.Item) :
  let itemLeft := Scroller.scrollLeft ui
                  + (Scroller.left (Scroller.getFocusedItemBounds item)
                     - Scroller.left (Scroller.containerBounds ui)) in
  let itemWidth := Scroller.width (Scroller.getFocusedItemBounds item) in
  let viewStart (l : Z) := if rtl then Scroller.maxLeft ui - l else l in
  Scroller.isVertical ui = false ->
  Scroller.isHorizontal ui = true ->
  Scroller.contained item = true ->
  itemWidth < Scroller.clientWidth ui ->
  exists l,
    Scroller.calculatePositionOnFocus threshold rtl ui (Some item) None
    = Some (Scroller.scrollPos_top ui, l)
    /\ viewStart l <= itemLeft
    /\ itemLeft + itemWidth <= viewStart l + Scroller.clientWidth ui
    /\ (viewStart (Scroller.scrollPos_left ui) <= itemLeft ->
        itemLeft + itemWidth <= viewStart (Scroller.scrollPos_left ui) + Scroller.clientWidth ui ->
        l = Scroller.scrollPos_left ui).
Proof.
  intros itemLeft itemWidth viewStart Hv Hh Hc Hw.
  unfold Scroller.calculatePositionOnFocus. rewrite Hv, Hh, Hc. simpl.
  eexists. split; [reflexivity|].
  unfold Scroller.calculateScrollLeft. fold itemWidth. fold itemLeft.
  rewrite Z.gtb_ltb.
  destruct (Z.ltb_spec itemWidth (Scroller.clientWidth ui)) as [_|]; [|lia].
  rewrite andb_true_r. subst viewStart. cbv beta.
  destruct rtl;
    match goal with |- context [?a <? ?b] =>
      destruct (Z.ltb_spec a b) end;
    try match goal with |- context [?a <? ?b] =>
      destruct (Z.ltb_spec a b) end; lia.
Qed.

Lemma calculatePositionOnFocus_shows_node_witness :
  exists l,
    Scroller.calculatePositionOnFocus 24 true
      (Scroller.Build_UiRef false true 0 100 300 1000 (Scroller.Build_DOMRect 0 10 300 50)
         50 0 800)
      (Some (Scroller.Build_Item true (Scroller.Build_DOMRect 0 400 80 50) None)) None
    = Some (0, l)
    /\ 1000 - l <= 1190 /\ 1190 + 80 <= 1000 - l + 300.
Proof.
  destruct (calculatePositionOnFocus_shows_node 24 true
              (Scroller.Build_UiRef false true 0 100 300 1000
                 (Scroller.Build_DOMRect 0 10 300 50) 50 0 800)
              (Scroller.Build_Item true (Scroller.Build_DOMRect 0 400 80 50) None))
    as (l & Hl & Hstart & Hend & _); [reflexivity|reflexivity|reflexivity|reflexivity|].
  exists l. split; [exact Hl|]. split; [exact Hstart|exact Hend].
Defined.

(** * Properties of moonstone/VideoPlayer/Video *)

(** X18: on a mounted instance with a video node and a preload source,
    auto play allowed and neither video marked loaded, the two load-start
    handlers may come in either order: the first to come calls nothing, the
    second calls [play()] on the video node once and forwards the load
    start event of the video, and both orders end in the same state. *)
Theorem load_starts_play_once {S : Type} (this : @Video.VideoBase S) (node ev : nat) :
  Video.isPlayerMounted this = true ->
  Video.video this = Some node ->
  Video.noAutoPlay (Video.props this) = false ->
  is_Some (Video.preloadSource (Video.props this)) ->
  Video.loaded_video this = false ->
  Video.loaded_preload this = false ->
  exists first first' last,
    Video.handleVideoLoadStart ev this = Video.Ok first
    /\ Video.calls first = Video.calls this
    /\ Video.handlePreloadVideoLoadStart first = Video.Ok last
    /\ Video.handlePreloadVideoLoadStart this = Video.Ok first'
    /\ Video.calls first' = Video.calls this
    /\ Video.handleVideoLoadStart ev first' = Video.Ok last
    /\ Video.calls last
       = Video.calls this ++ [Video.Play node; Video.ForwardLoadStart (Some ev)].
Proof.
  intros Hm Hv Hn [s Hp] Hlv Hlp.
  destruct this as [[src pre nap sm] m lv lp lse vid pv cs]. simpl in *. subst.
  do 3 eexists. repeat split; try reflexivity.
  unfold Video.handleVideoLoadStart, Video.autoPlay, Video.canPlay, Video.call. simpl.
  by rewrite <- app_assoc.
Qed.

Lemma load_starts_play_once_witness :
  exists last,
    Video.handlePreloadVideoLoadStart
      (Video.instanceOf
         (Video.handleVideoLoadStart 7%nat
            (Video.setVideoRef (Some 1%nat)
               (Video.componentDidMount
                  (Video.constructor
                     (Video.Build_Props (Some "a.mp4") (Some "b.mp4") false None))))))
    = Video.Ok last
    /\ Video.calls last = [Video.Play 1%nat; Video.ForwardLoadStart (Some 7%nat)].
Proof.
  destruct (load_starts_play_once
              (Video.setVideoRef (Some 1%nat)
                 (Video.componentDidMount
                    (Video.constructor
                       (Video.Build_Props (Some "a.mp4") (Some "b.mp4") false None))))
              1%nat 7%nat)
    as (first & first' & last & H1 & _ & H2 & _ & _ & _ & H3);
    [reflexivity|reflexivity|reflexivity|by eexists|reflexivity|reflexivity|].
  exists last. rewrite H1. split; [exact H2|exact H3].
Defined.

Lemma autoPlay_cases {S : Type} (this : @Video.VideoBase S) :
  (Video.autoPlay this = Video.Ok this
   /\ (Video.noAutoPlay (Video.props this) = true \/ Video.canPlay this = false))
  \/ (exists node,
        Video.video this = Some node
        /\ Video.noAutoPlay (Video.props this) = false /\ Video.canPlay this = true
        /\ Video.autoPlay this
           = Video.Ok (Video.call (Video.ForwardLoadStart (Video.loadStartEvent this))
                         (Video.call (Video.Play node) this)))
  \/ (Video.video this = None
      /\ Video.noAutoPlay (Video.props this) = false /\ Video.canPlay this = true
      /\ Video.autoPlay this = Video.Throw this).
Proof.
  unfold Video.autoPlay.
  destruct (Video.noAutoPlay (Video.props this)); [left; auto|].
  destruct (Video.canPlay this); simpl; [|left; auto].
  destruct (Video.video this) as [node|]; [right; left; by exists node|right; right; done].
Qed.

Lemma quiet_refl {S : Type} (this this' : @Video.VideoBase S) :
  Video.calls this' = Video.calls this -> Video.quiet this this'.
Proof. intros H. exists []. rewrite app_nil_r. split; [done|]. intros n. apply not_elem_of_nil. Qed.

Lemma quiet_trans {S : Type} (a b c : @Video.VideoBase S) :
  Video.quiet a b -> Video.quiet b c -> Video.quiet a c.
Proof.
  intros (p1 & H1 & N1) (p2 & H2 & N2). exists (p1 ++ p2). split.
  - by rewrite H2, H1, app_assoc.
  - intros n [H|H]%elem_of_app; [by apply (N1 n)|by apply (N2 n)].
Qed.

Lemma quiet_call {S : Type} (this : @Video.VideoBase S) e :
  (forall node, e <> Video.Play node) -> Video.quiet this (Video.call e this).
Proof.
  intros He. exists [e]. split; [done|]. intros n Hn%list_elem_of_singleton.
  by apply (He n).
Qed.

Lemma quiet_setMedia {S : Type} (this : @Video.VideoBase S) :
  Video.quiet this (Video.setMedia_ this).
Proof.
  unfold Video.setMedia_. destruct (Video.setMedia (Video.props this));
    [by apply quiet_call|by apply quiet_refl].
Qed.

Lemma quiet_clearMedia {S : Type} p (this : @Video.VideoBase S) :
  Video.quiet this (Video.clearMedia p this).
Proof.
  unfold Video.clearMedia. destruct (Video.setMedia p);
    [by apply quiet_call|by apply quiet_refl].
Qed.

(** The outcome of a method that ends in [autoPlay], reached from [this]
    through a state [before] that differs by calls other than [play()]. *)
Lemma autoPlay_guarded {S : Type} (this before : @Video.VideoBase S) :
  Video.quiet this before ->
  forall new,
    Video.calls (Video.instanceOf (Video.autoPlay before)) = Video.calls this ++ new ->
    forall node, Video.Play node ∈ new ->
    exists this',
      Video.autoPlay before = Video.Ok this'
      /\ Video.canPlay this' = true
      /\ Video.noAutoPlay (Video.props this') = false
      /\ Video.video this' = Some node.
Proof.
  intros (pre & Hpre & Hno) new Hnew node Hin.
  destruct (autoPlay_cases before) as [[Heq _]|[(n & Hv & Hn & Hc & Heq)|(_ & _ & _ & Heq)]];
    rewrite Heq in *; simpl in Hnew.
  - rewrite Hpre in Hnew. apply app_inv_head in Hnew as <-. by destruct (Hno node).
  - rewrite Hpre, <- !app_assoc in Hnew. apply app_inv_head in Hnew as <-.
    apply elem_of_app in Hin as [Hin|Hin]; [by destruct (Hno node)|].
    apply elem_of_cons in Hin as [[= ->]|Hin].
    + eexists. by repeat split.
    + apply list_elem_of_singleton in Hin. discriminate.
  - rewrite Hpre in Hnew. apply app_inv_head in Hnew as <-. by destruct (Hno node).
Qed.

Lemma quiet_no_play {S : Type} (this this' : @Video.VideoBase S) new node :
  Video.quiet this this' ->
  Video.calls this' = Video.calls this ++ new -> Video.Play node ∈ new -> False.
Proof.
  intros (pre & Hpre & Hno) Hnew Hin. rewrite Hpre in Hnew.
  apply app_inv_head in Hnew as <-. by apply (Hno node).
Qed.

(** Where [componentDidUpdate] stands before it decides on [autoPlay]. *)
Lemma componentDidUpdate_cases {S : Type} (getKeyFromSource : option S -> string)
    prevProps (this : @Video.VideoBase S) :
  exists before,
    Video.quiet this before
    /\ Video.props before = Video.props this
    /\ Video.video before = Video.video this
    /\ Video.isPlayerMounted before = Video.isPlayerMounted this
    /\ Video.loadStartEvent before = Video.loadStartEvent this
    /\ (Video.loaded_video before
        = if bool_decide (is_Some (Video.source (Video.props this)))
             && negb (String.eqb (getKeyFromSource (Video.source (Video.props this)))
                        (getKeyFromSource (Video.source prevProps)))
             && negb (String.eqb (getKeyFromSource (Video.source (Video.props this)))
                        (getKeyFromSource (Video.preloadSource prevProps)))
          then false else Video.loaded_video this)
    /\ Video.componentDidUpdate getKeyFromSource prevProps this
       = if bool_decide (is_Some (Video.source (Video.props this)))
            && String.eqb (getKeyFromSource (Video.preloadSource prevProps))
                 (getKeyFromSource (Video.source (Video.props this)))
         then Video.autoPlay before else Video.Ok before.
Proof.
  unfold Video.componentDidUpdate. cbv zeta.
  eexists. split; [|split; [|split; [|split; [|split; [|split; [|reflexivity]]]]]].
  - repeat case_match; simpl;
      repeat first [ apply quiet_refl; reflexivity
                   | eapply quiet_trans; [|apply quiet_setMedia]
                   | eapply quiet_trans; [|apply quiet_clearMedia]
                   | eapply quiet_trans; [|by apply quiet_call] ].
  - unfold Video.setMedia_, Video.clearMedia; repeat case_match; done.
  - unfold Video.setMedia_, Video.clearMedia; repeat case_match; done.
  - unfold Video.setMedia_, Video.clearMedia; repeat case_match; done.
  - unfold Video.setMedia_, Video.clearMedia; repeat case_match; done.
  - unfold Video.setMedia_, Video.clearMedia; repeat case_match; done.
Qed.

(** X19: whatever happens to the instance -- a lifecycle method, a ref
    callback or a load-start handler -- it only adds to the calls made so
    far, and if it calls [play()] on a node then it returned, auto play is
    not disabled, that node is the current video node and [canPlay()]
    holds: the player is mounted, the video has started loading and so has
    the preload video if there is a preload source. *)
Theorem play_only_when_allowed {S : Type} (getKeyFromSource : option S -> string)
    (e : Video.event) (this : @Video.VideoBase S) (new : list Video.effect) (node : nat) :
  Video.calls (Video.instanceOf (Video.fire getKeyFromSource e this))
  = Video.calls this ++ new ->
  Video.Play node ∈ new ->
  exists this',
    Video.fire getKeyFromSource e this = Video.Ok this'
    /\ Video.canPlay this' = true
    /\ Video.noAutoPlay (Video.props this') = false
    /\ Video.video this' = Some node.
Proof.
  intros Hnew Hin. destruct e as [|p| |ev| |n|n]; cbn [Video.fire Video.instanceOf] in *.
  - exfalso. eapply quiet_no_play; [|exact Hnew|exact Hin].
    unfold Video.componentDidMount. eapply quiet_trans; [|apply quiet_setMedia].
    by apply quiet_refl.
  - unfold Video.update in *.
    destruct (componentDidUpdate_cases getKeyFromSource (Video.props this)
                (Video.mkVideoBase p (Video.isPlayerMounted this) (Video.loaded_video this)
                   (Video.loaded_preload this) (Video.loadStartEvent this)
                   (Video.video this) (Video.preloadVideo this) (Video.calls this)))
      as (before & Hq & _ & _ & _ & _ & _ & Heq).
    rewrite Heq in *. destruct (_ && _).
    + eapply autoPlay_guarded; [|exact Hnew|exact Hin].
      eapply quiet_trans; [|exact Hq]. by apply quiet_refl.
    + exfalso. eapply quiet_no_play; [|exact Hnew|exact Hin].
      eapply quiet_trans; [|exact Hq]. by apply quiet_refl.
  - exfalso. eapply quiet_no_play; [|exact Hnew|exact Hin]. apply quiet_clearMedia.
  - eapply autoPlay_guarded; [|exact Hnew|exact Hin]. by apply quiet_refl.
  - eapply autoPlay_guarded; [|exact Hnew|exact Hin]. by apply quiet_refl.
  - exfalso. eapply quiet_no_play; [|exact Hnew|exact Hin].
    unfold Video.setVideoRef. eapply quiet_trans; [|apply quiet_setMedia].
    by apply quiet_refl.
  - exfalso. eapply quiet_no_play; [|exact Hnew|exact Hin].
    unfold Video.setPreloadRef. destruct n as [n|]; [|by apply quiet_refl].
    destruct (negb _); [|by apply quiet_refl].
    eapply quiet_trans; [by apply (quiet_call this (Video.Load n))|]. by apply quiet_refl.
Qed.

Lemma play_only_when_allowed_witness :
  let ready :=
    Video.instanceOf
      (Video.handleVideoLoadStart 7%nat
         (Video.setVideoRef (Some 1%nat)
            (Video.componentDidMount
               (Video.constructor
                  (Video.Build_Props (Some "a.mp4") (Some "b.mp4") false None))))) in
  exists this',
    Video.fire (default "") Video.PreloadVideoLoadStart ready = Video.Ok this'
    /\ Video.canPlay this' = true.
Proof.
  intros ready.
  destruct (play_only_when_allowed (default "") Video.PreloadVideoLoadStart ready
              [Video.Play 1%nat; Video.ForwardLoadStart (Some 7%nat)] 1%nat)
    as (this' & Hfire & Hcan & _).
  - reflexivity.
  - by left.
  - exists this'. by split.
Defined.

(** X20: when an update brings a source whose key differs from the keys of
    the previous source and of the previous preload source, the update
    returns without calling [play()] and leaves the video marked as not
    loaded, so that [canPlay()] fails until its load start.  When the new
    source has the key of the previous preload source, the video keeps its
    loaded mark and the update ends by trying to play: if the result can
    play, auto play is allowed and there is a video node, [play()] on that
    node and the forwarded load start are its last two calls. *)
Theorem update_source_switch {S : Type} (getKeyFromSource : option S -> string)
    (p : Video.Props) (this : @Video.VideoBase S) :
  is_Some (Video.source p) ->
  let key := getKeyFromSource (Video.source p) in
  let prevKey := getKeyFromSource (Video.source (Video.props this)) in
  let prevPreloadKey := getKeyFromSource (Video.preloadSource (Video.props this)) in
  (key <> prevKey -> key <> prevPreloadKey ->
   exists this',
     Video.update getKeyFromSource p this = Video.Ok this'
     /\ Video.quiet this this'
     /\ Video.loaded_video this' = false
     /\ Video.canPlay this' = false)
  /\ (key = prevPreloadKey ->
      Video.loaded_video (Video.instanceOf (Video.update getKeyFromSource p this))
      = Video.loaded_video this
      /\ forall node,
           Video.video this = Some node ->
           Video.noAutoPlay p = false ->
           Video.canPlay (Video.instanceOf (Video.update getKeyFromSource p this)) = true ->
           exists this' pre,
             Video.update getKeyFromSource p this = Video.Ok this'
             /\ Video.calls this'
                = Video.calls this ++ pre
                  ++ [Video.Play node; Video.ForwardLoadStart (Video.loadStartEvent this)]
             /\ forall n, Video.Play n ∉ pre).
Proof.
  intros Hs key prevKey prevPreloadKey. unfold Video.update.
  destruct (componentDidUpdate_cases getKeyFromSource (Video.props this)
              (Video.mkVideoBase p (Video.isPlayerMounted this) (Video.loaded_video this)
                 (Video.loaded_preload this) (Video.loadStartEvent this)
                 (Video.video this) (Video.preloadVideo this) (Video.calls this)))
    as (before & Hq & Hp & Hv & Hm & Hev & Hlv & Heq).
  cbn [Video.props Video.video Video.isPlayerMounted Video.loaded_video
       Video.loadStartEvent] in Hp, Hv, Hm, Hev, Hlv, Heq.
  fold key prevKey prevPreloadKey in Hlv, Heq.
  rewrite (bool_decide_eq_true_2 _ Hs) in Hlv, Heq. cbn [andb] in Hlv, Heq.
  assert (Hq' : Video.quiet this before).
  { eapply quiet_trans; [|exact Hq]. by apply quiet_refl. }
  rewrite Heq. split.
  - intros Hk Hpk.
    apply String.eqb_neq in Hk, Hpk. rewrite Hk, Hpk in Hlv. cbn in Hlv.
    rewrite String.eqb_sym, Hpk. exists before.
    split; [done|]. split; [done|]. split; [done|].
    unfold Video.canPlay. by rewrite Hlv, andb_false_r.
  - intros Hpk. rewrite Hpk, String.eqb_refl in *.
    rewrite andb_false_r in Hlv. split.
    + destruct (autoPlay_cases before)
        as [[-> _]|[(n & _ & _ & _ & ->)|(_ & _ & _ & ->)]]; done.
    + intros node Hnode Hnap Hcan.
      destruct (autoPlay_cases before)
        as [[Ha [Hn|Hc]]|[(n & Hvn & _ & _ & Ha)|(Hvn & _ & _ & Ha)]];
        rewrite Ha in *; cbn [Video.instanceOf] in Hcan.
      * rewrite Hp in Hn. congruence.
      * congruence.
      * destruct Hq' as (pre & Hpre & Hno). rewrite Hv, Hnode in Hvn. injection Hvn as <-.
        eexists. exists pre. split; [reflexivity|]. split; [|done].
        cbn [Video.calls Video.call]. by rewrite Hpre, Hev, <- !app_assoc.
      * rewrite Hv, Hnode in Hvn. discriminate.
Qed.


Lemma update_source_switch_witness :
  let ready :=
    Video.instanceOf
      (Video.handleVideoLoadStart 7%nat
         (Video.setVideoRef (Some 1%nat)
            (Video.componentDidMount
               (Video.constructor
                  (Video.Build_Props (Some "a.mp4") (Some "b.mp4") false None))))) in
  exists this',
    Video.update (default "") (Video.Build_Props (Some "b.mp4") None false None) ready
    = Video.Ok this'
    /\ Video.calls this' = [Video.Play 1%nat; Video.ForwardLoadStart (Some 7%nat)].
Proof.
  intros ready.
  destruct (update_source_switch (default "")
              (Video.Build_Props (Some "b.mp4") None false None) ready) as [_ H];
    [by eexists|].
  destruct H as [_ H]; [reflexivity|].
  destruct (H 1%nat) as (this' & pre & Hrun & Hcalls & _);
    [reflexivity|reflexivity|reflexivity|].
  exists this'. split; [exact Hrun|].
  vm_compute in Hrun. injection Hrun as <-. reflexivity.
Defined.
